(** * A shallow embedding of the 7k card-matching solver

    The development follows [solver.py] and [matching.py]: the greedy
    non-maximum suppression, the multi-scale localizer, the row-major
    layout sort, the stable-window scan, the per-cell face tracker, the
    greedy pair solver and the layout file round trip.

    Conventions.
    - Python integers are [Z] (cell indices, which come from [enumerate]
      and dictionary keys, are [nat]).
    - Python and numpy floating-point scores are idealised as rationals
      [Q]; rounding is not modelled.
    - A Python function that can raise returns a [result].
    - Dictionaries are [gmap]s, sets are [gset]s.
    - Calls into OpenCV and numpy image routines are the fields of the
      class [Cv2]; they are assumed to return normally. *)

From Stdlib Require Import ZArith QArith Qabs Lqa Lia List Sorted Permutation.
From stdpp Require Import gmap strings list fin_maps sorting.

Open Scope Z_scope.

(* ===================================================================== *)
(** * Part I: the embedding of the source *)
(* ===================================================================== *)

(** ** Exceptions and results *)

Inductive exn : Type :=
| ZeroDivisionError   (* int / int with a zero divisor *)
| ValueError          (* min() or max() of an empty sequence *)
| OverflowError       (* int() of a float infinity *)
| KeyError            (* d[k] with k absent from the dictionary *)
| IndexError          (* l[i] with i out of range *)
| OutOfFuel.          (* the bounded unrolling of a while loop ran out *)

Inductive result (A : Type) : Type :=
| Ok (a : A)
| Raise (e : exn).
Arguments Ok {A} a.
Arguments Raise {A} e.

#[global] Instance result_ret : MRet result := fun A a => Ok a.

#[global] Instance result_bind : MBind result := fun A B k c =>
  match c with
  | Ok a => k a
  | Raise e => Raise e
  end.

#[global] Instance result_fmap : FMap result := fun A B f c =>
  match c with
  | Ok a => Ok (f a)
  | Raise e => Raise e
  end.

(** ** Comparisons on scores *)

(** [x < y] on floats, as a boolean. *)
Definition Qltb (x y : Q) : bool := negb (Qle_bool y x).

(** [int(q)]: truncation toward zero. *)
Definition Qtrunc (q : Q) : Z := Z.quot (Qnum q) (Zpos (Qden q)).

(** [np.mean] of a non-empty sequence of integers. *)
Definition mean_Z (l : list Z) : Q :=
  Qdiv (inject_Z (foldr Z.add 0 l)) (inject_Z (Z.of_nat (length l))).

(** ** Stable sorting

    [sorted], [list.sort] and [np.lexsort] are stable.  [before x y]
    tells whether [x], met earlier in the input, stays in front of [y]. *)

Section StableSort.
Context {A : Type} (before : A -> A -> bool).

Fixpoint insert_stable (x : A) (l : list A) : list A :=
  match l with
  | [] => [x]
  | y :: l' => if before x y then x :: y :: l' else y :: insert_stable x l'
  end.

Definition sort_stable (l : list A) : list A := foldr insert_stable [] l.
End StableSort.

(** ** Detections and greedy non-maximum suppression ([CardSolver._nms]) *)

(** A detection is the tuple [(x, y, w, h, score)]. *)
Record Detection : Type := mkDetection {
  det_x : Z;
  det_y : Z;
  det_w : Z;
  det_h : Z;
  det_score : Q
}.

Definition overlap_thresh : Q := 3 # 10.

(** [w_overlap * h_overlap] for [best] and [d]. *)
Definition intersection_area (best d : Detection) : Z :=
  let x1 := Z.max (det_x best) (det_x d) in
  let y1 := Z.max (det_y best) (det_y d) in
  let x2 := Z.min (det_x best + det_w best) (det_x d + det_w d) in
  let y2 := Z.min (det_y best + det_h best) (det_y d + det_h d) in
  let w_overlap := Z.max 0 (x2 - x1) in
  let h_overlap := Z.max 0 (y2 - y1) in
  w_overlap * h_overlap.

Definition box_area (d : Detection) : Z := det_w d * det_h d.

(** The quotient [(w_overlap * h_overlap) / (best[2] * best[3])] when the
    divisor is not zero. *)
Definition overlap_fraction (best d : Detection) : Q :=
  (inject_Z (intersection_area best d) / inject_Z (box_area best))%Q.

(** [overlap = (w_overlap * h_overlap) / (best[2] * best[3])]: on Python
    integers a zero divisor raises.  In [detect_card_locations] and
    [solve_frames] every box is 10 by 10 at least. *)
Definition overlap (best d : Detection) : result Q :=
  if box_area best =? 0 then Raise ZeroDivisionError
  else Ok (overlap_fraction best d).

(** The inner [for d in detections] loop: [remaining] collects the
    detections whose overlap with [best] is below the threshold. *)
Fixpoint suppress (thresh : Q) (best : Detection) (detections : list Detection)
  : result (list Detection) :=
  match detections with
  | [] => Ok []
  | d :: rest =>
      o ← overlap best d;
      remaining ← suppress thresh best rest;
      Ok (if Qltb o thresh then d :: remaining else remaining)
  end.

(** [x] stays in front of [y] when sorting by score, highest first. *)
Definition score_before (x y : Detection) : bool :=
  Qle_bool (det_score y) (det_score x).

(** The [while detections] loop, unrolled at most [fuel] times. *)
Fixpoint nms_loop (fuel : nat) (thresh : Q) (detections pick : list Detection)
  : result (list Detection) :=
  match detections with
  | [] => Ok pick
  | best :: rest =>
      match fuel with
      | O => Raise OutOfFuel
      | S fuel' =>
          remaining ← suppress thresh best rest;
          nms_loop fuel' thresh remaining (pick ++ [best])
      end
  end.

Definition _nms_with (thresh : Q) (detections : list Detection)
  : result (list Detection) :=
  match detections with
  | [] => Ok []
  | _ =>
      let detections := sort_stable score_before detections in
      nms_loop (length detections) thresh detections []
  end.

(** [_nms(detections)] with the default [overlap_thresh = 0.3]. *)
Definition _nms (detections : list Detection) : result (list Detection) :=
  _nms_with overlap_thresh detections.

(** ** The image library

    What the solver asks of OpenCV and numpy.  The fields are the calls
    of the source, named after what they return; their results are not
    constrained in any way. *)

(** A rectangle [(x_min, y_min, x_max, y_max)] used to slice an image. *)
Record Rect : Type := mkRect {
  x_min : Z;
  y_min : Z;
  x_max : Z;
  y_max : Z
}.

Class Cv2 : Type := {
  (** a BGR frame *)
  Image : Type;
  (** a single-channel crop *)
  Gray : Type;
  (** a BGR crop, as kept in [card_faces] *)
  Crop : Type;
  (** [(tw, th) = (int(template_w * scale), int(template_h * scale))] for
      each [scale] of [np.linspace(0.2, 1.8, 30)], in that order *)
  scale_sizes : list (Z * Z);
  (** [matchTemplate] of the gray frame against the template resized to
      [(tw, th)], then [np.where(res >= 0.55)]: the points
      [(pt[0], pt[1], res[pt[1], pt[0]])] in the order of the [zip] *)
  match_locations : Image -> Z * Z -> list (Z * Z * Q);
  (** [gray_frame.shape]: rows, then columns *)
  frame_shape : Image -> Z * Z;
  (** [gray_frame[y_min:y_max, x_min:x_max]] *)
  gray_roi : Image -> Rect -> Gray;
  (** [frame[y_min:y_max, x_min:x_max].copy()] *)
  color_roi : Image -> Rect -> Crop;
  (** [card_roi.shape]: rows, then columns *)
  roi_shape : Gray -> Z * Z;
  (** [self.back_card_gray] *)
  back_card_gray : Gray;
  (** [cv2.resize(img, (width, height))] *)
  resize : Gray -> Z * Z -> Gray;
  (** [cv2.matchTemplate(roi, back, TM_CCOEFF_NORMED)[0][0]] *)
  match_score : Gray -> Gray -> Q;
  (** [np.mean(cv2.absdiff(roi, back_ref))] *)
  mean_absdiff : Gray -> Gray -> Q;
  (** [np.mean(roi)] *)
  mean_gray : Gray -> Q;
  (** a face converted to gray, resized to 64 by 64 and equalised *)
  Canon : Type;
  canonical : Crop -> Canon;
  (** [cv2.matchTemplate(a, b, TM_CCOEFF_NORMED)[0][0]] on canonical faces *)
  similarity : Canon -> Canon -> Q
}.

(** [card_roi.size] *)
Definition roi_size `{Cv2} (g : Gray) : Z := fst (roi_shape g) * snd (roi_shape g).

(** ** The localizer ([CardSolver.detect_card_locations]) *)

(** [abs(len(detections) - 24)] *)
Definition count_gap (detections : list Detection) : Z :=
  Z.abs (Z.of_nat (length detections) - 24).

(** [not detections] *)
Definition is_empty {A : Type} (l : list A) : bool :=
  match l with
  | [] => true
  | _ :: _ => false
  end.

(** The detections collected at one scale, before suppression. *)
Definition scale_detections `{Cv2} (frame : Image) (size : Z * Z) : list Detection :=
  map (fun pt => mkDetection pt.1.1 pt.1.2 size.1 size.2 pt.2)
      (match_locations frame size).

(** The body of [for scale in np.linspace(0.2, 1.8, 30)], with
    [best_detections] threaded through. *)
Fixpoint scale_sweep `{Cv2} (frame : Image) (sizes : list (Z * Z))
    (best_detections : list Detection) : result (list Detection) :=
  match sizes with
  | [] => Ok best_detections
  | size :: sizes' =>
      if (size.1 <? 10) || (size.2 <? 10)
      then scale_sweep frame sizes' best_detections
      else
        detections ← _nms (scale_detections frame size);
        if Z.of_nat (length detections) =? 24 then Ok detections
        else if (count_gap detections <? count_gap best_detections)
                || is_empty best_detections
             then scale_sweep frame sizes' detections
             else scale_sweep frame sizes' best_detections
  end.

Definition detect_card_locations `{Cv2} (frame : Image) : result (list Detection) :=
  scale_sweep frame scale_sizes [].

(** The localizer as the specification words it: the detections of all
    scales are pooled, and the pool is suppressed once.  This definition
    follows the specification, not the source; it is compared with
    [detect_card_locations] below. *)
Definition pooled_detections `{Cv2} (frame : Image) : list Detection :=
  concat (map (scale_detections frame)
              (filter (fun size => negb ((size.1 <? 10) || (size.2 <? 10))) scale_sizes)).

Definition spec_pooled_localizer `{Cv2} (frame : Image) : result (list Detection) :=
  _nms (pooled_detections frame).

(** ** The row-major layout ([CardSolver._detections_to_polygons]) *)

(** A polygon is its list of corner points [(x, y)].  Pixel coordinates
    are far below [2^31], so their [int32] storage is not modelled. *)
Abbreviation Polygon := (list (Z * Z)).

Definition detection_polygon (d : Detection) : Polygon :=
  [ (det_x d, det_y d);
    (det_x d + det_w d, det_y d);
    (det_x d + det_w d, det_y d + det_h d);
    (det_x d, det_y d + det_h d) ].

(** [np.mean(poly, axis=0)] *)
Definition centroid (poly : Polygon) : Q * Q :=
  (mean_Z (map fst poly), mean_Z (map snd poly)).

(** [int(c[1] / bin_size)]: a zero [bin_size] makes the quotient a nan
    or an infinity, which [int] refuses. *)
Definition row_bin (bin_size : Q) (c : Q * Q) : result Z :=
  if Qeq_bool bin_size 0
  then (if Qeq_bool c.2 0 then Raise ValueError else Raise OverflowError)
  else Ok (Qtrunc (c.2 / bin_size)).

(** The order of [np.lexsort]: by the last key, then by the first. *)
Definition lex_before (k1 k2 : Z * Q) : bool :=
  (k1.1 <? k2.1) || ((k1.1 =? k2.1) && Qle_bool k1.2 k2.2).

Definition lexsort (secondary : list Q) (primary : list Z) : list nat :=
  sort_stable
    (fun i j => lex_before (nth i primary 0, nth i secondary 0%Q)
                           (nth j primary 0, nth j secondary 0%Q))
    (seq 0 (length primary)).

(** [bin_size = avg_h * 0.5] *)
Definition row_bin_size (detections : list Detection) : Q :=
  (mean_Z (map det_h detections) * (1 # 2))%Q.

(** [sorted_indices] *)
Definition row_major_order (detections : list Detection) : result (list nat) :=
  let polygons := map detection_polygon detections in
  let bin_size := row_bin_size detections in
  let centroids := map centroid polygons in
  bins ← mapM (row_bin bin_size) centroids;
  Ok (lexsort (map fst centroids) bins).

Definition _detections_to_polygons (detections : list Detection) : result (list Polygon) :=
  match detections with
  | [] => Ok []
  | _ =>
      let polygons := map detection_polygon detections in
      sorted_indices ← row_major_order detections;
      Ok (map (fun i => nth i polygons []) sorted_indices)
  end.

(** ** Cell rectangles *)

(** [min(xs)] and [max(xs)]: an empty sequence raises. *)
Definition py_min (l : list Z) : result Z :=
  match l with
  | [] => Raise ValueError
  | x :: l' => Ok (foldl Z.min x l')
  end.

Definition py_max (l : list Z) : result Z :=
  match l with
  | [] => Raise ValueError
  | x :: l' => Ok (foldl Z.max x l')
  end.

(** The bounding box of [poly], clamped to [0 .. width] by [0 .. height]:
    [max(0, min(xs)), max(0, min(ys)), min(width, max(xs)), min(height, max(ys))]. *)
Definition clamped_rect (width height : Z) (poly : Polygon) : result Rect :=
  let xs := map fst poly in
  let ys := map snd poly in
  lo_x ← py_min xs;
  lo_y ← py_min ys;
  hi_x ← py_max xs;
  hi_y ← py_max ys;
  Ok (mkRect (Z.max 0 lo_x) (Z.max 0 lo_y) (Z.min width hi_x) (Z.min height hi_y)).

(** ** The session stabilizer (the stable-window scan of [CardSolver.solve_frames]) *)

(** An element of [captured_frames]: [(ts, frame, reg)], where [reg] is
    the capture region [(left, top, width, height)]. *)
Record FrameSample `{Cv2} : Type := mkFrameSample {
  sample_ts : Q;
  sample_frame : Image;
  sample_region : Z * Z * Z * Z
}.
Arguments mkFrameSample {_} _ _ _.

Definition region_width (reg : Z * Z * Z * Z) : Z := reg.1.2.
Definition region_height (reg : Z * Z * Z * Z) : Z := reg.2.

(** One turn of [for poly in self.locations]: does the cell add one to
    [back_count]? *)
Definition cell_is_back `{Cv2} (s : FrameSample) (poly : Polygon) : result bool :=
  r ← clamped_rect (region_width (sample_region s)) (region_height (sample_region s)) poly;
  let card_roi := gray_roi (sample_frame s) r in
  if roi_size card_roi =? 0 then Ok false
  else
    let back_resized :=
      resize back_card_gray ((roi_shape card_roi).2, (roi_shape card_roi).1) in
    Ok (Qltb (6 # 10) (match_score card_roi back_resized)).

Fixpoint back_count `{Cv2} (s : FrameSample) (locations : list Polygon) : result Z :=
  match locations with
  | [] => Ok 0
  | poly :: rest =>
      b ← cell_is_back s poly;
      n ← back_count s rest;
      Ok (if (b : bool) then 1 + n else n)
  end.

(** [back_count >= 22] *)
Definition frame_is_stable `{Cv2} (locations : list Polygon) (s : FrameSample) : result bool :=
  n ← back_count s locations;
  Ok (22 <=? n).

(** The three variables of the scan. *)
Record scan_state : Type := mkScan {
  all_back_sequences : list (Z * Z);
  current_seq_start : Z;
  stable_count : Z
}.

Definition scan_init : scan_state := mkScan [] (-1) 0.

(** The body of the scan for frame [i], given [back_count >= 22]. *)
Definition scan_step (st : scan_state) (i : Z) (stable : bool) : scan_state :=
  if stable then
    mkScan (all_back_sequences st)
           (if current_seq_start st =? -1 then i else current_seq_start st)
           (stable_count st + 1)
  else
    mkScan (if negb (current_seq_start st =? -1) && (3 <=? stable_count st)
            then all_back_sequences st ++ [(current_seq_start st, i - 1)]
            else all_back_sequences st)
           (-1) 0.

Fixpoint scan_from (i : Z) (flags : list bool) (st : scan_state) : scan_state :=
  match flags with
  | [] => st
  | stable :: rest => scan_from (i + 1) rest (scan_step st i stable)
  end.

(** The statement after the loop, which closes a run that reaches the
    last frame. *)
Definition scan_close (n : Z) (st : scan_state) : list (Z * Z) :=
  if negb (current_seq_start st =? -1) && (3 <=? stable_count st)
  then all_back_sequences st ++ [(current_seq_start st, n - 1)]
  else all_back_sequences st.

(** [(baseline_idx, start_idx)] *)
Definition choose_window (sequences : list (Z * Z)) : Z * Z :=
  match sequences with
  | [] => (0, 0)
  | first_seq :: _ => ((first_seq.1 + first_seq.2) / 2, first_seq.2)
  end.

Definition stable_sequences (flags : list bool) : list (Z * Z) :=
  scan_close (Z.of_nat (length flags)) (scan_from 0 flags scan_init).

Definition stable_window (flags : list bool) : Z * Z :=
  choose_window (stable_sequences flags).

(** The scan over [captured_frames]: the stability of each frame is
    computed from its cells, and the runs are read off the flags. *)
Definition find_stable_window `{Cv2} (locations : list Polygon)
    (captured_frames : list FrameSample) : result (Z * Z) :=
  flags ← mapM (frame_is_stable locations) captured_frames;
  Ok (stable_window flags).

(** ** The face tracker ([CardSolver._process_frame_for_faces]) *)

(** [d[k]] *)
Definition lookup_key {V : Type} (d : gmap nat V) (k : nat) : result V :=
  match d !! k with
  | Some v => Ok v
  | None => Raise KeyError
  end.

(** The two dictionaries the tracker updates: [max_diffs] and
    [self.card_faces]. *)
Record tracker_state `{Cv2} : Type := mkTracker {
  max_diffs : gmap nat Q;
  card_faces : gmap nat Crop
}.
Arguments mkTracker {_} _ _.

(** The rectangle of a cell in [frame], clamped to [gray_frame.shape]. *)
Definition frame_rect `{Cv2} (frame : Image) (poly : Polygon) : result Rect :=
  clamped_rect (frame_shape frame).2 (frame_shape frame).1 poly.

(** [back_ref]: the cell's own baseline when there is one, the resized
    template otherwise; resized once more when its shape differs from
    the crop's. *)
Definition back_reference `{Cv2} (per_card_baselines : option (gmap nat Gray))
    (i : nat) (card_roi : Gray) : Gray :=
  let target := ((roi_shape card_roi).2, (roi_shape card_roi).1) in
  let back_ref :=
    match per_card_baselines with
    | Some baselines =>
        match baselines !! i with
        | Some b => b
        | None => resize back_card_gray target
        end
    | None => resize back_card_gray target
    end in
  if decide (roi_shape card_roi = roi_shape back_ref) then back_ref
  else resize back_ref target.

(** What one frame offers for one cell: the difference score, the mean
    brightness and the colour crop.  [None] stands for an empty crop,
    which the loop skips. *)
Record Candidate `{Cv2} : Type := mkCandidate {
  cand_diff : Q;
  cand_brightness : Q;
  cand_crop : Crop
}.
Arguments mkCandidate {_} _ _ _.

Definition cell_candidate `{Cv2} (per_card_baselines : option (gmap nat Gray))
    (frame : Image) (i : nat) (poly : Polygon) : result (option Candidate) :=
  r ← frame_rect frame poly;
  let card_roi := gray_roi frame r in
  if roi_size card_roi =? 0 then Ok None
  else
    let back_ref := back_reference per_card_baselines i card_roi in
    Ok (Some (mkCandidate (mean_absdiff card_roi back_ref)
                          (mean_gray card_roi)
                          (color_roi frame r))).

(** The brightness test, [np.mean(card_roi) > 170]. *)
Definition too_bright `{Cv2} (c : Candidate) : bool := Qltb 170 (cand_brightness c).

(** The last three statements of the loop body. *)
Definition offer `{Cv2} (st : tracker_state) (i : nat) (c : Candidate)
  : result tracker_state :=
  if too_bright c then Ok st
  else
    best ← lookup_key (max_diffs st) i;
    if Qltb best (cand_diff c)
    then Ok (mkTracker (<[i := cand_diff c]> (max_diffs st))
                       (<[i := cand_crop c]> (card_faces st)))
    else Ok st.

(** One turn of [for i, poly in enumerate(self.locations)]. *)
Definition process_cell `{Cv2} (per_card_baselines : option (gmap nat Gray))
    (frame : Image) (st : tracker_state) (i : nat) (poly : Polygon)
  : result tracker_state :=
  c ← cell_candidate per_card_baselines frame i poly;
  match c with
  | None => Ok st
  | Some c => offer st i c
  end.

Fixpoint process_cells `{Cv2} (per_card_baselines : option (gmap nat Gray))
    (frame : Image) (i : nat) (locations : list Polygon) (st : tracker_state)
  : result tracker_state :=
  match locations with
  | [] => Ok st
  | poly :: rest =>
      st' ← process_cell per_card_baselines frame st i poly;
      process_cells per_card_baselines frame (S i) rest st'
  end.

Definition _process_frame_for_faces `{Cv2} (locations : list Polygon)
    (frame : Image) (st : tracker_state)
    (per_card_baselines : option (gmap nat Gray)) : result tracker_state :=
  process_cells per_card_baselines frame 0%nat locations st.

(** [for ts, frame, reg in captured_frames[start_idx:]] *)
Fixpoint track `{Cv2} (locations : list Polygon)
    (per_card_baselines : option (gmap nat Gray))
    (frames : list Image) (st : tracker_state) : result tracker_state :=
  match frames with
  | [] => Ok st
  | frame :: rest =>
      st' ← _process_frame_for_faces locations frame st per_card_baselines;
      track locations per_card_baselines rest st'
  end.

(** [max_diffs = {i: 0.0 for i in range(len(self.locations))}] and
    [self.card_faces = {}] *)
Definition tracker_init `{Cv2} (n : nat) : tracker_state :=
  mkTracker (list_to_map (map (fun i => (i, 0%Q)) (seq 0 n))) ∅.

(** ** The pair solver ([CardSolver.find_pairs]) *)

(** [sorted(d.keys())] *)
Definition sorted_keys {V : Type} (d : gmap nat V) : list nat :=
  sort_stable Nat.leb (map fst (map_to_list d)).

(** The first loop: [processed_faces[idx]] for each index. *)
Fixpoint preprocess `{Cv2} (faces : gmap nat Crop) (indices : list nat)
    (processed_faces : gmap nat Canon) : result (gmap nat Canon) :=
  match indices with
  | [] => Ok processed_faces
  | idx :: rest =>
      face ← lookup_key faces idx;
      preprocess faces rest (<[idx := canonical face]> processed_faces)
  end.

(** The inner loop over [j] for a fixed [idx1 = indices[i]]. *)
Fixpoint score_row `{Cv2} (processed_faces : gmap nat Canon) (idx1 : nat)
    (others : list nat) : result (list (Q * nat * nat)) :=
  match others with
  | [] => Ok []
  | idx2 :: rest =>
      a ← lookup_key processed_faces idx1;
      b ← lookup_key processed_faces idx2;
      row ← score_row processed_faces idx1 rest;
      Ok ((similarity a b, idx1, idx2) :: row)
  end.

(** The outer loop over [i]. *)
Fixpoint score_pairs `{Cv2} (processed_faces : gmap nat Canon)
    (indices : list nat) : result (list (Q * nat * nat)) :=
  match indices with
  | [] => Ok []
  | idx1 :: rest =>
      row ← score_row processed_faces idx1 rest;
      scores ← score_pairs processed_faces rest;
      Ok (row ++ scores)
  end.

(** [scores.sort(key=lambda x: x[0], reverse=True)] *)
Definition triple_before (x y : Q * nat * nat) : bool := Qle_bool y.1.1 x.1.1.

Definition min_confidence : Q := 4 # 10.

(** The greedy selection loop, with [pairs] and [matched_indices]. *)
Fixpoint greedy_select (scores : list (Q * nat * nat)) (pairs : list (nat * nat))
    (matched_indices : gset nat) : list (nat * nat) :=
  match scores with
  | [] => pairs
  | (score, idx1, idx2) :: rest =>
      if decide (idx1 ∈ matched_indices ∨ idx2 ∈ matched_indices)
      then greedy_select rest pairs matched_indices
      else
        let accepted := Qltb min_confidence score in
        let pairs' := if accepted then pairs ++ [(idx1, idx2)] else pairs in
        let matched' :=
          if accepted then {[idx2]} ∪ ({[idx1]} ∪ matched_indices)
          else matched_indices in
        if (length pairs' =? 12)%nat then pairs'
        else greedy_select rest pairs' matched'
  end.

Definition find_pairs `{Cv2} (faces : gmap nat Crop) : result (list (nat * nat)) :=
  let indices := sorted_keys faces in
  processed_faces ← preprocess faces indices ∅;
  scores ← score_pairs processed_faces indices;
  Ok (greedy_select (sort_stable triple_before scores) [] ∅).

(** ** The layout file ([save_locations_to_json], [load_locations_from_json]) *)

(** The JSON documents a layout file can hold, which are also the Python
    values [json.load] returns for them: integers and lists.  The text
    encoding of [json.dump] and its decoding by [json.load] belong to the
    Python library and are not modelled: a file holds a document. *)
#[warnings="-register-all"]
Inductive json : Type :=
| JInt (n : Z)
| JList (items : list json).

(** The files that hold a JSON document, and the paths [open(path, 'w')]
    accepts. *)
Record FileSystem : Type := mkFileSystem {
  fs_files : gmap string json;
  fs_writable : string -> bool
}.

(** [(int(point[0]), int(point[1]))], which [json.dump] writes as a
    two-element list. *)
Definition serializable_point (point : Z * Z) : json :=
  JList [JInt point.1; JInt point.2].

Definition serializable_poly (poly : Polygon) : json :=
  JList (map serializable_point poly).

Definition serializable_locations (locations : list Polygon) : json :=
  JList (map serializable_poly locations).

(** A failed [open] raises inside the [try]; the handler prints and the
    file system is left as it was. *)
Definition save_locations_to_json (locations : list Polygon) (filepath : string)
    (fs : FileSystem) : FileSystem :=
  if fs_writable fs filepath
  then mkFileSystem (<[filepath := serializable_locations locations]> (fs_files fs))
                    (fs_writable fs)
  else fs.

(** A missing or unreadable file raises inside the [try]; the handler
    returns the empty list. *)
Definition load_locations_from_json (filepath : string) (fs : FileSystem) : json :=
  match fs_files fs !! filepath with
  | Some locations => locations
  | None => JList []
  end.

(** A loaded value read as a region list: a list of polygons, each a
    list of points, each a two-element list of integers. *)
Definition as_point (j : json) : option (Z * Z) :=
  match j with
  | JList [JInt x; JInt y] => Some (x, y)
  | _ => None
  end.

Definition as_polygon (j : json) : option Polygon :=
  match j with
  | JList points => mapM as_point points
  | JInt _ => None
  end.

Definition as_regions (j : json) : option (list Polygon) :=
  match j with
  | JList polys => mapM as_polygon polys
  | JInt _ => None
  end.

(** ** The session ([CardSolver.solve_frames]) *)

(** [captured_frames[i] for i in range(0, len(captured_frames), 2)] *)
Fixpoint every_other {A : Type} (l : list A) : list A :=
  match l with
  | [] => []
  | x :: rest =>
      x :: match rest with
           | [] => []
           | _ :: rest' => every_other rest'
           end
  end.

(** The calibration loop: the detections of the sampled frames are
    pooled in [all_detections]; the loop stops as soon as the suppressed
    pool counts 24. *)
Fixpoint accumulate_detections `{Cv2} (frames : list Image)
    (all_detections : list Detection) : result (list Detection) :=
  match frames with
  | [] => Ok all_detections
  | frame :: rest =>
      frame_detections ← detect_card_locations frame;
      let all_detections :=
        if is_empty frame_detections then all_detections
        else all_detections ++ frame_detections in
      unique_detections ← _nms all_detections;
      if Z.of_nat (length unique_detections) =? 24 then Ok all_detections
      else accumulate_detections rest all_detections
  end.

(** How the calibration ends: the session returns at once, or goes on
    with a layout. *)
Inductive calibration : Type :=
| SessionReturns
| Layout (locations : list Polygon).

(** The first part of [solve_frames], down to the assignment of
    [self.locations]. *)
Definition calibrate `{Cv2} (locations : list Polygon)
    (captured_frames : list FrameSample) : result calibration :=
  if is_empty captured_frames then Ok SessionReturns
  else
    all_detections ←
      accumulate_detections (map sample_frame (every_other captured_frames)) [];
    final_detections ← _nms all_detections;
    if is_empty final_detections then
      (if is_empty locations then Ok SessionReturns else Ok (Layout locations))
    else
      locations' ← _detections_to_polygons final_detections;
      Ok (Layout locations').

(** [captured_frames[i]] for a non-negative [i] *)
Definition frame_at `{Cv2} (captured_frames : list FrameSample) (i : Z)
  : result FrameSample :=
  match captured_frames !! Z.to_nat i with
  | Some s => Ok s
  | None => Raise IndexError
  end.

(** [per_card_baselines]: the crop of each cell in the baseline frame. *)
Fixpoint build_baselines `{Cv2} (baseline : FrameSample) (i : nat)
    (locations : list Polygon) (per_card_baselines : gmap nat Gray)
  : result (gmap nat Gray) :=
  match locations with
  | [] => Ok per_card_baselines
  | poly :: rest =>
      r ← clamped_rect (region_width (sample_region baseline))
                       (region_height (sample_region baseline)) poly;
      build_baselines baseline (S i) rest
        (<[i := gray_roi (sample_frame baseline) r]> per_card_baselines)
  end.

(** What a session that runs to its end leaves behind: the layout, the
    faces and the pairs. *)
Record session : Type := mkSession {
  session_locations : list Polygon;
  session_window : Z * Z;
  session_pairs : list (nat * nat)
}.

(** [solve_frames], without its debug images and progress messages.
    [None] is the early [return]. *)
Definition solve_frames `{Cv2} (locations : list Polygon)
    (captured_frames : list FrameSample) : result (option session) :=
  c ← calibrate locations captured_frames;
  match c with
  | SessionReturns => Ok None
  | Layout locations =>
      window ← find_stable_window locations captured_frames;
      baseline ← frame_at captured_frames window.1;
      per_card_baselines ← build_baselines baseline 0%nat locations ∅;
      st ← track locations (Some per_card_baselines)
                 (map sample_frame (drop (Z.to_nat window.2) captured_frames))
                 (tracker_init (length locations));
      pairs ← find_pairs (card_faces st);
      Ok (Some (mkSession locations window pairs))
  end.

(** ** The frame buffer ([FrameBuffer]) *)

(** [self.frames] and [self.max_frames]. *)
Record FrameBuffer (A : Type) : Type := mkFrameBuffer {
  buffer_frames : list A;
  buffer_max_frames : Z
}.
Arguments mkFrameBuffer {A} _ _.
Arguments buffer_frames {A} _.
Arguments buffer_max_frames {A} _.

(** [FrameBuffer(max_frames)] *)
Definition buffer_new {A : Type} (max_frames : Z) : FrameBuffer A :=
  mkFrameBuffer [] max_frames.

(** [add]: append, then [pop(0)] when the list has grown past
    [max_frames]. *)
Definition buffer_add {A : Type} (b : FrameBuffer A) (entry : A) : FrameBuffer A :=
  let frames := buffer_frames b ++ [entry] in
  if buffer_max_frames b <? Z.of_nat (length frames)
  then mkFrameBuffer (drop 1 frames) (buffer_max_frames b)
  else mkFrameBuffer frames (buffer_max_frames b).

(** [clear] *)
Definition buffer_clear {A : Type} (b : FrameBuffer A) : FrameBuffer A :=
  mkFrameBuffer [] (buffer_max_frames b).

(** [get_all] *)
Definition buffer_get_all {A : Type} (b : FrameBuffer A) : list A := buffer_frames b.

(** ** Distinct template matches ([find_matches] of [matching.py])

    The part of [find_matches] that follows the call of
    [cv2.matchTemplate]: [w] and [h] are the template's width and
    height, and [matches] are the locations of [np.where(res >=
    threshold)] with their scores, [(x, y, res[y, x])]. *)

(** [(pt[0] - existing_pt[0]) ** 2 + (pt[1] - existing_pt[1]) ** 2] *)
Definition dist_sq (pt existing_pt : Z * Z) : Z :=
  (pt.1 - existing_pt.1) ^ 2 + (pt.2 - existing_pt.2) ^ 2.

(** [(w * 0.5) ** 2 + (h * 0.5) ** 2] *)
Definition min_dist_sq (w h : Z) : Q :=
  ((inject_Z w * (1 # 2)) ^ 2 + (inject_Z h * (1 # 2)) ^ 2)%Q.

(** The inner loop over [final_matches], which stops at the first
    match that is too close. *)
Fixpoint is_new (w h : Z) (pt : Z * Z) (final_matches : list (Z * Z)) : bool :=
  match final_matches with
  | [] => true
  | existing_pt :: rest =>
      if Qltb (inject_Z (dist_sq pt existing_pt)) (min_dist_sq w h) then false
      else is_new w h pt rest
  end.

(** The loop over [scored_matches]. *)
Fixpoint distinct_matches (w h : Z) (scored_matches : list (Z * Z * Q))
    (final_matches : list (Z * Z)) : list (Z * Z) :=
  match scored_matches with
  | [] => final_matches
  | (pt, score) :: rest =>
      distinct_matches w h rest
        (if is_new w h pt final_matches then final_matches ++ [pt]
         else final_matches)
  end.

(** [scored_matches.sort(key=lambda x: x[1], reverse=True)] *)
Definition match_before (x y : Z * Z * Q) : bool := Qle_bool y.2 x.2.

(** The polygon of a match: top-left, top-right, bottom-right,
    bottom-left. *)
Definition match_polygon (w h : Z) (pt : Z * Z) : Polygon :=
  [ (pt.1, pt.2); (pt.1 + w, pt.2); (pt.1 + w, pt.2 + h); (pt.1, pt.2 + h) ].

Definition final_matches_of (w h : Z) (matches : list (Z * Z * Q)) : list (Z * Z) :=
  distinct_matches w h (sort_stable match_before matches) [].

Definition find_matches (w h : Z) (matches : list (Z * Z * Q)) : list Polygon :=
  map (match_polygon w h) (final_matches_of w h matches).

(** ** The layout sort of the constructor ([CardSolver.__init__])

    The centroids are sorted by rows of 50 pixels, then by the
    horizontal coordinate.  A polygon without a point has a centroid
    that is not a pair: indexing it raises inside the [try], and the
    handler leaves the locations as they were loaded. *)
Definition init_sort_locations (locations : list Polygon) : list Polygon :=
  if existsb is_empty locations then locations
  else
    let centroids := map centroid locations in
    let sorted_indices :=
      lexsort (map fst centroids)
              (map (fun c : Q * Q => Qtrunc (c.2 / 50)) centroids) in
    map (fun i => nth i locations []) sorted_indices.

(** ** The game start ([CardSolver.detect_game_start_frame],
    [CardSolver.detect_game_start]) *)

(** [res[0][0]] for one cell of the layout. *)
Definition cell_back_score `{Cv2} (frame : Image) (poly : Polygon) : result Q :=
  r ← frame_rect frame poly;
  let card_roi := gray_roi frame r in
  let back_resized :=
    resize back_card_gray ((roi_shape card_roi).2, (roi_shape card_roi).1) in
  Ok (match_score card_roi back_resized).

(** The loop over [self.locations], with [all_back] threaded through. *)
Fixpoint all_back_loop `{Cv2} (frame : Image) (threshold : Q)
    (locations : list Polygon) (all_back : bool) : result bool :=
  match locations with
  | [] => Ok all_back
  | poly :: rest =>
      score ← cell_back_score frame poly;
      all_back_loop frame threshold rest
        (if Qltb score threshold then false else all_back)
  end.

Definition detect_game_start_frame `{Cv2} (locations : list Polygon)
    (frame : Image) (threshold : Q) : result bool :=
  all_back_loop frame threshold locations true.

(** A capture is the list of the frames [cap.read()] is still to
    return, each with its timestamp [CAP_PROP_POS_MSEC / 1000.0].  The
    loop returns [(started, timestamp)] and what is left of the
    capture. *)
Fixpoint detect_game_start_from `{Cv2} (locations : list Polygon) (threshold : Q)
    (cap : list (Image * Q)) (frame_count : Z)
  : result (bool * Q * list (Image * Q)) :=
  match cap with
  | [] => Ok (false, 0%Q, [])
  | (frame, timestamp) :: rest =>
      if frame_count mod 5 =? 0 then
        started ← detect_game_start_frame locations frame threshold;
        if (started : bool) then Ok (true, timestamp, rest)
        else detect_game_start_from locations threshold rest (frame_count + 1)
      else detect_game_start_from locations threshold rest (frame_count + 1)
  end.

Definition detect_game_start `{Cv2} (locations : list Polygon)
    (cap : list (Image * Q)) (threshold : Q)
  : result (bool * Q * list (Image * Q)) :=
  detect_game_start_from locations threshold cap 0.

(** ** The video session ([CardSolver.solve_video_session]) *)

(** The loop that reads the video: frame [frame_count] is stamped
    [frame_count / fps] and kept unless its stamp exceeds 8 seconds,
    which ends the loop.  A frame rate of zero makes the division
    raise. *)
Fixpoint read_video `{Cv2} (fps : Q) (video : list Image) (frame_count : Z)
    (captured_frames : list FrameSample) : result (list FrameSample) :=
  match video with
  | [] => Ok captured_frames
  | frame :: rest =>
      if Qeq_bool fps 0 then Raise ZeroDivisionError
      else
        let ts := (inject_Z frame_count / fps)%Q in
        if Qltb 8 ts then Ok captured_frames
        else
          read_video fps rest (frame_count + 1)
            (captured_frames
               ++ [mkFrameSample ts frame
                     (0, 0, (frame_shape frame).2, (frame_shape frame).1)])
  end.

(** [solve_video_session]; [None] stands for a video that cannot be
    opened. *)
Definition solve_video_session `{Cv2} (locations : list Polygon)
    (video : option (Q * list Image)) : result (option session) :=
  match video with
  | None => Ok None
  | Some (fps, frames) =>
      captured_frames ← read_video fps frames 0 [];
      solve_frames locations captured_frames
  end.

(* ===================================================================== *)
(** * Part II: the notions the statements use, and concrete inputs *)
(* ===================================================================== *)

(** ** Notions for the statements: greedy non-maximum suppression *)

(** [d] survives the pass of [best]. *)
Definition keeps (thresh : Q) (best d : Detection) : bool :=
  Qltb (overlap_fraction best d) thresh.

(** [a] is ranked at least as high as [b], and [b] overlaps less than
    [thresh] of the box of [a]. *)
Definition ranked_apart (thresh : Q) (a b : Detection) : Prop :=
  (det_score b <= det_score a)%Q /\ (overlap_fraction a b < thresh)%Q.

(** [d] is discarded in the pass of [b]: [b] is ranked at least as high
    and [d] overlaps [thresh] or more of the box of [b]. *)
Definition suppressed_by (thresh : Q) (d b : Detection) : Prop :=
  (det_score d <= det_score b)%Q /\ (thresh <= overlap_fraction b d)%Q.

Definition by_score (a b : Detection) : Prop := score_before a b = true.

(** [out] is what the greedy loop keeps of [detections], a list sorted
    by score: a sub-list with the same head, whose members are ranked
    apart, and that accounts for every detection. *)
Definition survivors_of (thresh : Q) (detections out : list Detection) : Prop :=
  out `sublist_of` detections
  /\ StronglySorted (ranked_apart thresh) out
  /\ (forall d, d ∈ detections ->
        d ∈ out \/ exists b, b ∈ out /\ suppressed_by thresh d b)
  /\ head out = head detections.

(** A large box and a small box in its corner, the large one ranked
    higher. *)
Definition big_box : Detection := mkDetection 0 0 10 10 (9 # 10).
Definition small_box : Detection := mkDetection 0 0 2 2 (8 # 10).

(** ** Notions for the statements: the scale sweep of the localizer *)

(** The scales the sweep does not skip. *)
Definition scale_tried (size : Z * Z) : bool :=
  negb ((size.1 <? 10) || (size.2 <? 10)).

(** The scale [size] is tried and its suppressed detections are [p]. *)
Definition yields_at `{Cv2} (frame : Image) (size : Z * Z) (p : list Detection) : Prop :=
  scale_tried size = true /\ _nms (scale_detections frame size) = Ok p.

(** Some scale of [sizes] is tried and yields [p]. *)
Definition yields_in `{Cv2} (frame : Image) (sizes : list (Z * Z))
    (p : list Detection) : Prop :=
  exists size, size ∈ sizes /\ yields_at frame size p.

Definition yields `{Cv2} (frame : Image) (p : list Detection) : Prop :=
  yields_in frame scale_sizes p.

(** ** A synthetic image library

    Frames that carry their own template matches and one gray level;
    used to run the definitions on concrete inputs. *)

Record synthetic_image : Type := mkSynthetic {
  syn_points : Z * Z -> list (Z * Z * Q);
  syn_rows : Z;
  syn_cols : Z;
  syn_level : Q
}.

Definition synthetic (sizes : list (Z * Z)) : Cv2 := {|
  Image := synthetic_image;
  Gray := Z * Z * Q;
  Crop := Q;
  scale_sizes := sizes;
  match_locations := fun img size => syn_points img size;
  frame_shape := fun img => (syn_rows img, syn_cols img);
  gray_roi := fun img r =>
    (Z.max 0 (y_max r - y_min r), Z.max 0 (x_max r - x_min r), syn_level img);
  color_roi := fun img r => syn_level img;
  roi_shape := fun g => (g.1.1, g.1.2);
  back_card_gray := (10, 10, 0%Q);
  resize := fun g size => (size.2, size.1, g.2);
  match_score := fun a b => if Qeq_bool a.2 b.2 then 1%Q else 0%Q;
  mean_absdiff := fun a b => Qabs (a.2 - b.2);
  mean_gray := fun a => a.2;
  Canon := Q;
  canonical := fun c => c;
  similarity := fun a b => if Qeq_bool a b then 1%Q else 0%Q
|}.

(** Two scales, templates of 10 by 10 and of 20 by 20. *)
Definition two_scales : Cv2 := synthetic [(10, 10); (20, 20)].

(** A frame with no match at the first scale and 49 matches, side by
    side, at the second. *)
Definition crowded_frame : @Image two_scales :=
  mkSynthetic
    (fun size => if size.1 =? 20
                 then map (fun k => (20 * Z.of_nat k, 0, 9 # 10)) (seq 0 49)
                 else [])
    100 1000 0.

(** A frame with one match at each scale, far apart. *)
Definition two_cards_frame : @Image two_scales :=
  mkSynthetic
    (fun size => if size.1 =? 10 then [(0, 0, 9 # 10)] else [(100, 0, 8 # 10)])
    100 1000 0.

(** ** Notions for the statements: the stable-window scan *)

(** Frame [i] exists and is stable face-down. *)
Definition stable_frame (flags : list bool) (i : Z) : Prop :=
  0 <= i /\ flags !! Z.to_nat i = Some true.

(** The frames [s .. e] are a maximal run of stable frames. *)
Definition maximal_run (flags : list bool) (s e : Z) : Prop :=
  0 <= s /\ s <= e
  /\ (forall k, s <= k <= e -> stable_frame flags k)
  /\ ~ stable_frame flags (s - 1)
  /\ ~ stable_frame flags (e + 1).

(** A maximal run of at least 3 frames. *)
Definition qualifying_run (flags : list bool) (s e : Z) : Prop :=
  maximal_run flags s e /\ 3 <= e - s + 1.

(** The first of the qualifying runs. *)
Definition first_qualifying_run (flags : list bool) (s e : Z) : Prop :=
  qualifying_run flags s e
  /\ forall s' e', qualifying_run flags s' e' -> s <= s'.

(** What the scan knows before it looks at frame [i]. *)
Record scan_inv (flags : list bool) (i : Z) (st : scan_state) : Prop := mkScanInv {
  inv_current :
    (current_seq_start st = -1 /\ stable_count st = 0
     /\ ~ stable_frame flags (i - 1))
    \/ (0 <= current_seq_start st < i
        /\ stable_count st = i - current_seq_start st
        /\ (forall k, current_seq_start st <= k < i -> stable_frame flags k)
        /\ ~ stable_frame flags (current_seq_start st - 1));
  inv_sound :
    forall s e, (s, e) ∈ all_back_sequences st ->
                qualifying_run flags s e /\ e + 1 < i;
  inv_complete :
    forall s e, qualifying_run flags s e -> e + 1 < i ->
                (s, e) ∈ all_back_sequences st;
  inv_sorted :
    StronglySorted (fun p q : Z * Z => p.1 < q.1) (all_back_sequences st)
}.

(** ** Concrete layouts and recordings *)

(** A layout of 22 cells and four frames: the first three show the card
    backs, the last does not. *)
Definition unit_square : Polygon := [(0, 0); (10, 0); (10, 10); (0, 10)].

Definition plain_frame (level : Q) : @FrameSample two_scales :=
  @mkFrameSample two_scales 0%Q (mkSynthetic (fun _ => []) 100 1000 level)
                 (0, 0, 1000, 100).

Definition opening_frames : list (@FrameSample two_scales) :=
  [plain_frame 0; plain_frame 0; plain_frame 0; plain_frame 5].

(** Three frames in which the template is found nowhere. *)
Definition blank_frames : list (@FrameSample two_scales) :=
  [plain_frame 5; plain_frame 5; plain_frame 5].

(** ** Notions for the statements: the row-major order *)

(** The horizontal and vertical centroid coordinates of a detection. *)
Definition centroid_x (d : Detection) : Q := (centroid (detection_polygon d)).1.
Definition centroid_y (d : Detection) : Q := (centroid (detection_polygon d)).2.

(** The row bucket of [d] in the layout of [detections]. *)
Definition row_of (detections : list Detection) (d : Detection) : result Z :=
  row_bin (row_bin_size detections) (centroid (detection_polygon d)).

(** [d'] is [d] moved horizontally by less than [jitter]. *)
Definition jittered (jitter : Q) (d d' : Detection) : Prop :=
  det_y d' = det_y d /\ det_h d' = det_h d
  /\ (centroid_x d - jitter < centroid_x d')%Q
  /\ (centroid_x d' < centroid_x d + jitter)%Q.

(** [a] and [b] are at least [gap] apart horizontally. *)
Definition apart (gap : Q) (a b : Detection) : Prop :=
  (gap <= centroid_x b - centroid_x a)%Q \/ (gap <= centroid_x a - centroid_x b)%Q.

(** Two boxes of height 8 in one row, one pixel apart, and the same two
    boxes after each has moved one pixel toward the other's place. *)
Definition close_pair : list Detection :=
  [mkDetection 0 0 8 8 (9 # 10); mkDetection 1 0 8 8 (9 # 10)].
Definition close_pair_jittered : list Detection :=
  [mkDetection 1 0 8 8 (9 # 10); mkDetection 0 0 8 8 (9 # 10)].

(** Two boxes of height 8 in one row, 20 pixels apart, and the same two
    boxes after each has moved one pixel. *)
Definition wide_pair : list Detection :=
  [mkDetection 20 0 8 8 (9 # 10); mkDetection 0 0 8 8 (9 # 10)].
Definition wide_pair_jittered : list Detection :=
  [mkDetection 19 0 8 8 (9 # 10); mkDetection 1 0 8 8 (9 # 10)].

(** ** Notions for the statements: the pair solver *)

(** The cell indices named by a list of pairs. *)
Definition paired_indices (pairs : list (nat * nat)) : list nat :=
  flat_map (fun p => [p.1; p.2]) pairs.

(** A score triple as [find_pairs] builds them: the smaller index first,
    both cells observed, the score their similarity. *)
Definition scored `{Cv2} (faces : gmap nat Crop) (t : Q * nat * nat) : Prop :=
  (t.1.2 < t.2)%nat
  /\ exists f1 f2,
       faces !! t.1.2 = Some f1 /\ faces !! t.2 = Some f2
       /\ t.1.1 = similarity (canonical f1) (canonical f2).

(** Four faces, alike two by two, and a fifth unlike any other. *)
Definition five_faces : gmap nat (@Crop two_scales) :=
  list_to_map [(3%nat, 2%Q); (0%nat, 1%Q); (2%nat, 1%Q); (1%nat, 2%Q); (7%nat, 9%Q)].

(** Twenty-six faces, all alike. *)
Definition alike_faces : gmap nat (@Crop two_scales) :=
  list_to_map (map (fun i => (i, 1%Q)) (seq 0 26)).

(** ** Notions for the statements: the face tracker *)

(** What the tracker holds for cell [i]: its best score and its face. *)
Definition cell_view `{Cv2} (st : tracker_state) (i : nat) : option Q * option Crop :=
  (max_diffs st !! i, card_faces st !! i).

(** The effect of one frame on the view of one cell. *)
Definition view_step `{Cv2} (oc : option Candidate) (v : option Q * option Crop)
  : option Q * option Crop :=
  match oc with
  | None => v
  | Some c =>
      if too_bright c then v
      else match v.1 with
           | None => v
           | Some best =>
               if Qltb best (cand_diff c)
               then (Some (cand_diff c), Some (cand_crop c))
               else v
           end
  end.

(** What is known of cell [i] after the frames [seen]: the best score
    bounds the score of every candidate that passed the brightness
    test, a kept face is the crop of such a candidate with that very
    score, and the score is still 0.0 when no face is kept. *)
Definition retains_maximum `{Cv2} (baselines : option (gmap nat Gray))
    (seen : list Image) (i : nat) (poly : Polygon)
    (v : option Q * option Crop) : Prop :=
  exists best,
    v.1 = Some best
    /\ (forall frame c,
          frame ∈ seen ->
          cell_candidate baselines frame i poly = Ok (Some c) ->
          too_bright c = false ->
          (cand_diff c <= best)%Q)
    /\ (forall crop,
          v.2 = Some crop ->
          exists frame c,
            frame ∈ seen
            /\ cell_candidate baselines frame i poly = Ok (Some c)
            /\ too_bright c = false
            /\ cand_crop c = crop /\ cand_diff c = best)
    /\ (v.2 = None -> best = 0%Q).

(** Four frames over one cell: gray levels 50, 200, 120 and 80.  With
    the template at level 0, the difference score of a frame is its
    level, and so is its brightness. *)
Definition reveal_frames : list (@Image two_scales) :=
  map (fun level => mkSynthetic (fun _ => []) 100 1000 level) [50; 200; 120; 80]%Q.

(** ** A concrete file system *)

(** A file system with no file, in which every path can be written. *)
Definition empty_disk : FileSystem := mkFileSystem ∅ (fun _ => true).

(** ** Notions for the statements: the frame buffer *)

(** A buffer after the entries [xs] were added one by one. *)
Definition buffer_add_all {A : Type} (b : FrameBuffer A) (xs : list A) : FrameBuffer A :=
  foldl buffer_add b xs.

(** ** Notions for the statements: the pairs and their scores *)

(** The similarity of the two faces of a pair of cells. *)
Definition pair_similarity `{Cv2} (faces : gmap nat Crop) (p : nat * nat) : option Q :=
  match faces !! p.1, faces !! p.2 with
  | Some f1, Some f2 => Some (similarity (canonical f1) (canonical f2))
  | _, _ => None
  end.

(** The pair of cells of a score triple. *)
Definition triple_pair (t : Q * nat * nat) : nat * nat := (t.1.2, t.2).

(** ** Notions for the statements: one cell through the frames *)

(** The candidate of cell [i] in [frame], [None] also when its
    rectangle cannot be computed. *)
Definition candidate_of `{Cv2} (baselines : option (gmap nat Gray))
    (i : nat) (poly : Polygon) (frame : Image) : option Candidate :=
  match cell_candidate baselines frame i poly with
  | Ok oc => oc
  | Raise _ => None
  end.

(** The view of one cell after the candidates [ocs] were offered in
    turn. *)
Definition view_after `{Cv2} (ocs : list (option Candidate))
    (v : option Q * option Crop) : option Q * option Crop :=
  foldl (fun v oc => view_step oc v) v ocs.

(** [c] is a candidate of the list that passes the brightness test. *)
Definition accepted_in `{Cv2} (ocs : list (option Candidate)) (c : Candidate) : Prop :=
  Some c ∈ ocs /\ too_bright c = false.

(** ** Notions for the statements: the whole session *)

(** A box of 10 by 10 at least, as every tried scale produces. *)
Definition big_enough (d : Detection) : Prop := 10 <= det_w d /\ 10 <= det_h d.

(** ** Notions for the statements: distinct template matches *)

(** [q] is not closer to [p] than the minimum distance. *)
Definition far_apart (w h : Z) (p q : Z * Z) : Prop :=
  (min_dist_sq w h <= inject_Z (dist_sq q p))%Q.

(** [pt] is closer to [e] than the minimum distance. *)
Definition too_close (w h : Z) (pt e : Z * Z) : Prop :=
  (inject_Z (dist_sq pt e) < min_dist_sq w h)%Q.

(** ** Notions for the statements: the layout sort of the constructor *)

(** The sort key of a polygon: its row of 50 pixels, then the
    horizontal coordinate of its centroid. *)
Definition init_key (poly : Polygon) : Z * Q :=
  (Qtrunc ((centroid poly).2 / 50), (centroid poly).1).

(** A layout loaded in no particular order: two rows of two cells. *)
Definition shuffled_layout : list Polygon :=
  [ [(100, 60); (110, 60); (110, 70); (100, 70)];
    [(100, 0); (110, 0); (110, 10); (100, 10)];
    [(0, 62); (10, 62); (10, 72); (0, 72)];
    [(0, 3); (10, 3); (10, 13); (0, 13)] ].

(** ** Notions for the statements: the game start *)

(** Among the first [k] frames of [cap], counted from [n0], every frame
    whose count is a multiple of 5 was found not to show all the card
    backs. *)
Definition none_started `{Cv2} (locations : list Polygon) (threshold : Q)
    (cap : list (Image * Q)) (n0 : Z) (k : nat) : Prop :=
  forall (j : nat) (frame : Image) (ts : Q),
    (j < k)%nat -> (n0 + Z.of_nat j) mod 5 = 0 ->
    cap !! j = Some (frame, ts) ->
    detect_game_start_frame locations frame threshold = Ok false.

(** Twelve frames at gray levels 5, 0, 0, 0, 0, 0, ...: the first frame
    does not show the card backs, all the others do. *)
Definition start_capture : list (@Image two_scales * Q) :=
  map (fun k => (mkSynthetic (fun _ => []) 100 1000
                   (if (k =? 0)%nat then 5%Q else 0%Q),
                 inject_Z (Z.of_nat k)))
      (seq 0 12).

(** ** Notions for the statements: the video session *)

(** The sample of frame number [k] of a video at [fps] frames a second. *)
Definition stamped `{Cv2} (fps : Q) (k : Z) (frame : Image) : FrameSample :=
  mkFrameSample (inject_Z k / fps) frame
                (0, 0, (frame_shape frame).2, (frame_shape frame).1).

(** A video of 100 blank frames. *)
Definition long_video : list (@Image two_scales) :=
  replicate 100 (mkSynthetic (fun _ => []) 100 1000 0).

(** ** Notions for the statements: a layout of two cells *)

Definition two_cells : list Polygon :=
  [unit_square; [(20, 0); (30, 0); (30, 10); (20, 10)]].

(* ===================================================================== *)
(** * Part III: properties *)
(* ===================================================================== *)

(** ** Results and comparisons *)

Lemma bind_Ok {A B : Type} (c : result A) (k : A -> result B) (b : B) :
  c ≫= k = Ok b -> exists a, c = Ok a /\ k a = Ok b.
Proof. destruct c as [a|e]; simpl; [eauto | discriminate]. Qed.

Lemma Qltb_lt (x y : Q) : Qltb x y = true <-> (x < y)%Q.
Proof.
  unfold Qltb. rewrite negb_true_iff.
  split.
  - intros Hb. apply Qnot_le_lt. intros Hle.
    apply Qle_bool_iff in Hle. congruence.
  - intros Hlt. destruct (Qle_bool y x) eqn:E; [|reflexivity].
    apply Qle_bool_iff in E. exfalso. apply (Qlt_not_le _ _ Hlt E).
Qed.

Lemma Qltb_ge (x y : Q) : Qltb x y = false <-> (y <= x)%Q.
Proof.
  unfold Qltb. rewrite negb_false_iff. apply Qle_bool_iff.
Qed.

(** ** Stable sorting *)

Section StableSortFacts.
Context {A : Type}.

Lemma insert_stable_perm (before : A -> A -> bool) (x : A) (l : list A) :
  insert_stable before x l ≡ₚ x :: l.
Proof.
  induction l as [|y l IH]; simpl; [reflexivity|].
  destruct (before x y); [reflexivity|].
  rewrite IH. apply Permutation_swap.
Qed.

Lemma sort_stable_perm (before : A -> A -> bool) (l : list A) :
  sort_stable before l ≡ₚ l.
Proof.
  induction l as [|x l IH]; simpl; [reflexivity|].
  rewrite insert_stable_perm. by rewrite IH.
Qed.

Lemma sort_stable_elem (before : A -> A -> bool) (l : list A) (x : A) :
  x ∈ sort_stable before l <-> x ∈ l.
Proof. by rewrite sort_stable_perm. Qed.

Lemma sort_stable_length (before : A -> A -> bool) (l : list A) :
  length (sort_stable before l) = length l.
Proof. by rewrite sort_stable_perm. Qed.

(** Two orders that agree on the elements of a list sort it alike. *)
Lemma insert_stable_ext (b1 b2 : A -> A -> bool) (x : A) (l : list A) :
  (forall y, y ∈ l -> b1 x y = b2 x y) ->
  insert_stable b1 x l = insert_stable b2 x l.
Proof.
  induction l as [|y l IH]; intros Hag; simpl; [reflexivity|].
  rewrite <- (Hag y) by apply list_elem_of_here.
  destruct (b1 x y); [reflexivity|].
  f_equal. apply IH. intros z Hz. apply Hag. by apply list_elem_of_further.
Qed.

Lemma sort_stable_ext (b1 b2 : A -> A -> bool) (l : list A) :
  (forall x y, x ∈ l -> y ∈ l -> b1 x y = b2 x y) ->
  sort_stable b1 l = sort_stable b2 l.
Proof.
  induction l as [|x l IH]; intros Hag; simpl; [reflexivity|].
  rewrite IH.
  - apply insert_stable_ext. intros y Hy.
    apply Hag; [apply list_elem_of_here|].
    apply list_elem_of_further. by apply (sort_stable_elem b2).
  - intros y z Hy Hz. apply Hag; by apply list_elem_of_further.
Qed.

(** For a total and transitive order the result is sorted. *)
Section Sorted.
Context (before : A -> A -> bool).
Hypothesis before_total : forall x y, before x y = true \/ before y x = true.
Hypothesis before_trans :
  forall x y z, before x y = true -> before y z = true -> before x z = true.

Let R (x y : A) : Prop := before x y = true.

Lemma insert_stable_sorted (x : A) (l : list A) :
  StronglySorted R l -> StronglySorted R (insert_stable before x l).
Proof.
  induction 1 as [|y l Hs IH Hall]; simpl.
  - repeat constructor.
  - destruct (before x y) eqn:E.
    + constructor; [by constructor|].
      constructor; [exact E|].
      eapply Forall_impl; [exact Hall|].
      intros z Hz. by apply (before_trans x y z).
    + constructor; [exact IH|].
      rewrite (insert_stable_perm before x l).
      constructor; [|exact Hall].
      destruct (before_total x y) as [H|H]; [congruence | exact H].
Qed.

Lemma sort_stable_sorted (l : list A) : StronglySorted R (sort_stable before l).
Proof.
  induction l as [|x l IH]; simpl; [constructor|].
  by apply insert_stable_sorted.
Qed.
End Sorted.
End StableSortFacts.

(** ** Greedy non-maximum suppression *)

Lemma score_before_total (x y : Detection) :
  score_before x y = true \/ score_before y x = true.
Proof.
  unfold score_before.
  destruct (Qlt_le_dec (det_score x) (det_score y)) as [Hlt|Hle].
  - right. apply Qle_bool_iff. by apply Qlt_le_weak.
  - left. by apply Qle_bool_iff.
Qed.

Lemma score_before_trans (x y z : Detection) :
  score_before x y = true -> score_before y z = true -> score_before x z = true.
Proof.
  unfold score_before. rewrite !Qle_bool_iff. intros Hxy Hyz.
  by apply Qle_trans with (det_score y).
Qed.

Lemma sorted_by_score (ds : list Detection) :
  StronglySorted by_score (sort_stable score_before ds).
Proof.
  apply sort_stable_sorted; [apply score_before_total | apply score_before_trans].
Qed.

Lemma suppress_filter (thresh : Q) (best : Detection) (ds : list Detection) :
  box_area best ≠ 0 ->
  suppress thresh best ds = Ok (filter (keeps thresh best) ds).
Proof.
  intros Harea. induction ds as [|d ds IH]; [reflexivity|].
  simpl. unfold overlap. apply Z.eqb_neq in Harea. rewrite Harea. simpl.
  rewrite IH. simpl. rewrite filter_cons.
  destruct (decide (keeps thresh best d)) as [Hk|Hk]; unfold keeps in Hk;
    destruct (Qltb (overlap_fraction best d) thresh); simpl in *;
    done.
Qed.

Lemma keeps_false (thresh : Q) (best d : Detection) :
  ¬ keeps thresh best d -> (thresh <= overlap_fraction best d)%Q.
Proof.
  unfold keeps. intros Hk. apply Qltb_ge.
  destruct (Qltb (overlap_fraction best d) thresh); [|reflexivity].
  exfalso. by apply Hk.
Qed.

Lemma keeps_true (thresh : Q) (best d : Detection) :
  keeps thresh best d -> (overlap_fraction best d < thresh)%Q.
Proof. unfold keeps. intros Hk. apply Qltb_lt. by apply Is_true_true. Qed.

Lemma suppress_cases (thresh : Q) (best : Detection) (rest : list Detection) :
  suppress thresh best rest = Ok (filter (keeps thresh best) rest)
  \/ (suppress thresh best rest = Raise ZeroDivisionError /\ box_area best = 0).
Proof.
  destruct (decide (box_area best = 0)) as [Hzero|Hne].
  - destruct rest as [|d rest]; [by left|]. right. split; [|exact Hzero].
    simpl. unfold overlap. apply Z.eqb_eq in Hzero. by rewrite Hzero.
  - left. by apply suppress_filter.
Qed.

Lemma filter_sorted_by_score (thresh : Q) (best : Detection) (l : list Detection) :
  StronglySorted by_score l -> StronglySorted by_score (filter (keeps thresh best) l).
Proof.
  induction 1 as [|d l Hs IHs Hall]; [rewrite filter_nil; constructor|].
  rewrite filter_cons. destruct (decide (keeps thresh best d)); [|exact IHs].
  constructor; [exact IHs|].
  apply Forall_forall. intros z Hz.
  apply list_elem_of_filter in Hz as [_ Hz].
  eapply Forall_forall in Hall; eauto.
Qed.

Lemma survivors_of_nil (thresh : Q) : survivors_of thresh [] [].
Proof.
  split; [constructor|]. split; [constructor|]. split; [|reflexivity].
  intros d Hd. by apply elem_of_nil in Hd.
Qed.

(** The loop, started on a list sorted by score, ends within
    [length detections] turns.  It raises only on a division by the
    area of a box that is zero; otherwise what it adds to [pick] are the
    survivors of [detections]. *)
Lemma nms_loop_cases (thresh : Q) (fuel : nat) :
  forall detections pick : list Detection,
    (length detections <= fuel)%nat ->
    StronglySorted by_score detections ->
    match nms_loop fuel thresh detections pick with
    | Ok r => exists out, r = pick ++ out /\ survivors_of thresh detections out
    | Raise e =>
        e = ZeroDivisionError /\ Exists (fun d => box_area d = 0) detections
    end.
Proof.
  induction fuel as [|fuel IH]; intros detections pick Hlen Hsorted.
  - destruct detections as [|best rest]; [|simpl in Hlen; lia].
    simpl. exists []. rewrite app_nil_r. split; [reflexivity|apply survivors_of_nil].
  - destruct detections as [|best rest].
    { simpl. exists []. rewrite app_nil_r.
      split; [reflexivity|apply survivors_of_nil]. }
    simpl. apply StronglySorted_inv in Hsorted as [Hsrest Hhead].
    destruct (suppress_cases thresh best rest) as [Hsup|[Hsup Hzero]];
      rewrite Hsup; simpl.
    2:{ split; [reflexivity|]. by apply Exists_cons_hd. }
    set (remaining := filter (keeps thresh best) rest).
    assert (Hsub : remaining `sublist_of` rest) by apply sublist_filter.
    assert (Hrlen : (length remaining <= fuel)%nat).
    { pose proof (length_filter (keeps thresh best) rest) as Hle.
      fold remaining in Hle. simpl in Hlen. lia. }
    specialize (IH remaining (pick ++ [best]) Hrlen
                  (filter_sorted_by_score thresh best rest Hsrest)).
    destruct (nms_loop fuel thresh remaining (pick ++ [best])) as [r|e].
    + destruct IH as (out & -> & Hout & Hapart & Hcover & _).
      exists (best :: out). rewrite <- app_assoc. simpl.
      split; [reflexivity|]. split; [|split; [|split]].
      * apply sublist_skip. by etrans.
      * constructor; [exact Hapart|].
        apply Forall_forall. intros d Hd.
        assert (Hrem : d ∈ remaining) by (by eapply elem_of_sublist).
        apply list_elem_of_filter in Hrem as [Hk Hin].
        split; [|by apply keeps_true].
        eapply Forall_forall in Hhead; [|exact Hin].
        by apply Qle_bool_iff.
      * intros d Hd. apply elem_of_cons in Hd as [->|Hd].
        -- left. apply list_elem_of_here.
        -- destruct (decide (keeps thresh best d)) as [Hk|Hk].
           ++ destruct (Hcover d) as [Hin|(b & Hb & Hsup')].
              { apply list_elem_of_filter. by split. }
              { left. by apply list_elem_of_further. }
              { right. exists b. split; [by apply list_elem_of_further|exact Hsup']. }
           ++ right. exists best. split; [apply list_elem_of_here|].
              split; [|by apply keeps_false].
              eapply Forall_forall in Hhead; [|exact Hd].
              by apply Qle_bool_iff.
      * reflexivity.
    + destruct IH as [-> Hex]. split; [reflexivity|].
      apply Exists_cons_tl. apply Exists_exists in Hex as (d & Hd & Hz).
      apply Exists_exists. exists d. split; [|exact Hz].
      by eapply elem_of_sublist.
Qed.

Lemma strongly_sorted_lookup {A : Type} (R : A -> A -> Prop) (l : list A) :
  StronglySorted R l ->
  forall (i j : nat) (a b : A),
    (i < j)%nat -> l !! i = Some a -> l !! j = Some b -> R a b.
Proof.
  induction 1 as [|x l Hs IH Hall]; intros i j a b Hij Ha Hb.
  - by rewrite lookup_nil in Ha.
  - destruct j as [|j]; [lia|]. simpl in Hb.
    destruct i as [|i]; simpl in Ha.
    + injection Ha as <-. eapply Forall_forall in Hall; [exact Hall|].
      by eapply list_elem_of_lookup_2.
    + apply (IH i j); [lia|done|done].
Qed.

Lemma nms_nil : _nms [] = Ok [].
Proof. reflexivity. Qed.

(** [_nms] on any list: the survivors of the sorted input, or a division
    by the zero area of one of the boxes. *)
Lemma nms_cases (detections : list Detection) :
  match _nms detections with
  | Ok pick =>
      survivors_of overlap_thresh (sort_stable score_before detections) pick
  | Raise e =>
      e = ZeroDivisionError /\ Exists (fun d => box_area d = 0) detections
  end.
Proof.
  unfold _nms, _nms_with. destruct detections as [|d0 ds].
  { apply survivors_of_nil. }
  set (detections := d0 :: ds).
  pose proof (nms_loop_cases overlap_thresh
                (length (sort_stable score_before detections))
                (sort_stable score_before detections) []
                (Nat.le_refl _) (sorted_by_score detections)) as Hloop.
  destruct (nms_loop _ _ _ _) as [r|e].
  - destruct Hloop as (out & -> & Hout). exact Hout.
  - destruct Hloop as [-> Hex]. split; [reflexivity|].
    apply Exists_exists in Hex as (d & Hd & Hz).
    apply Exists_exists. exists d. split; [|exact Hz].
    by apply sort_stable_elem in Hd.
Qed.

(** When no box has a zero area, [_nms] returns. *)
Lemma nms_spec (detections : list Detection) :
  Forall (fun d => box_area d ≠ 0) detections ->
  exists pick,
    _nms detections = Ok pick
    /\ survivors_of overlap_thresh (sort_stable score_before detections) pick.
Proof.
  intros Harea. pose proof (nms_cases detections) as Hcases.
  destruct (_nms detections) as [pick|e]; [by exists pick|].
  destruct Hcases as [_ Hex]. apply Exists_exists in Hex as (d & Hd & Hz).
  eapply Forall_forall in Harea; [|exact Hd]. done.
Qed.

(** C3, as amended.  On every list of detections, [_nms] either raises
    [ZeroDivisionError], which takes a box of zero area in the input, or
    returns a list [pick] such that: [pick] is a sub-list of the input
    sorted by score (highest first, ties in input order) and starts with
    its first element, the highest-scoring detection; of any two
    survivors, the one that comes later in [pick] scores no more than
    the earlier one and overlaps less than 0.3 of the earlier one's box
    area; and every input detection is either kept or overlaps 0.3 or
    more of the box of a kept detection that scores at least as much. *)
Theorem nms_survivors_ranked_apart (detections : list Detection) :
  match _nms detections with
  | Ok pick =>
      pick `sublist_of` sort_stable score_before detections
      /\ head pick = head (sort_stable score_before detections)
      /\ (forall (i j : nat) (a b : Detection),
            (i < j)%nat -> pick !! i = Some a -> pick !! j = Some b ->
            (det_score b <= det_score a)%Q
            /\ (overlap_fraction a b < overlap_thresh)%Q)
      /\ (forall d, d ∈ detections ->
            d ∈ pick
            \/ exists b, b ∈ pick
                 /\ (det_score d <= det_score b)%Q
                 /\ (overlap_thresh <= overlap_fraction b d)%Q)
  | Raise e =>
      e = ZeroDivisionError /\ Exists (fun d => box_area d = 0) detections
  end.
Proof.
  pose proof (nms_cases detections) as Hcases.
  destruct (_nms detections) as [pick|e]; [|exact Hcases].
  destruct Hcases as (Hsub & Hapart & Hcover & Hhead).
  split; [exact Hsub|]. split; [exact Hhead|]. split.
  - intros i j a b Hij Ha Hb.
    exact (strongly_sorted_lookup _ pick Hapart i j a b Hij Ha Hb).
  - intros d Hd. apply Hcover. by apply sort_stable_elem.
Qed.

(** Three boxes: the second overlaps the first and is discarded, the
    small one in the corner is kept. *)
Example nms_three_boxes :
  _nms [small_box; big_box; mkDetection 1 1 10 10 (95 # 100)]
  = Ok [mkDetection 1 1 10 10 (95 # 100); small_box].
Proof. reflexivity. Qed.

(** A box of zero area ahead of another one stops the suppression. *)
Example nms_zero_area :
  _nms [mkDetection 0 0 0 5 (9 # 10); small_box] = Raise ZeroDivisionError.
Proof. reflexivity. Qed.

(** C3 as stated fails: both boxes survive, and the overlap measured
    against the box of the lower-ranked survivor is 1. *)
Lemma nms_overlap_against_smaller_box :
  _nms [big_box; small_box] = Ok [big_box; small_box]
  /\ big_box ≠ small_box
  /\ (overlap_thresh <= overlap_fraction small_box big_box)%Q.
Proof.
  split; [reflexivity|]. split; [discriminate|].
  vm_compute. discriminate.
Qed.

(** ** The scale sweep of the localizer *)

Lemma scale_detections_size `{Cv2} (frame : Image) (size : Z * Z) :
  Forall (fun d => det_w d = size.1 /\ det_h d = size.2) (scale_detections frame size).
Proof.
  unfold scale_detections. apply Forall_forall. intros d Hd.
  apply list_elem_of_fmap in Hd as (pt & -> & _). by simpl.
Qed.

(** A tried scale has a template of 10 by 10 at least, so the division
    in [_nms] is safe and the suppression returns. *)
Lemma tried_scale_suppresses `{Cv2} (frame : Image) (size : Z * Z) :
  scale_tried size = true ->
  exists p, _nms (scale_detections frame size) = Ok p
            /\ p `sublist_of` sort_stable score_before (scale_detections frame size).
Proof.
  intros Htried. unfold scale_tried in Htried.
  apply negb_true_iff, orb_false_iff in Htried as [Hw Hh].
  apply Z.ltb_ge in Hw, Hh.
  destruct (nms_spec (scale_detections frame size)) as (p & Hp & Hsub & _).
  - eapply Forall_impl; [apply scale_detections_size|].
    intros d [Hdw Hdh]. unfold box_area. rewrite Hdw, Hdh. nia.
  - eauto.
Qed.

Lemma sweep_skip `{Cv2} (frame : Image) (size : Z * Z) (sizes : list (Z * Z))
    (best : list Detection) :
  scale_tried size = false ->
  scale_sweep frame (size :: sizes) best = scale_sweep frame sizes best.
Proof.
  unfold scale_tried. intros Hs. apply negb_false_iff in Hs. simpl. by rewrite Hs.
Qed.

Lemma sweep_try `{Cv2} (frame : Image) (size : Z * Z) (sizes : list (Z * Z))
    (best p : list Detection) :
  yields_at frame size p ->
  scale_sweep frame (size :: sizes) best =
    if Z.of_nat (length p) =? 24 then Ok p
    else if (count_gap p <? count_gap best) || is_empty best
         then scale_sweep frame sizes p
         else scale_sweep frame sizes best.
Proof.
  intros [Hs Hp]. unfold scale_tried in Hs. apply negb_true_iff in Hs.
  simpl. rewrite Hs, Hp. reflexivity.
Qed.

(** The sweep always returns, and what it returns is the running best
    or the yield of a scale. *)
Lemma sweep_returns `{Cv2} (frame : Image) (sizes : list (Z * Z)) :
  forall best, exists r,
    scale_sweep frame sizes best = Ok r /\ (r = best \/ yields_in frame sizes r).
Proof.
  induction sizes as [|size sizes IH]; intros best.
  - exists best. split; [reflexivity | by left].
  - destruct (scale_tried size) eqn:Htried.
    + destruct (tried_scale_suppresses frame size Htried) as (p & Hp & _).
      assert (Hy : yields_at frame size p) by (by split).
      rewrite (sweep_try frame size sizes best p Hy).
      destruct (Z.of_nat (length p) =? 24).
      { exists p. split; [reflexivity|]. right. exists size.
        split; [apply list_elem_of_here | exact Hy]. }
      destruct ((count_gap p <? count_gap best) || is_empty best).
      * destruct (IH p) as (r & Hr & Hor). exists r. split; [exact Hr|].
        right. destruct Hor as [->|(s & Hs & Hys)].
        -- exists size. split; [apply list_elem_of_here | exact Hy].
        -- exists s. split; [by apply list_elem_of_further | exact Hys].
      * destruct (IH best) as (r & Hr & Hor). exists r. split; [exact Hr|].
        destruct Hor as [->|(s & Hs & Hys)]; [by left|right].
        exists s. split; [by apply list_elem_of_further | exact Hys].
    + rewrite (sweep_skip frame size sizes best Htried).
      destruct (IH best) as (r & Hr & Hor). exists r. split; [exact Hr|].
      destruct Hor as [->|(s & Hs & Hys)]; [by left|right].
      exists s. split; [by apply list_elem_of_further | exact Hys].
Qed.

Lemma yields_in_cons `{Cv2} (frame : Image) (size : Z * Z) (sizes : list (Z * Z))
    (p : list Detection) :
  yields_in frame (size :: sizes) p <-> yields_at frame size p \/ yields_in frame sizes p.
Proof.
  unfold yields_in. split.
  - intros (s & Hs & Hy). apply elem_of_cons in Hs as [->|Hs]; [by left|].
    right. by exists s.
  - intros [Hy|(s & Hs & Hy)].
    + exists size. split; [apply list_elem_of_here | exact Hy].
    + exists s. split; [by apply list_elem_of_further | exact Hy].
Qed.

Lemma yields_at_unique `{Cv2} (frame : Image) (size : Z * Z) (p q : list Detection) :
  yields_at frame size p -> yields_at frame size q -> p = q.
Proof. intros [_ Hp] [_ Hq]. congruence. Qed.

(** A scale that yields 24 detections ends the sweep with 24. *)
Lemma sweep_finds_24 `{Cv2} (frame : Image) (sizes : list (Z * Z)) :
  forall best r p,
    scale_sweep frame sizes best = Ok r ->
    yields_in frame sizes p -> length p = 24%nat ->
    yields_in frame sizes r /\ length r = 24%nat.
Proof.
  induction sizes as [|size sizes IH]; intros best r p Hr Hp Hlen.
  - destruct Hp as (s & Hs & _). by apply elem_of_nil in Hs.
  - destruct (scale_tried size) eqn:Htried.
    + destruct (tried_scale_suppresses frame size Htried) as (q & Hq & _).
      assert (Hy : yields_at frame size q) by (by split).
      rewrite (sweep_try frame size sizes best q Hy) in Hr.
      destruct (Z.of_nat (length q) =? 24) eqn:E24.
      { injection Hr as <-. apply Z.eqb_eq in E24.
        split; [|lia]. apply yields_in_cons. by left. }
      apply yields_in_cons in Hp as [Hp|Hp].
      { rewrite (yields_at_unique frame size p q Hp Hy) in Hlen.
        apply Z.eqb_neq in E24. lia. }
      destruct ((count_gap q <? count_gap best) || is_empty best).
      * destruct (IH q r p Hr Hp Hlen) as [Hyr Hlr].
        split; [|exact Hlr]. apply yields_in_cons. by right.
      * destruct (IH best r p Hr Hp Hlen) as [Hyr Hlr].
        split; [|exact Hlr]. apply yields_in_cons. by right.
    + rewrite (sweep_skip frame size sizes best Htried) in Hr.
      apply yields_in_cons in Hp as [[Hp _]|Hp]; [congruence|].
      destruct (IH best r p Hr Hp Hlen) as [Hyr Hlr].
      split; [|exact Hlr]. apply yields_in_cons. by right.
Qed.

Lemma is_empty_nil {A : Type} (l : list A) : is_empty l = true <-> l = [].
Proof. destruct l; simpl; split; congruence. Qed.

Lemma count_gap_nil : count_gap [] = 24.
Proof. reflexivity. Qed.

(** When no count exceeds 48, the running best is never replaced by a
    yield that is further from 24. *)
Lemma sweep_closest `{Cv2} (frame : Image) (sizes : list (Z * Z)) :
  forall best r,
    scale_sweep frame sizes best = Ok r ->
    (forall p, yields_in frame sizes p -> (length p <= 48)%nat) ->
    count_gap r <= count_gap best
    /\ forall p, yields_in frame sizes p -> count_gap r <= count_gap p.
Proof.
  induction sizes as [|size sizes IH]; intros best r Hr Hbound.
  - injection Hr as <-. split; [lia|].
    intros p (s & Hs & _). by apply elem_of_nil in Hs.
  - assert (Hbound' : forall p, yields_in frame sizes p -> (length p <= 48)%nat).
    { intros p Hp. apply Hbound, yields_in_cons. by right. }
    destruct (scale_tried size) eqn:Htried.
    + destruct (tried_scale_suppresses frame size Htried) as (q & Hq & _).
      assert (Hy : yields_at frame size q) by (by split).
      assert (Hq48 : (length q <= 48)%nat).
      { apply Hbound, yields_in_cons. by left. }
      assert (Hgq : count_gap q <= 24) by (unfold count_gap; lia).
      rewrite (sweep_try frame size sizes best q Hy) in Hr.
      destruct (Z.of_nat (length q) =? 24) eqn:E24.
      { injection Hr as <-. apply Z.eqb_eq in E24.
        assert (count_gap q = 0) by (unfold count_gap; lia).
        split; [unfold count_gap in *; lia|].
        intros p _. unfold count_gap in *. lia. }
      destruct ((count_gap q <? count_gap best) || is_empty best) eqn:Erep.
      * destruct (IH q r Hr Hbound') as [Hrq Hall].
        assert (Hqb : count_gap q <= count_gap best).
        { apply orb_true_iff in Erep as [Hlt|Hemp].
          - apply Z.ltb_lt in Hlt. lia.
          - apply is_empty_nil in Hemp. subst best. rewrite count_gap_nil. lia. }
        split; [lia|]. intros p Hp. apply yields_in_cons in Hp as [Hp|Hp].
        -- by rewrite (yields_at_unique frame size p q Hp Hy).
        -- by apply Hall.
      * destruct (IH best r Hr Hbound') as [Hrb Hall].
        apply orb_false_iff in Erep as [Hge _]. apply Z.ltb_ge in Hge.
        split; [exact Hrb|]. intros p Hp. apply yields_in_cons in Hp as [Hp|Hp].
        -- rewrite (yields_at_unique frame size p q Hp Hy). lia.
        -- by apply Hall.
    + rewrite (sweep_skip frame size sizes best Htried) in Hr.
      destruct (IH best r Hr Hbound') as [Hrb Hall].
      split; [exact Hrb|]. intros p Hp.
      apply yields_in_cons in Hp as [[Hp _]|Hp]; [congruence|]. by apply Hall.
Qed.

(** ** What the sweep returns *)

(** C5, as amended.  The sweep always returns; its result is empty or
    the suppressed detections of one tried scale.  When a scale yields
    exactly 24 detections, the result is the yield of such a scale.  When
    no scale yields more than 48 detections, the count of the result is
    at least as close to 24 as the count of every tried scale. *)
Theorem sweep_returns_24_or_closest `{Cv2} (frame : Image) :
  exists r,
    detect_card_locations frame = Ok r
    /\ (r = [] \/ yields frame r)
    /\ (forall p, yields frame p -> length p = 24%nat ->
          yields frame r /\ length r = 24%nat)
    /\ ((forall p, yields frame p -> (length p <= 48)%nat) ->
        forall p, yields frame p -> count_gap r <= count_gap p).
Proof.
  destruct (sweep_returns frame scale_sizes []) as (r & Hr & Hor).
  exists r. split; [exact Hr|]. split; [exact Hor|]. split.
  - intros p Hp Hlen. exact (sweep_finds_24 frame scale_sizes [] r p Hr Hp Hlen).
  - intros Hbound p Hp.
    by apply (sweep_closest frame scale_sizes [] r Hr Hbound).
Qed.

(** C5 as stated fails: the first scale yields nothing, the second
    yields 49 detections; no scale yields 24, the empty yield is closer
    to 24 (24 away) than the 49 returned (25 away). *)
Lemma sweep_prefers_nonempty_yield :
  exists r,
    @detect_card_locations two_scales crowded_frame = Ok r
    /\ length r = 49%nat
    /\ @yields two_scales crowded_frame []
    /\ (forall p, @yields two_scales crowded_frame p -> length p ≠ 24%nat)
    /\ count_gap [] < count_gap r.
Proof.
  eexists. split; [vm_compute; reflexivity|].
  split; [reflexivity|]. split.
  - exists (10, 10). split; [apply list_elem_of_here|]. split; reflexivity.
  - split; [|reflexivity].
    intros p (size & Hsize & _ & Hp).
    apply elem_of_cons in Hsize as [->|Hsize].
    { vm_compute in Hp. injection Hp as <-. discriminate. }
    apply elem_of_cons in Hsize as [->|Hsize]; [|by apply elem_of_nil in Hsize].
    vm_compute in Hp. injection Hp as <-. discriminate.
Qed.



(** ** The stable-window scan *)

Lemma stable_frame_negative (flags : list bool) (i : Z) :
  i < 0 -> ~ stable_frame flags i.
Proof. intros Hi [Hge _]. lia. Qed.

Lemma stable_frame_beyond (flags : list bool) (i : Z) :
  Z.of_nat (length flags) <= i -> ~ stable_frame flags i.
Proof.
  intros Hi [Hge Hl]. apply lookup_lt_Some in Hl. lia.
Qed.

Lemma scan_inv_init (flags : list bool) : scan_inv flags 0 scan_init.
Proof.
  constructor; simpl.
  - left. repeat split; try reflexivity. by apply stable_frame_negative.
  - intros s e Hin. by apply elem_of_nil in Hin.
  - intros s e [(Hs & Hse & _) _] He. lia.
  - constructor.
Qed.

(** Two maximal stretches of stable frames that end at the same frame
    start at the same frame. *)
Lemma run_start_unique (flags : list bool) (s c e : Z) :
  s <= e -> c <= e ->
  (forall k, s <= k <= e -> stable_frame flags k) ->
  (forall k, c <= k <= e -> stable_frame flags k) ->
  ~ stable_frame flags (s - 1) -> ~ stable_frame flags (c - 1) ->
  s = c.
Proof.
  intros Hs Hc Hrs Hrc Hbs Hbc.
  destruct (Z.lt_trichotomy s c) as [Hlt|[Heq|Hgt]]; [|exact Heq|].
  - exfalso. apply Hbc, Hrs. lia.
  - exfalso. apply Hbs, Hrc. lia.
Qed.

Lemma scan_inv_step (flags : list bool) (i : Z) (b : bool) (st : scan_state) :
  0 <= i -> flags !! Z.to_nat i = Some b ->
  scan_inv flags i st -> scan_inv flags (i + 1) (scan_step st i b).
Proof.
  intros Hi Hb [Hcur Hsound Hcomplete Hsorted].
  destruct b.
  - (* frame [i] is stable *)
    assert (Hst : stable_frame flags i) by (by split).
    unfold scan_step. constructor; simpl.
    + right. destruct Hcur as [(Hc & Hn & Hprev)|(Hc & Hn & Hrun & Hprev)].
      * rewrite Hc. simpl. rewrite Hn.
        split; [lia|]. split; [lia|]. split.
        -- intros k Hk. by replace k with i by lia.
        -- exact Hprev.
      * replace (current_seq_start st =? -1) with false
          by (symmetry; apply Z.eqb_neq; lia).
        split; [lia|]. split; [lia|]. split; [|exact Hprev].
        intros k Hk. destruct (decide (k = i)) as [->|Hne]; [exact Hst|].
        apply Hrun. lia.
    + intros s e Hin. destruct (Hsound s e Hin). split; [done|lia].
    + intros s e Hq He. apply Hcomplete; [exact Hq|].
      destruct (decide (e + 1 = i)) as [Heq|Hne]; [|lia].
      exfalso. destruct Hq as [(_ & _ & _ & _ & Hend) _].
      apply Hend. by rewrite Heq.
    + exact Hsorted.
  - (* frame [i] is not stable *)
    assert (Hst : ~ stable_frame flags i).
    { intros [_ Hl]. congruence. }
    unfold scan_step.
    destruct Hcur as [(Hc & Hn & Hprev)|(Hc & Hn & Hrun & Hprev)].
    + rewrite Hc, Hn. simpl. constructor; simpl.
      * left. repeat split; try reflexivity. by replace (i + 1 - 1) with i by lia.
      * intros s e Hin. destruct (Hsound s e Hin). split; [done|lia].
      * intros s e Hq He. apply Hcomplete; [exact Hq|].
        destruct (decide (e + 1 = i)) as [Heq|Hne]; [|lia].
        exfalso. destruct Hq as [(_ & Hse & Hr & _ & _) _].
        apply Hprev. replace (i - 1) with e by lia. apply Hr. lia.
      * exact Hsorted.
    + replace (current_seq_start st =? -1) with false
        by (symmetry; apply Z.eqb_neq; lia).
      simpl. constructor; simpl.
      * left. repeat split; try reflexivity. by replace (i + 1 - 1) with i by lia.
      * intros s e Hin. destruct (3 <=? stable_count st) eqn:E3.
        -- apply elem_of_app in Hin as [Hin|Hin].
           { destruct (Hsound s e Hin). split; [done|lia]. }
           apply list_elem_of_singleton in Hin. injection Hin as -> ->.
           apply Z.leb_le in E3. split; [|lia].
           split; [|lia]. split; [lia|]. split; [lia|]. split.
           ++ intros k Hk. apply Hrun. lia.
           ++ split; [exact Hprev|]. by replace (i - 1 + 1) with i by lia.
        -- destruct (Hsound s e Hin). split; [done|lia].
      * intros s e Hq He.
        destruct (decide (e + 1 = i)) as [Heq|Hne].
        -- destruct Hq as [(Hs & Hse & Hr & Hbs & _) Hlen].
           assert (s = current_seq_start st) as ->.
           { apply (run_start_unique flags s (current_seq_start st) e);
               try done; try lia.
             intros k Hk. apply Hrun. lia. }
           replace (3 <=? stable_count st) with true
             by (symmetry; apply Z.leb_le; lia).
           apply elem_of_app. right. apply list_elem_of_singleton.
           f_equal. lia.
        -- assert (Hin : (s, e) ∈ all_back_sequences st)
             by (apply Hcomplete; [exact Hq|lia]).
           destruct (3 <=? stable_count st); [|exact Hin].
           apply elem_of_app. by left.
      * destruct (3 <=? stable_count st); [|exact Hsorted].
        apply StronglySorted_app. split; [|split; [exact Hsorted|]].
        -- intros [s e] q Hin Hq. apply list_elem_of_singleton in Hq. subst q.
           simpl. destruct (Hsound s e Hin) as [[(Hs & Hse & _ & _ & Hend) _] He].
           destruct (Z.lt_ge_cases s (current_seq_start st)) as [Hlt|Hge];
             [exact Hlt|].
           exfalso. apply Hend, Hrun. lia.
        -- repeat constructor.
Qed.

Lemma scan_from_inv (flags : list bool) :
  forall (rest : list bool) (i : Z) (st : scan_state),
    0 <= i <= Z.of_nat (length flags) ->
    drop (Z.to_nat i) flags = rest ->
    scan_inv flags i st ->
    scan_inv flags (Z.of_nat (length flags)) (scan_from i rest st).
Proof.
  induction rest as [|b rest IH]; intros i st Hi Hdrop Hinv; simpl.
  - assert (Hlen : length (drop (Z.to_nat i) flags) = 0%nat) by (by rewrite Hdrop).
    rewrite length_drop in Hlen.
    by replace (Z.of_nat (length flags)) with i by lia.
  - assert (Hb : flags !! Z.to_nat i = Some b).
    { pose proof (lookup_drop flags (Z.to_nat i) 0) as Hl.
      rewrite Hdrop in Hl. simpl in Hl. by rewrite Nat.add_0_r in Hl. }
    pose proof (lookup_lt_Some _ _ _ Hb) as Hlt.
    apply IH.
    + lia.
    + replace (Z.to_nat (i + 1)) with (S (Z.to_nat i)) by lia.
      erewrite drop_S in Hdrop by exact Hb. by injection Hdrop.
    + apply scan_inv_step; [lia|exact Hb|exact Hinv].
Qed.

(** The sequences recorded by the scan are exactly the qualifying runs,
    in the order of their first frames. *)
Lemma stable_sequences_spec (flags : list bool) :
  (forall s e, (s, e) ∈ stable_sequences flags <-> qualifying_run flags s e)
  /\ StronglySorted (fun p q : Z * Z => p.1 < q.1) (stable_sequences flags).
Proof.
  unfold stable_sequences. set (n := Z.of_nat (length flags)).
  destruct (scan_from_inv flags flags 0 scan_init) as [Hcur Hsound Hcomplete Hsorted].
  { lia. } { reflexivity. } { apply scan_inv_init. }
  fold n in Hcur, Hsound, Hcomplete.
  set (st := scan_from 0 flags scan_init) in *.
  assert (Hend : ~ stable_frame flags n) by (apply stable_frame_beyond; lia).
  unfold scan_close.
  destruct Hcur as [(Hc & Hn & Hprev)|(Hc & Hn & Hrun & Hprev)].
  - rewrite Hc. simpl. split; [|exact Hsorted].
    intros s e. split; [intros Hin; by apply Hsound|].
    intros Hq. apply Hcomplete; [exact Hq|].
    destruct Hq as [(Hs & Hse & Hr & _ & _) _].
    destruct (Z.lt_ge_cases (e + 1) n) as [Hlt|Hge]; [exact Hlt|].
    exfalso. destruct (decide (e + 1 = n)) as [Heq|Hne].
    + apply Hprev. replace (n - 1) with e by lia. apply Hr. lia.
    + apply (stable_frame_beyond flags e); [lia|]. apply Hr. lia.
  - replace (current_seq_start st =? -1) with false
      by (symmetry; apply Z.eqb_neq; lia).
    simpl. destruct (3 <=? stable_count st) eqn:E3.
    + apply Z.leb_le in E3. split.
      * intros s e. rewrite elem_of_app, list_elem_of_singleton. split.
        -- intros [Hin|Heq]; [by apply Hsound|].
           injection Heq as -> ->.
           split; [|lia]. split; [lia|]. split; [lia|]. split.
           ++ intros k Hk. apply Hrun. lia.
           ++ split; [exact Hprev|]. by replace (n - 1 + 1) with n by lia.
        -- intros Hq.
           destruct (Z.lt_ge_cases (e + 1) n) as [Hlt|Hge];
             [left; by apply Hcomplete|].
           right. destruct Hq as [(Hs & Hse & Hr & Hbs & _) Hlen].
           assert (e = n - 1) as ->.
           { destruct (decide (e = n - 1)) as [Heq|Hne]; [exact Heq|].
             exfalso. apply (stable_frame_beyond flags e); [lia|]. apply Hr. lia. }
           f_equal.
           apply (run_start_unique flags s (current_seq_start st) (n - 1));
             try done; try lia.
           intros k Hk. apply Hrun. lia.
      * apply StronglySorted_app. split; [|split; [exact Hsorted|]].
        -- intros [s e] q Hin Hq. apply list_elem_of_singleton in Hq. subst q.
           simpl. destruct (Hsound s e Hin) as [[(Hs & Hse & _ & _ & Hend') _] He].
           destruct (Z.lt_ge_cases s (current_seq_start st)) as [Hlt|Hge];
             [exact Hlt|].
           exfalso. apply Hend', Hrun. lia.
        -- repeat constructor.
    + apply Z.leb_gt in E3. split; [|exact Hsorted].
      intros s e. split; [intros Hin; by apply Hsound|].
      intros Hq. apply Hcomplete; [exact Hq|].
      destruct (Z.lt_ge_cases (e + 1) n) as [Hlt|Hge]; [exact Hlt|].
      exfalso. destruct Hq as [(Hs & Hse & Hr & Hbs & _) Hlen].
      assert (e = n - 1).
      { destruct (decide (e = n - 1)) as [Heq|Hne]; [exact Heq|].
        exfalso. apply (stable_frame_beyond flags e); [lia|]. apply Hr. lia. }
      subst e.
      assert (s = current_seq_start st).
      { apply (run_start_unique flags s (current_seq_start st) (n - 1));
          try done; try lia.
        intros k Hk. apply Hrun. lia. }
      lia.
Qed.

(** The window chosen from the flags: the midpoint and the last frame of
    the first qualifying run, or frame 0 twice when no run qualifies. *)
Lemma stable_window_spec (flags : list bool) :
  (exists s e,
      first_qualifying_run flags s e
      /\ stable_window flags = ((s + e) / 2, e))
  \/ ((forall s e, ~ qualifying_run flags s e)
      /\ stable_window flags = (0, 0)).
Proof.
  destruct (stable_sequences_spec flags) as [Hiff Hsorted].
  unfold stable_window.
  destruct (stable_sequences flags) as [|[s e] rest] eqn:Eseq.
  - right. split; [|reflexivity].
    intros s e Hq. apply Hiff in Hq. by apply elem_of_nil in Hq.
  - left. exists s, e. split; [|reflexivity]. split.
    + apply Hiff. apply list_elem_of_here.
    + intros s' e' Hq. apply Hiff in Hq.
      apply StronglySorted_inv in Hsorted as [_ Hall].
      apply elem_of_cons in Hq as [Heq|Hin].
      * injection Heq as -> ->. lia.
      * eapply Forall_forall in Hall; [|exact Hin]. simpl in Hall. lia.
Qed.

(** ** Mapping a fallible function over a list *)

Lemma mapM_Ok_Forall2 {A B : Type} (f : A -> result B) (l : list A) (ys : list B) :
  mapM f l = Ok ys <-> Forall2 (fun x y => f x = Ok y) l ys.
Proof.
  revert ys. induction l as [|x l IH]; intros ys; simpl.
  - split.
    + intros Heq. injection Heq as <-. constructor.
    + intros Hall. by inversion Hall.
  - split.
    + intros Heq. apply bind_Ok in Heq as (y & Hy & Heq).
      apply bind_Ok in Heq as (k & Hk & Heq). injection Heq as <-.
      constructor; [exact Hy | by apply IH].
    + intros Hall. inversion Hall as [|x' y l' k Hy Hk]; subst.
      rewrite Hy. simpl. apply IH in Hk. rewrite Hk. reflexivity.
Qed.

Lemma mapM_total {A B : Type} (f : A -> result B) (l : list A) :
  (forall x, x ∈ l -> exists y, f x = Ok y) ->
  exists ys, mapM f l = Ok ys.
Proof.
  induction l as [|x l IH]; intros Hall; simpl.
  - by exists [].
  - destruct (Hall x) as (y & Hy); [apply list_elem_of_here|].
    destruct IH as (ys & Hys).
    { intros z Hz. apply Hall. by apply list_elem_of_further. }
    exists (y :: ys). rewrite Hy. simpl. rewrite Hys. reflexivity.
Qed.

(** ** Cells of a layout with at least one corner *)

Lemma clamped_rect_total (width height : Z) (poly : Polygon) :
  poly ≠ [] -> exists r, clamped_rect width height poly = Ok r.
Proof.
  intros Hne. destruct poly as [|pt poly]; [done|].
  unfold clamped_rect. simpl. eauto.
Qed.

Lemma cell_is_back_total `{Cv2} (s : FrameSample) (poly : Polygon) :
  poly ≠ [] -> exists b, cell_is_back s poly = Ok b.
Proof.
  intros Hne. unfold cell_is_back.
  destruct (clamped_rect_total (region_width (sample_region s))
              (region_height (sample_region s)) poly Hne) as (r & ->).
  simpl. destruct (roi_size _ =? 0); eauto.
Qed.

Lemma back_count_total `{Cv2} (s : FrameSample) (locations : list Polygon) :
  Forall (fun poly => poly ≠ []) locations ->
  exists n, back_count s locations = Ok n.
Proof.
  induction 1 as [|poly locations Hne Hall IH]; simpl; [eauto|].
  destruct (cell_is_back_total s poly Hne) as (b & ->).
  destruct IH as (n & ->). simpl. eauto.
Qed.

Lemma frame_is_stable_total `{Cv2} (locations : list Polygon) (s : FrameSample) :
  Forall (fun poly => poly ≠ []) locations ->
  exists b, frame_is_stable locations s = Ok b.
Proof.
  intros Hall. unfold frame_is_stable.
  destruct (back_count_total s locations Hall) as (n & ->). simpl. eauto.
Qed.

(** C4.  For a layout whose polygons have at least one corner, the scan
    returns without an error.  A frame is stable when [back_count], the
    number of cells matching the template above 0.6, is at least 22.  The
    window is the midpoint and the last frame of the first maximal run
    of at least 3 stable frames; when no run qualifies it is frame 0
    twice.  Both indices are frames of a non-empty recording. *)
Theorem stabilizer_selects_first_run `{Cv2} (locations : list Polygon)
    (captured_frames : list FrameSample) :
  Forall (fun poly => poly ≠ []) locations ->
  exists flags window,
    Forall2 (fun s b => frame_is_stable locations s = Ok b) captured_frames flags
    /\ find_stable_window locations captured_frames = Ok window
    /\ ((exists s e,
            first_qualifying_run flags s e /\ window = ((s + e) / 2, e))
        \/ ((forall s e, ~ qualifying_run flags s e) /\ window = (0, 0)))
    /\ (captured_frames ≠ [] ->
        0 <= window.1 < Z.of_nat (length captured_frames)
        /\ 0 <= window.2 < Z.of_nat (length captured_frames)).
Proof.
  intros Hlocs.
  destruct (mapM_total (frame_is_stable locations) captured_frames) as (flags & Hflags).
  { intros s _. by apply frame_is_stable_total. }
  exists flags, (stable_window flags).
  pose proof Hflags as Hall. apply mapM_Ok_Forall2 in Hall.
  split; [exact Hall|]. split.
  { unfold find_stable_window. rewrite Hflags. reflexivity. }
  pose proof (Forall2_length _ _ _ Hall) as Hlen.
  destruct (stable_window_spec flags) as [(s & e & Hfirst & ->)|[Hnone ->]].
  - split; [left; by exists s, e|].
    intros _. simpl.
    destruct Hfirst as [[(Hs & Hse & Hrun & _ & _) _] _].
    destruct (Hrun e) as [_ He]; [lia|].
    apply lookup_lt_Some in He.
    pose proof (Z.div_mod (s + e) 2). pose proof (Z.mod_pos_bound (s + e) 2).
    lia.
  - split; [by right|].
    intros Hne. simpl. destruct captured_frames; [done|]. simpl. lia.
Qed.

(** The theorem at the four opening frames: the run is frames 0 to 2,
    the baseline frame 1 and the start frame 2. *)
Lemma stabilizer_selects_first_run_witness :
  Forall (fun poly : Polygon => poly ≠ []) (replicate 22 unit_square)
  /\ @find_stable_window two_scales (replicate 22 unit_square) opening_frames
     = Ok (1, 2)
  /\ exists flags window,
       Forall2 (fun s b => @frame_is_stable two_scales (replicate 22 unit_square) s = Ok b)
               opening_frames flags
       /\ @find_stable_window two_scales (replicate 22 unit_square) opening_frames
          = Ok window
       /\ ((exists s e,
               first_qualifying_run flags s e /\ window = ((s + e) / 2, e))
           \/ ((forall s e, ~ qualifying_run flags s e) /\ window = (0, 0)))
       /\ (opening_frames ≠ [] ->
           0 <= window.1 < Z.of_nat (length opening_frames)
           /\ 0 <= window.2 < Z.of_nat (length opening_frames)).
Proof.
  assert (H : Forall (fun poly : Polygon => poly ≠ []) (replicate 22 unit_square)).
  { apply Forall_forall. intros poly Hin.
    apply elem_of_replicate in Hin as [-> _]. discriminate. }
  split; [exact H|]. split; [vm_compute; reflexivity|].
  exact (@stabilizer_selects_first_run two_scales (replicate 22 unit_square)
           opening_frames H).
Defined.

(** ** Calibration when nothing is detected *)

Lemma sweep_all_empty `{Cv2} (frame : Image) (sizes : list (Z * Z)) :
  (forall p, yields_in frame sizes p -> p = []) ->
  scale_sweep frame sizes [] = Ok [].
Proof.
  induction sizes as [|size sizes IH]; intros Hall; [reflexivity|].
  assert (Hall' : forall p, yields_in frame sizes p -> p = []).
  { intros p Hp. apply Hall, yields_in_cons. by right. }
  destruct (scale_tried size) eqn:Htried.
  - destruct (tried_scale_suppresses frame size Htried) as (q & Hq & _).
    assert (Hy : yields_at frame size q) by (by split).
    assert (q = []) as -> by (apply Hall, yields_in_cons; by left).
    rewrite (sweep_try frame size sizes [] [] Hy). simpl. by apply IH.
  - rewrite (sweep_skip frame size sizes [] Htried). by apply IH.
Qed.

Lemma accumulate_nothing `{Cv2} (frames : list Image) :
  (forall frame, frame ∈ frames -> detect_card_locations frame = Ok []) ->
  accumulate_detections frames [] = Ok [].
Proof.
  induction frames as [|frame frames IH]; intros Hall; [reflexivity|].
  simpl. rewrite (Hall frame) by apply list_elem_of_here. simpl.
  apply IH. intros f Hf. apply Hall. by apply list_elem_of_further.
Qed.

(** C9.  When, in every sampled frame of a non-empty recording, every
    tried scale yields no detection, the localizer returns the empty
    list for each of them and the calibration returns normally: with the
    layout it was given when there is one, and with the early return of
    the session when there is none. *)
Theorem calibration_keeps_known_layout `{Cv2} (locations : list Polygon)
    (captured_frames : list FrameSample) :
  captured_frames ≠ [] ->
  (forall s p, s ∈ every_other captured_frames ->
               yields (sample_frame s) p -> p = []) ->
  (forall s, s ∈ every_other captured_frames ->
             detect_card_locations (sample_frame s) = Ok [])
  /\ calibrate locations captured_frames
     = Ok (if is_empty locations then SessionReturns else Layout locations)
  /\ (locations = [] -> solve_frames locations captured_frames = Ok None).
Proof.
  intros Hne Hnone.
  assert (Hdetect : forall s, s ∈ every_other captured_frames ->
                              detect_card_locations (sample_frame s) = Ok []).
  { intros s Hs. apply sweep_all_empty. intros p Hp. by apply (Hnone s). }
  assert (Hcal : calibrate locations captured_frames
                 = Ok (if is_empty locations then SessionReturns else Layout locations)).
  { unfold calibrate. destruct captured_frames as [|s0 rest]; [done|].
    cbn [is_empty]. rewrite accumulate_nothing.
    - simpl. by destruct locations.
    - intros frame Hf. apply list_elem_of_fmap in Hf as (s & -> & Hs).
      by apply Hdetect. }
  split; [exact Hdetect|]. split; [exact Hcal|].
  intros ->. unfold solve_frames. rewrite Hcal. reflexivity.
Qed.

(** The theorem at three blank frames, with a known layout of one cell. *)
Lemma calibration_keeps_known_layout_witness :
  @calibrate two_scales [unit_square] blank_frames = Ok (Layout [unit_square])
  /\ @calibrate two_scales [] blank_frames = Ok SessionReturns.
Proof.
  assert (Hne : blank_frames ≠ []) by discriminate.
  assert (Hnone : forall s p, s ∈ every_other blank_frames ->
                              @yields two_scales (sample_frame s) p -> p = []).
  { intros s p Hs (size & Hsize & _ & Hp).
    assert (s = plain_frame 5) as ->.
    { vm_compute in Hs. repeat (apply elem_of_cons in Hs as [->|Hs]; [reflexivity|]).
      by apply elem_of_nil in Hs. }
    vm_compute in Hp. by injection Hp. }
  split.
  - exact (proj1 (proj2 (@calibration_keeps_known_layout two_scales
                           [unit_square] blank_frames Hne Hnone))).
  - exact (proj1 (proj2 (@calibration_keeps_known_layout two_scales
                           [] blank_frames Hne Hnone))).
Defined.

(** ** The row-major order *)

Lemma lex_before_spec (k1 k2 : Z * Q) :
  lex_before k1 k2 = true <-> k1.1 < k2.1 \/ (k1.1 = k2.1 /\ (k1.2 <= k2.2)%Q).
Proof.
  unfold lex_before.
  rewrite orb_true_iff, andb_true_iff, Z.ltb_lt, Z.eqb_eq, Qle_bool_iff.
  reflexivity.
Qed.

Lemma lex_before_total (k1 k2 : Z * Q) :
  lex_before k1 k2 = true \/ lex_before k2 k1 = true.
Proof.
  rewrite !lex_before_spec.
  destruct (Z.lt_trichotomy k1.1 k2.1) as [Hlt|[Heq|Hgt]]; [by left; left| |by right; left].
  destruct (Qlt_le_dec k2.2 k1.2) as [Hq|Hq].
  - right. right. split; [done|]. by apply Qlt_le_weak.
  - left. right. by split.
Qed.

Lemma lex_before_trans (k1 k2 k3 : Z * Q) :
  lex_before k1 k2 = true -> lex_before k2 k3 = true -> lex_before k1 k3 = true.
Proof.
  rewrite !lex_before_spec.
  intros [H12|[H12 Hq12]] [H23|[H23 Hq23]]; try (left; lia).
  right. split; [lia|]. by apply Qle_trans with k2.2.
Qed.

Lemma centroid_y_eq (d d' : Detection) :
  det_y d' = det_y d -> det_h d' = det_h d -> centroid_y d' = centroid_y d.
Proof.
  intros Hy Hh. unfold centroid_y, centroid, detection_polygon. simpl.
  by rewrite Hy, Hh.
Qed.

Lemma jittered_heights (jitter : Q) (ds ds' : list Detection) :
  Forall2 (jittered jitter) ds ds' -> map det_h ds' = map det_h ds.
Proof.
  induction 1 as [|d d' ds ds' (_ & Hh & _) _ IH]; simpl; [reflexivity|].
  by rewrite Hh, IH.
Qed.

Lemma jittered_rows (jitter : Q) (bin_size : Q) (ds ds' : list Detection) :
  Forall2 (jittered jitter) ds ds' ->
  mapM (row_bin bin_size) (map centroid (map detection_polygon ds'))
  = mapM (row_bin bin_size) (map centroid (map detection_polygon ds)).
Proof.
  induction 1 as [|d d' ds ds' (Hy & Hh & _) _ IH]; simpl; [reflexivity|].
  rewrite IH. unfold row_bin.
  change (centroid (detection_polygon d')).2 with (centroid_y d').
  change (centroid (detection_polygon d)).2 with (centroid_y d).
  by rewrite (centroid_y_eq d d' Hy Hh).
Qed.

(** The comparison of two horizontal coordinates survives a jitter of
    less than half their distance. *)
Lemma jitter_keeps_side (gap a b a' b' : Q) :
  (gap <= b - a)%Q \/ (gap <= a - b)%Q ->
  (a - gap * (1 # 2) < a')%Q -> (a' < a + gap * (1 # 2))%Q ->
  (b - gap * (1 # 2) < b')%Q -> (b' < b + gap * (1 # 2))%Q ->
  Qle_bool a' b' = Qle_bool a b.
Proof.
  intros Hgap Ha1 Ha2 Hb1 Hb2.
  destruct Hgap as [Hgap|Hgap].
  - transitivity true; [|symmetry]; apply Qle_bool_iff; lra.
  - destruct (Qle_bool a' b') eqn:E1, (Qle_bool a b) eqn:E2; try reflexivity;
      try apply Qle_bool_iff in E1; try apply Qle_bool_iff in E2; exfalso; lra.
Qed.

Lemma nth_centroid_x (ds : list Detection) (i : nat) (d : Detection) :
  ds !! i = Some d ->
  nth i (map fst (map centroid (map detection_polygon ds))) 0%Q = centroid_x d.
Proof.
  intros Hd. rewrite nth_lookup, !list_lookup_fmap, Hd. reflexivity.
Qed.

Lemma nth_row_bin (bin_size : Q) (ds : list Detection) (bins : list Z)
    (i : nat) (d : Detection) :
  mapM (row_bin bin_size) (map centroid (map detection_polygon ds)) = Ok bins ->
  ds !! i = Some d ->
  row_bin bin_size (centroid (detection_polygon d)) = Ok (nth i bins 0).
Proof.
  intros Hbins Hd. apply mapM_Ok_Forall2 in Hbins.
  eapply Forall2_lookup_l in Hbins as (b & Hb & Hrow).
  - rewrite Hrow, nth_lookup, Hb. reflexivity.
  - rewrite !list_lookup_fmap, Hd. reflexivity.
Qed.

Lemma row_bins_length (bin_size : Q) (ds : list Detection) (bins : list Z) :
  mapM (row_bin bin_size) (map centroid (map detection_polygon ds)) = Ok bins ->
  length bins = length ds.
Proof.
  intros Hbins. apply mapM_Ok_Forall2, Forall2_length in Hbins.
  by rewrite !length_map in Hbins.
Qed.




(** ** The pair solver *)

Lemma sorted_keys_elem {V : Type} (d : gmap nat V) (k : nat) :
  k ∈ sorted_keys d <-> is_Some (d !! k).
Proof.
  unfold sorted_keys. rewrite sort_stable_elem, list_elem_of_fmap. split.
  - intros ([k' v] & -> & Hin). apply elem_of_map_to_list in Hin. by exists v.
  - intros [v Hv]. exists (k, v). split; [reflexivity|].
    by apply elem_of_map_to_list.
Qed.

Lemma strongly_sorted_strict {A : Type} (R : A -> A -> Prop) (l : list A) :
  StronglySorted R l -> NoDup l ->
  StronglySorted (fun x y => R x y /\ x ≠ y) l.
Proof.
  induction 1 as [|x l Hs IH Hall]; intros Hnd; [constructor|].
  apply NoDup_cons in Hnd as [Hx Hnd].
  constructor; [by apply IH|].
  apply Forall_forall. intros y Hy. split.
  - eapply Forall_forall in Hall; eauto.
  - intros ->. by apply Hx.
Qed.

Lemma strongly_sorted_impl {A : Type} (R R' : A -> A -> Prop) (l : list A) :
  (forall x y, R x y -> R' x y) -> StronglySorted R l -> StronglySorted R' l.
Proof.
  intros Himpl. induction 1 as [|x l Hs IH Hall]; constructor; [exact IH|].
  eapply Forall_impl; [exact Hall|]. intros y. apply Himpl.
Qed.

Lemma sorted_keys_increasing {V : Type} (d : gmap nat V) :
  StronglySorted lt (sorted_keys d).
Proof.
  assert (Hs : StronglySorted (fun x y => Nat.leb x y = true /\ x ≠ y) (sorted_keys d)).
  { apply strongly_sorted_strict.
    - apply sort_stable_sorted.
      + intros x y. rewrite !Nat.leb_le. lia.
      + intros x y z. rewrite !Nat.leb_le. lia.
    - unfold sorted_keys. rewrite sort_stable_perm. apply NoDup_fst_map_to_list. }
  eapply strongly_sorted_impl; [|exact Hs].
  intros x y [Hle Hne]. apply Nat.leb_le in Hle. lia.
Qed.

Lemma preprocess_spec `{Cv2} (faces : gmap nat Crop) (indices : list nat) :
  forall processed_faces,
    (forall idx, idx ∈ indices -> is_Some (faces !! idx)) ->
    exists processed_faces',
      preprocess faces indices processed_faces = Ok processed_faces'
      /\ forall idx,
           processed_faces' !! idx
           = if decide (idx ∈ indices) then canonical <$> faces !! idx
             else processed_faces !! idx.
Proof.
  induction indices as [|idx0 indices IH]; intros processed Hkeys; simpl.
  - exists processed. split; [reflexivity|]. intros idx.
    destruct (decide (idx ∈ [])) as [Hin|_]; [by apply elem_of_nil in Hin|done].
  - destruct (Hkeys idx0) as [face Hface]; [apply list_elem_of_here|].
    unfold lookup_key at 1. rewrite Hface. simpl.
    destruct (IH (<[idx0 := canonical face]> processed)) as (processed' & Hrun & Hlook).
    { intros idx Hidx. apply Hkeys. by apply list_elem_of_further. }
    exists processed'. split; [exact Hrun|]. intros idx. rewrite Hlook.
    destruct (decide (idx ∈ indices)) as [Hin|Hnin].
    + rewrite decide_True; [reflexivity | by apply list_elem_of_further].
    + destruct (decide (idx = idx0)) as [->|Hne].
      * rewrite decide_True by apply list_elem_of_here.
        by rewrite lookup_insert_eq, Hface.
      * rewrite lookup_insert_ne by done.
        rewrite decide_False; [reflexivity|].
        intros Hin. apply elem_of_cons in Hin as [?|?]; done.
Qed.

Lemma score_row_spec `{Cv2} (faces : gmap nat Crop) (processed_faces : gmap nat Canon)
    (idx1 : nat) (others : list nat) :
  (forall idx, idx = idx1 \/ idx ∈ others ->
               exists f, faces !! idx = Some f
                         /\ processed_faces !! idx = Some (canonical f)) ->
  Forall (lt idx1) others ->
  exists row,
    score_row processed_faces idx1 others = Ok row /\ Forall (scored faces) row.
Proof.
  induction others as [|idx2 others IH]; intros Hkeys Hlt; simpl.
  - exists []. split; [reflexivity|constructor].
  - apply Forall_cons in Hlt as [Hlt2 Hlt].
    destruct (Hkeys idx1) as (f1 & Hf1 & Hp1); [by left|].
    destruct (Hkeys idx2) as (f2 & Hf2 & Hp2); [right; apply list_elem_of_here|].
    destruct IH as (row & Hrow & Hall); [|exact Hlt|].
    { intros idx [->|Hin]; apply Hkeys; [by left|right].
      by apply list_elem_of_further. }
    unfold lookup_key. rewrite Hp1, Hp2. simpl. rewrite Hrow. simpl.
    eexists. split; [reflexivity|]. constructor; [|exact Hall].
    split; [exact Hlt2|]. exists f1, f2. by simpl.
Qed.

Lemma score_pairs_spec `{Cv2} (faces : gmap nat Crop) (processed_faces : gmap nat Canon)
    (indices : list nat) :
  (forall idx, idx ∈ indices ->
               exists f, faces !! idx = Some f
                         /\ processed_faces !! idx = Some (canonical f)) ->
  StronglySorted lt indices ->
  exists scores,
    score_pairs processed_faces indices = Ok scores /\ Forall (scored faces) scores.
Proof.
  induction indices as [|idx1 indices IH]; intros Hkeys Hsorted; simpl.
  - exists []. split; [reflexivity|constructor].
  - apply StronglySorted_inv in Hsorted as [Hsorted Hlt].
    destruct (score_row_spec faces processed_faces idx1 indices) as (row & Hrow & Hall1).
    { intros idx [->|Hin]; apply Hkeys;
        [apply list_elem_of_here | by apply list_elem_of_further]. }
    { exact Hlt. }
    destruct IH as (scores & Hscores & Hall2); [|exact Hsorted|].
    { intros idx Hin. apply Hkeys. by apply list_elem_of_further. }
    rewrite Hrow. simpl. rewrite Hscores. simpl.
    eexists. split; [reflexivity|]. by apply Forall_app.
Qed.

Lemma paired_indices_snoc (pairs : list (nat * nat)) (i j : nat) :
  paired_indices (pairs ++ [(i, j)]) = paired_indices pairs ++ [i; j].
Proof. unfold paired_indices. by rewrite flat_map_app. Qed.

(** The greedy loop: what it returns names no index twice, has at most
    12 pairs, and every pair it adds comes from a triple whose score
    exceeds the cutoff. *)
Lemma greedy_select_spec (scores : list (Q * nat * nat)) :
  forall (pairs : list (nat * nat)) (matched : gset nat),
    Forall (fun t : Q * nat * nat => t.1.2 ≠ t.2) scores ->
    NoDup (paired_indices pairs) ->
    (forall k, k ∈ matched <-> k ∈ paired_indices pairs) ->
    (length pairs < 12)%nat ->
    NoDup (paired_indices (greedy_select scores pairs matched))
    /\ (length (greedy_select scores pairs matched) <= 12)%nat
    /\ forall p, p ∈ greedy_select scores pairs matched ->
         p ∈ pairs
         \/ exists s, (s, p.1, p.2) ∈ scores /\ (min_confidence < s)%Q.
Proof.
  induction scores as [|[[score idx1] idx2] rest IH];
    intros pairs matched Hne Hnd Hmatched Hlen; simpl.
  - split; [exact Hnd|]. split; [lia|]. intros p Hp. by left.
  - apply Forall_cons in Hne as [Hne12 Hne]. simpl in Hne12.
    destruct (decide (idx1 ∈ matched ∨ idx2 ∈ matched)) as [Hclaimed|Hfree].
    { destruct (IH pairs matched Hne Hnd Hmatched Hlen) as (H1 & H2 & H3).
      split; [exact H1|]. split; [exact H2|].
      intros p Hp. destruct (H3 p Hp) as [Hin|(s & Hs & Hgt)]; [by left|].
      right. exists s. split; [by apply list_elem_of_further|exact Hgt]. }
    destruct (Qltb min_confidence score) eqn:Eacc.
    + apply Qltb_lt in Eacc.
      assert (Hnd' : NoDup (paired_indices (pairs ++ [(idx1, idx2)]))).
      { rewrite paired_indices_snoc. apply NoDup_app. split; [exact Hnd|].
        split.
        - intros k Hk Hin. apply Hmatched in Hk.
          apply elem_of_cons in Hin as [->|Hin]; [tauto|].
          apply list_elem_of_singleton in Hin. subst k. tauto.
        - apply NoDup_cons. split; [|apply NoDup_singleton].
          intros Hin. apply list_elem_of_singleton in Hin. done. }
      assert (Hnew : forall p, p ∈ pairs ++ [(idx1, idx2)] ->
                 p ∈ pairs
                 \/ exists s, (s, p.1, p.2) ∈ (score, idx1, idx2) :: rest
                              /\ (min_confidence < s)%Q).
      { intros p Hp. apply elem_of_app in Hp as [Hp|Hp]; [by left|].
        apply list_elem_of_singleton in Hp. subst p. right.
        exists score. split; [apply list_elem_of_here|exact Eacc]. }
      destruct (length (pairs ++ [(idx1, idx2)]) =? 12)%nat eqn:E12.
      * apply Nat.eqb_eq in E12. split; [exact Hnd'|]. split; [lia|exact Hnew].
      * apply Nat.eqb_neq in E12. rewrite length_app in E12. simpl in E12.
        destruct (IH (pairs ++ [(idx1, idx2)]) ({[idx2]} ∪ ({[idx1]} ∪ matched)))
          as (H1 & H2 & H3); try done.
        { intros k. rewrite paired_indices_snoc, elem_of_app.
          rewrite !elem_of_union, !elem_of_singleton, Hmatched.
          rewrite elem_of_cons, list_elem_of_singleton. tauto. }
        { rewrite length_app. simpl. lia. }
        split; [exact H1|]. split; [exact H2|].
        intros p Hp. destruct (H3 p Hp) as [Hin|(s & Hs & Hgt)].
        -- by apply Hnew.
        -- right. exists s. split; [by apply list_elem_of_further|exact Hgt].
    + replace (length pairs =? 12)%nat with false
        by (symmetry; apply Nat.eqb_neq; lia).
      destruct (IH pairs matched Hne Hnd Hmatched Hlen) as (H1 & H2 & H3).
      split; [exact H1|]. split; [exact H2|].
      intros p Hp. destruct (H3 p Hp) as [Hin|(s & Hs & Hgt)]; [by left|].
      right. exists s. split; [by apply list_elem_of_further|exact Hgt].
Qed.

(** What [find_pairs] returns, in one statement from which the two
    theorems on the pair solver are read. *)
Lemma find_pairs_spec `{Cv2} (faces : gmap nat Crop) :
  exists pairs,
    find_pairs faces = Ok pairs
    /\ NoDup (paired_indices pairs)
    /\ (length pairs <= 12)%nat
    /\ forall p, p ∈ pairs ->
         exists s, scored faces (s, p.1, p.2) /\ (min_confidence < s)%Q.
Proof.
  unfold find_pairs.
  destruct (preprocess_spec faces (sorted_keys faces) ∅) as (processed & Hpre & Hlook).
  { intros idx Hidx. by apply sorted_keys_elem. }
  rewrite Hpre. simpl.
  destruct (score_pairs_spec faces processed (sorted_keys faces))
    as (scores & Hscores & Hall).
  { intros idx Hidx. pose proof Hidx as [f Hf]%sorted_keys_elem.
    exists f. split; [exact Hf|]. rewrite Hlook, decide_True by done.
    by rewrite Hf. }
  { apply sorted_keys_increasing. }
  rewrite Hscores. simpl.
  assert (Hall' : Forall (scored faces) (sort_stable triple_before scores)).
  { apply Forall_forall. intros t Ht. apply sort_stable_elem in Ht.
    eapply Forall_forall in Hall; eauto. }
  destruct (greedy_select_spec (sort_stable triple_before scores) [] ∅)
    as (H1 & H2 & H3).
  { eapply Forall_impl; [exact Hall'|]. intros t [Hlt _]. lia. }
  { constructor. }
  { intros k. simpl. rewrite elem_of_empty. split; [done|].
    intros Hk. by apply elem_of_nil in Hk. }
  { simpl. lia. }
  eexists. split; [reflexivity|]. split; [exact H1|]. split; [exact H2|].
  intros p Hp. destruct (H3 p Hp) as [Hin|(s & Hs & Hgt)];
    [by apply elem_of_nil in Hin|].
  exists s. split; [|exact Hgt].
  eapply Forall_forall in Hall'; eauto.
Qed.

(** C1.  [find_pairs] returns for every dictionary of faces; the pairs
    it returns name no cell index twice, each pair joins two observed
    cells whose similarity strictly exceeds 0.4, and there are at most
    12 pairs. *)
Theorem find_pairs_exclusive_confident_bounded `{Cv2} (faces : gmap nat Crop) :
  exists pairs,
    find_pairs faces = Ok pairs
    /\ NoDup (paired_indices pairs)
    /\ (forall i j, (i, j) ∈ pairs ->
          exists f1 f2,
            faces !! i = Some f1 /\ faces !! j = Some f2
            /\ (min_confidence < similarity (canonical f1) (canonical f2))%Q)
    /\ (length pairs <= 12)%nat.
Proof.
  destruct (find_pairs_spec faces) as (pairs & Hrun & Hnd & Hlen & Hall).
  exists pairs. split; [exact Hrun|]. split; [exact Hnd|]. split; [|exact Hlen].
  intros i j Hin.
  destruct (Hall (i, j) Hin) as (s & (_ & f1 & f2 & Hf1 & Hf2 & Hs) & Hgt).
  simpl in *. exists f1, f2. split; [exact Hf1|]. split; [exact Hf2|].
  by rewrite <- Hs.
Qed.

(** C10.  In every pair [(i, j)] that [find_pairs] returns, [i] and [j]
    are observed cells and [i] is strictly smaller than [j]. *)
Theorem find_pairs_smaller_index_first `{Cv2} (faces : gmap nat Crop) :
  exists pairs,
    find_pairs faces = Ok pairs
    /\ forall i j, (i, j) ∈ pairs ->
         (i < j)%nat /\ i ∈ sorted_keys faces /\ j ∈ sorted_keys faces.
Proof.
  destruct (find_pairs_spec faces) as (pairs & Hrun & _ & _ & Hall).
  exists pairs. split; [exact Hrun|].
  intros i j Hin.
  destruct (Hall (i, j) Hin) as (s & (Hlt & f1 & f2 & Hf1 & Hf2 & _) & _).
  simpl in *. split; [exact Hlt|].
  split; apply sorted_keys_elem; eauto.
Qed.

(** Five faces: the two pairs of like faces are found, the fifth face
    stays unmatched. *)
Example find_pairs_five_faces :
  @find_pairs two_scales five_faces = Ok [(0, 2); (1, 3)]%nat.
Proof. vm_compute. reflexivity. Qed.

(** Twenty-six like faces: the selection stops at 12 pairs. *)
Example find_pairs_stops_at_12 :
  length <$> @find_pairs two_scales alike_faces = Ok 12%nat.
Proof. vm_compute. reflexivity. Qed.

(** ** The face tracker *)

Lemma frame_rect_total `{Cv2} (frame : Image) (poly : Polygon) :
  poly ≠ [] -> exists r, frame_rect frame poly = Ok r.
Proof. apply clamped_rect_total. Qed.

Lemma cell_candidate_total `{Cv2} (baselines : option (gmap nat Gray))
    (frame : Image) (i : nat) (poly : Polygon) :
  poly ≠ [] -> exists oc, cell_candidate baselines frame i poly = Ok oc.
Proof.
  intros Hne. unfold cell_candidate.
  destruct (frame_rect_total frame poly Hne) as (r & ->). simpl.
  destruct (roi_size _ =? 0); eauto.
Qed.

Lemma process_cell_view `{Cv2} (baselines : option (gmap nat Gray))
    (frame : Image) (st : tracker_state) (i : nat) (poly : Polygon)
    (oc : option Candidate) :
  cell_candidate baselines frame i poly = Ok oc ->
  is_Some (max_diffs st !! i) ->
  exists st',
    process_cell baselines frame st i poly = Ok st'
    /\ cell_view st' i = view_step oc (cell_view st i)
    /\ forall j, j ≠ i -> cell_view st' j = cell_view st j.
Proof.
  intros Hoc [best Hbest]. unfold process_cell. rewrite Hoc. simpl.
  destruct oc as [c|]; [|by exists st].
  unfold offer, view_step, cell_view. simpl.
  destruct (too_bright c); [by exists st|].
  unfold lookup_key. rewrite Hbest. simpl.
  destruct (Qltb best (cand_diff c)); [|by exists st; rewrite Hbest].
  eexists. split; [reflexivity|]. simpl. split.
  - by rewrite !lookup_insert_eq.
  - intros j Hj. by rewrite !lookup_insert_ne.
Qed.

(** One frame: every cell of the layout is offered its candidate, and
    nothing else changes. *)
Lemma process_cells_view `{Cv2} (baselines : option (gmap nat Gray)) (frame : Image) :
  forall (locations : list Polygon) (i0 : nat) (st : tracker_state),
    Forall (fun poly => poly ≠ []) locations ->
    (forall k, (i0 <= k < i0 + length locations)%nat -> is_Some (max_diffs st !! k)) ->
    exists st',
      process_cells baselines frame i0 locations st = Ok st'
      /\ (forall k poly,
            locations !! k = Some poly ->
            exists oc,
              cell_candidate baselines frame (i0 + k) poly = Ok oc
              /\ cell_view st' (i0 + k) = view_step oc (cell_view st (i0 + k)))
      /\ (forall j, (j < i0 \/ i0 + length locations <= j)%nat ->
                    cell_view st' j = cell_view st j).
Proof.
  induction locations as [|poly locations IH]; intros i0 st Hne Hkeys; simpl.
  - exists st. split; [reflexivity|]. split; [|done].
    intros k p Hk. by rewrite lookup_nil in Hk.
  - apply Forall_cons in Hne as [Hpoly Hne].
    destruct (cell_candidate_total baselines frame i0 poly Hpoly) as (oc & Hoc).
    destruct (process_cell_view baselines frame st i0 poly oc Hoc)
      as (st1 & Hrun1 & Hview1 & Hother1).
    { apply Hkeys. simpl. lia. }
    rewrite Hrun1. simpl.
    destruct (IH (S i0) st1 Hne) as (st' & Hrun & Hcells & Hother).
    { intros k Hk.
      assert (Hv : cell_view st1 k = cell_view st k) by (apply Hother1; lia).
      injection Hv as Hv _. rewrite Hv. apply Hkeys. simpl. lia. }
    exists st'. split; [exact Hrun|]. split.
    + intros k p Hk. destruct k as [|k]; simpl in Hk.
      * injection Hk as <-. exists oc. rewrite Nat.add_0_r.
        split; [exact Hoc|]. rewrite <- Hview1. apply Hother. lia.
      * destruct (Hcells k p Hk) as (oc' & Hoc' & Hv).
        replace (i0 + S k)%nat with (S i0 + k)%nat by lia.
        exists oc'. split; [exact Hoc'|]. rewrite Hv. f_equal.
        apply Hother1. lia.
    + intros j Hj. simpl in Hj. rewrite Hother by lia. apply Hother1. lia.
Qed.

Lemma view_step_retains `{Cv2} (baselines : option (gmap nat Gray))
    (seen : list Image) (frame : Image) (i : nat) (poly : Polygon)
    (oc : option Candidate) (v : option Q * option Crop) :
  cell_candidate baselines frame i poly = Ok oc ->
  retains_maximum baselines seen i poly v ->
  retains_maximum baselines (seen ++ [frame]) i poly (view_step oc v).
Proof.
  intros Hoc (best & Hbest & Hbound & Hkept & Hnone).
  assert (Hold : forall f c,
             f ∈ seen ++ [frame] ->
             cell_candidate baselines f i poly = Ok (Some c) ->
             too_bright c = false ->
             f ∈ seen \/ (f = frame /\ oc = Some c)).
  { intros f c Hf Hc _. apply elem_of_app in Hf as [Hf|Hf]; [by left|].
    apply list_elem_of_singleton in Hf. subst f. right. split; [done|congruence]. }
  unfold view_step. destruct oc as [c|].
  - destruct (too_bright c) eqn:Ebright.
    + exists best. split; [exact Hbest|]. split; [|split; [|exact Hnone]].
      * intros f c' Hf Hc' Hb. destruct (Hold f c' Hf Hc' Hb) as [Hs|[-> Heq]].
        -- by apply (Hbound f c').
        -- injection Heq as ->. congruence.
      * intros crop Hcrop. destruct (Hkept crop Hcrop) as (f & c' & Hf & Hrest).
        exists f, c'. split; [apply elem_of_app; by left|exact Hrest].
    + rewrite Hbest. destruct (Qltb best (cand_diff c)) eqn:Egt.
      * apply Qltb_lt in Egt. exists (cand_diff c). simpl.
        split; [reflexivity|]. split; [|split; [|discriminate]].
        -- intros f c' Hf Hc' Hb. destruct (Hold f c' Hf Hc' Hb) as [Hs|[-> Heq]].
           ++ apply Qle_trans with best; [by apply (Hbound f c')|].
              by apply Qlt_le_weak.
           ++ injection Heq as ->. apply Qle_refl.
        -- intros crop Hcrop. injection Hcrop as <-. exists frame, c.
           split; [apply elem_of_app; right; apply list_elem_of_here|].
           by repeat split.
      * apply Qltb_ge in Egt. exists best.
        split; [exact Hbest|]. split; [|split; [|exact Hnone]].
        -- intros f c' Hf Hc' Hb. destruct (Hold f c' Hf Hc' Hb) as [Hs|[-> Heq]].
           ++ by apply (Hbound f c').
           ++ by injection Heq as ->.
        -- intros crop Hcrop. destruct (Hkept crop Hcrop) as (f & c' & Hf & Hrest).
           exists f, c'. split; [apply elem_of_app; by left|exact Hrest].
  - exists best. split; [exact Hbest|]. split; [|split; [|exact Hnone]].
    + intros f c' Hf Hc' Hb. destruct (Hold f c' Hf Hc' Hb) as [Hs|[-> Heq]].
      * by apply (Hbound f c').
      * discriminate.
    + intros crop Hcrop. destruct (Hkept crop Hcrop) as (f & c' & Hf & Hrest).
      exists f, c'. split; [apply elem_of_app; by left|exact Hrest].
Qed.

Lemma track_retains `{Cv2} (locations : list Polygon)
    (baselines : option (gmap nat Gray)) :
  Forall (fun poly => poly ≠ []) locations ->
  forall (frames seen : list Image) (st : tracker_state),
    (forall i poly, locations !! i = Some poly ->
                    retains_maximum baselines seen i poly (cell_view st i)) ->
    exists st',
      track locations baselines frames st = Ok st'
      /\ forall i poly, locations !! i = Some poly ->
           retains_maximum baselines (seen ++ frames) i poly (cell_view st' i).
Proof.
  intros Hne. induction frames as [|frame frames IH]; intros seen st Hinv; simpl.
  - exists st. split; [reflexivity|]. intros i poly Hi.
    rewrite app_nil_r. by apply Hinv.
  - unfold _process_frame_for_faces.
    destruct (process_cells_view baselines frame locations 0%nat st Hne)
      as (st1 & Hrun1 & Hcells & _).
    { intros k Hk. destruct (lookup_lt_is_Some_2 locations k) as [poly Hpoly]; [lia|].
      destruct (Hinv k poly Hpoly) as (best & Hbest & _). simpl in Hbest. eauto. }
    rewrite Hrun1. simpl.
    destruct (IH (seen ++ [frame]) st1) as (st' & Hrun & Hfinal).
    { intros i poly Hi. destruct (Hcells i poly Hi) as (oc & Hoc & Hview).
      simpl in Hoc, Hview. rewrite Hview.
      apply (view_step_retains baselines seen frame i poly oc); [exact Hoc|].
      by apply Hinv. }
    exists st'. split; [exact Hrun|]. intros i poly Hi.
    rewrite (cons_middle frame seen frames), app_assoc. by apply Hfinal.
Qed.

Lemma tracker_init_lookup `{Cv2} (n i : nat) :
  (i < n)%nat -> max_diffs (tracker_init n) !! i = Some 0%Q.
Proof.
  intros Hi. unfold tracker_init. simpl.
  apply elem_of_list_to_map_1.
  - rewrite <- list_fmap_compose.
    replace (fst ∘ (fun i : nat => (i, 0%Q))) with (@id nat) by reflexivity.
    rewrite list_fmap_id. apply NoDup_seq.
  - apply list_elem_of_fmap. exists i. split; [reflexivity|].
    apply elem_of_seq. lia.
Qed.

(** C2.  The tracker, started as [solve_frames] starts it on a layout
    whose polygons have at least one corner, returns for every sequence
    of frames.  For every cell, its best score is at least the
    difference score of every candidate of that cell whose mean
    brightness does not exceed 170; the face kept for the cell, when
    there is one, is the crop of such a candidate, and its difference
    score is the best score; when no face is kept the best score is
    still 0.0. *)
Theorem tracker_retains_maximum `{Cv2} (locations : list Polygon)
    (baselines : option (gmap nat Gray)) (frames : list Image) :
  Forall (fun poly => poly ≠ []) locations ->
  exists st,
    track locations baselines frames (tracker_init (length locations)) = Ok st
    /\ forall i poly,
         locations !! i = Some poly ->
         exists best,
           max_diffs st !! i = Some best
           /\ (forall frame c,
                 frame ∈ frames ->
                 cell_candidate baselines frame i poly = Ok (Some c) ->
                 too_bright c = false ->
                 (cand_diff c <= best)%Q)
           /\ (forall crop,
                 card_faces st !! i = Some crop ->
                 exists frame c,
                   frame ∈ frames
                   /\ cell_candidate baselines frame i poly = Ok (Some c)
                   /\ too_bright c = false
                   /\ cand_crop c = crop /\ cand_diff c = best)
           /\ (card_faces st !! i = None -> best = 0%Q).
Proof.
  intros Hne.
  destruct (track_retains locations baselines Hne frames []
              (tracker_init (length locations))) as (st & Hrun & Hfinal).
  - intros i poly Hi. exists 0%Q. simpl.
    split; [apply tracker_init_lookup; by eapply lookup_lt_Some|].
    split; [|split; [|done]].
    + intros frame c Hin. by apply elem_of_nil in Hin.
    + intros crop Hcrop. by rewrite lookup_empty in Hcrop.
  - exists st. split; [exact Hrun|]. intros i poly Hi. by apply Hfinal.
Qed.

(** The theorem at one cell and four frames: the frame at level 200 is
    too bright, and the face kept is the one at level 120. *)
Lemma tracker_retains_maximum_witness :
  Forall (fun poly : Polygon => poly ≠ []) [unit_square]
  /\ (exists st,
        @track two_scales [unit_square] None reveal_frames (@tracker_init two_scales 1)
          = Ok st
        /\ max_diffs st !! 0%nat = Some 120%Q
        /\ card_faces st !! 0%nat = Some 120%Q)
  /\ exists st,
       @track two_scales [unit_square] None reveal_frames
              (@tracker_init two_scales (length [unit_square])) = Ok st
       /\ forall i poly,
            [unit_square] !! i = Some poly ->
            exists best,
              max_diffs st !! i = Some best
              /\ (forall frame c,
                    frame ∈ reveal_frames ->
                    @cell_candidate two_scales None frame i poly = Ok (Some c) ->
                    too_bright c = false ->
                    (cand_diff c <= best)%Q)
              /\ (forall crop,
                    card_faces st !! i = Some crop ->
                    exists frame c,
                      frame ∈ reveal_frames
                      /\ @cell_candidate two_scales None frame i poly = Ok (Some c)
                      /\ too_bright c = false
                      /\ cand_crop c = crop /\ cand_diff c = best)
              /\ (card_faces st !! i = None -> best = 0%Q).
Proof.
  assert (H : Forall (fun poly : Polygon => poly ≠ []) [unit_square]).
  { repeat constructor. discriminate. }
  split; [exact H|]. split.
  - eexists. split; [vm_compute; reflexivity|]. split; reflexivity.
  - exact (@tracker_retains_maximum two_scales [unit_square] None reveal_frames H).
Defined.

(** ** The layout file *)

Lemma as_point_serializable (point : Z * Z) :
  as_point (serializable_point point) = Some point.
Proof. by destruct point. Qed.

Lemma as_polygon_serializable (poly : Polygon) :
  as_polygon (serializable_poly poly) = Some poly.
Proof.
  unfold as_polygon, serializable_poly.
  induction poly as [|[x y] poly IH]; simpl; [reflexivity|].
  simpl in IH. rewrite IH. reflexivity.
Qed.

Lemma as_regions_serializable (locations : list Polygon) :
  as_regions (serializable_locations locations) = Some locations.
Proof.
  unfold as_regions, serializable_locations.
  induction locations as [|poly locations IH]; [reflexivity|].
  cbn [map mapM]. rewrite as_polygon_serializable.
  cbn [map mapM] in IH. rewrite IH. reflexivity.
Qed.



(** ** The frame buffer *)

Lemma buffer_add_step {A : Type} (m : Z) (fs : list A) (x : A) :
  (length fs <= Z.to_nat m)%nat ->
  buffer_add (mkFrameBuffer fs m) x
  = mkFrameBuffer (drop (length fs + 1 - Z.to_nat m) (fs ++ [x])) m.
Proof.
  intros Hfs. unfold buffer_add. simpl. rewrite length_app. simpl.
  destruct (m <? Z.of_nat (length fs + 1)) eqn:Efull.
  - apply Z.ltb_lt in Efull.
    by replace (length fs + 1 - Z.to_nat m)%nat with 1%nat by lia.
  - apply Z.ltb_ge in Efull.
    by replace (length fs + 1 - Z.to_nat m)%nat with 0%nat by lia.
Qed.

Lemma buffer_add_all_from {A : Type} (m : Z) (xs : list A) :
  forall fs : list A,
    (length fs <= Z.to_nat m)%nat ->
    buffer_frames (buffer_add_all (mkFrameBuffer fs m) xs)
    = drop (length (fs ++ xs) - Z.to_nat m) (fs ++ xs).
Proof.
  induction xs as [|x xs IH]; intros fs Hfs.
  - simpl. rewrite app_nil_r.
    replace (length fs - Z.to_nat m)%nat with 0%nat by lia. reflexivity.
  - unfold buffer_add_all. simpl. rewrite (buffer_add_step m fs x Hfs).
    fold (buffer_add_all
            (mkFrameBuffer (drop (length fs + 1 - Z.to_nat m) (fs ++ [x])) m) xs).
    set (k := (length fs + 1 - Z.to_nat m)%nat).
    assert (Hk : (k <= length (fs ++ [x]))%nat)
      by (rewrite length_app; simpl; lia).
    rewrite IH by (rewrite length_drop, length_app; simpl; lia).
    rewrite <- (drop_app_le (fs ++ [x]) xs k Hk), drop_drop.
    rewrite <- app_assoc. simpl. f_equal.
    rewrite length_drop, !length_app in *. simpl in *. lia.
Qed.

(** X9.  A fresh buffer to which the entries [xs] are added one by one
    holds the last [max_frames] of them, oldest first: all of them when
    there are no more than [max_frames], none when [max_frames] is zero
    or negative. *)
Theorem buffer_holds_latest {A : Type} (max_frames : Z) (xs : list A) :
  buffer_get_all (buffer_add_all (buffer_new max_frames) xs)
  = drop (length xs - Z.to_nat max_frames) xs
  /\ (length (buffer_get_all (buffer_add_all (buffer_new max_frames) xs))
      <= Z.to_nat max_frames)%nat.
Proof.
  unfold buffer_get_all, buffer_new.
  rewrite (buffer_add_all_from max_frames xs []) by (simpl; lia).
  simpl. split; [reflexivity|]. rewrite length_drop. lia.
Qed.

(** ** Suppressing twice *)

Lemma sort_stable_id {A : Type} (before : A -> A -> bool) (l : list A) :
  StronglySorted (fun x y => before x y = true) l -> sort_stable before l = l.
Proof.
  induction 1 as [|x l Hs IH Hall]; simpl; [reflexivity|].
  rewrite IH. destruct l as [|y l]; [reflexivity|]. simpl.
  apply Forall_cons in Hall as [Hxy _]. by rewrite Hxy.
Qed.

Lemma filter_keeps_all {A : Type} (P : A -> Prop) `{!forall x, Decision (P x)}
    (l : list A) :
  Forall P l -> filter P l = l.
Proof.
  induction 1 as [|x l Hx Hall IH]; [reflexivity|].
  rewrite filter_cons, decide_True by done. by rewrite IH.
Qed.

Lemma nms_loop_fixed (thresh : Q) (l : list Detection) :
  forall (fuel : nat) (pick : list Detection),
    (length l <= fuel)%nat ->
    Forall (fun d => box_area d ≠ 0) l ->
    StronglySorted (ranked_apart thresh) l ->
    nms_loop fuel thresh l pick = Ok (pick ++ l).
Proof.
  induction l as [|best rest IH]; intros fuel pick Hlen Harea Hsorted.
  - destruct fuel; simpl; by rewrite app_nil_r.
  - destruct fuel as [|fuel]; [simpl in Hlen; lia|].
    apply Forall_cons in Harea as [Hbest Harea].
    apply StronglySorted_inv in Hsorted as [Hsorted Hall].
    simpl. rewrite (suppress_filter thresh best rest Hbest). simpl.
    rewrite filter_keeps_all.
    + rewrite IH; [|simpl in Hlen; lia|done|done].
      by rewrite <- app_assoc.
    + eapply Forall_impl; [exact Hall|]. intros d [_ Hd].
      unfold keeps. apply Is_true_true. by apply Qltb_lt.
Qed.

(** X1.  Suppression is idempotent: a list that [_nms] returned, whose
    boxes have a non-zero area, is returned unchanged when it is
    suppressed again. *)
Theorem nms_idempotent (detections pick : list Detection) :
  _nms detections = Ok pick ->
  Forall (fun d => box_area d ≠ 0) pick ->
  _nms pick = Ok pick.
Proof.
  intros Hrun Harea. pose proof (nms_cases detections) as Hcases.
  rewrite Hrun in Hcases. destruct Hcases as (_ & Hapart & _ & _).
  unfold _nms, _nms_with. destruct pick as [|d pick]; [reflexivity|].
  rewrite sort_stable_id.
  - by apply (nms_loop_fixed overlap_thresh (d :: pick) _ []).
  - eapply strongly_sorted_impl; [|exact Hapart].
    intros a b [Hscore _]. by apply Qle_bool_iff.
Qed.

(** The theorem at three boxes, two of which survive. *)
Lemma nms_idempotent_witness :
  _nms [mkDetection 1 1 10 10 (95 # 100); small_box]
  = Ok [mkDetection 1 1 10 10 (95 # 100); small_box].
Proof.
  apply (nms_idempotent [small_box; big_box; mkDetection 1 1 10 10 (95 # 100)]).
  - reflexivity.
  - repeat constructor; vm_compute; discriminate.
Defined.

(** ** The polygons of a layout *)

Lemma map_nth_seq {A : Type} (d : A) (l : list A) :
  map (fun i => nth i l d) (seq 0 (length l)) = l.
Proof.
  apply list_eq. intros i. rewrite list_lookup_fmap.
  destruct (decide (i < length l)%nat) as [Hlt|Hge].
  - rewrite lookup_seq_lt by done. simpl.
    destruct (lookup_lt_is_Some_2 l i Hlt) as [x Hx].
    by rewrite nth_lookup, Hx.
  - rewrite lookup_seq_ge by lia. simpl. symmetry. apply lookup_ge_None. lia.
Qed.

Lemma map_nth_permutation {A : Type} (d : A) (l : list A) (order : list nat) :
  order ≡ₚ seq 0 (length l) -> map (fun i => nth i l d) order ≡ₚ l.
Proof.
  intros Hperm.
  etrans; [apply (fmap_Permutation (fun i => nth i l d)), Hperm|].
  change (map (fun i => nth i l d) (seq 0 (length l)) ≡ₚ l).
  by rewrite map_nth_seq.
Qed.

Lemma sum_positive (l : list Z) :
  l ≠ [] -> Forall (fun x => 0 < x) l -> 0 < foldr Z.add 0 l.
Proof.
  intros Hne Hall. destruct Hall as [|x l Hx Hall]; [done|]. simpl.
  assert (0 <= foldr Z.add 0 l); [|lia].
  clear -Hall. induction Hall; simpl; lia.
Qed.

Lemma mean_positive (l : list Z) :
  l ≠ [] -> Forall (fun x => 0 < x) l -> (0 < mean_Z l)%Q.
Proof.
  intros Hne Hall. unfold mean_Z. apply Qlt_shift_div_l.
  - destruct l; [done|]. unfold Qlt. simpl. lia.
  - rewrite Qmult_0_l. pose proof (sum_positive l Hne Hall) as Hsum.
    unfold Qlt. simpl. lia.
Qed.

Lemma row_bin_size_positive (detections : list Detection) :
  detections ≠ [] -> Forall (fun d => 0 < det_h d) detections ->
  (0 < row_bin_size detections)%Q.
Proof.
  intros Hne Hall. unfold row_bin_size.
  assert (Hmean : (0 < mean_Z (map det_h detections))%Q).
  { apply mean_positive.
    - by destruct detections.
    - by apply Forall_fmap. }
  lra.
Qed.

Lemma row_bins_total (bin_size : Q) (centroids : list (Q * Q)) :
  (0 < bin_size)%Q -> exists bins, mapM (row_bin bin_size) centroids = Ok bins.
Proof.
  intros Hpos. apply mapM_total. intros c _. unfold row_bin.
  destruct (Qeq_bool bin_size 0) eqn:E; [|eauto].
  apply Qeq_bool_iff in E. rewrite E in Hpos. by apply Qlt_irrefl in Hpos.
Qed.

Lemma lexsort_permutation (secondary : list Q) (primary : list Z) :
  lexsort secondary primary ≡ₚ seq 0 (length primary).
Proof. unfold lexsort. apply sort_stable_perm. Qed.

(** What [_detections_to_polygons] returns for boxes of positive
    height. *)
Lemma detections_to_polygons_spec (detections : list Detection) :
  Forall (fun d => 0 < det_h d) detections ->
  exists polygons,
    _detections_to_polygons detections = Ok polygons
    /\ polygons ≡ₚ map detection_polygon detections.
Proof.
  intros Hall. unfold _detections_to_polygons.
  destruct detections as [|d0 ds]; [by exists []|].
  set (detections := d0 :: ds) in *.
  unfold row_major_order.
  destruct (row_bins_total (row_bin_size detections)
              (map centroid (map detection_polygon detections)))
    as (bins & Hbins).
  { by apply row_bin_size_positive. }
  rewrite Hbins. cbn [mbind result_bind]. eexists. split; [reflexivity|].
  apply map_nth_permutation.
  rewrite lexsort_permutation, (row_bins_length _ detections bins Hbins).
  by rewrite length_map.
Qed.



(** ** The pair solver: what is left unmatched, and the order of the pairs *)

Lemma score_row_complete `{Cv2} (processed_faces : gmap nat Canon) (idx1 : nat)
    (others : list nat) (row : list (Q * nat * nat)) :
  score_row processed_faces idx1 others = Ok row ->
  forall idx2, idx2 ∈ others -> exists s, (s, idx1, idx2) ∈ row.
Proof.
  revert row. induction others as [|idx others IH]; intros row Hrow idx2 Hin.
  - by apply elem_of_nil in Hin.
  - simpl in Hrow.
    apply bind_Ok in Hrow as (a & _ & Hrow).
    apply bind_Ok in Hrow as (b & _ & Hrow).
    apply bind_Ok in Hrow as (row' & Hrow' & Hrow).
    injection Hrow as <-.
    apply elem_of_cons in Hin as [->|Hin].
    + eexists. apply list_elem_of_here.
    + destruct (IH row' Hrow' idx2 Hin) as (s & Hs).
      exists s. by apply list_elem_of_further.
Qed.

Lemma score_pairs_complete `{Cv2} (processed_faces : gmap nat Canon)
    (indices : list nat) (scores : list (Q * nat * nat)) :
  score_pairs processed_faces indices = Ok scores ->
  StronglySorted lt indices ->
  forall i j, i ∈ indices -> j ∈ indices -> (i < j)%nat ->
              exists s, (s, i, j) ∈ scores.
Proof.
  revert scores. induction indices as [|idx1 indices IH];
    intros scores Hscores Hsorted i j Hi Hj Hij.
  - by apply elem_of_nil in Hi.
  - simpl in Hscores.
    apply bind_Ok in Hscores as (row & Hrow & Hscores).
    apply bind_Ok in Hscores as (rest & Hrest & Hscores).
    injection Hscores as <-.
    apply StronglySorted_inv in Hsorted as [Hsorted Hlt].
    apply elem_of_cons in Hi as [->|Hi].
    + apply elem_of_cons in Hj as [->|Hj]; [lia|].
      destruct (score_row_complete _ _ _ _ Hrow j Hj) as (s & Hs).
      exists s. apply elem_of_app. by left.
    + apply elem_of_cons in Hj as [->|Hj].
      * eapply Forall_forall in Hlt; [|exact Hi]. lia.
      * destruct (IH rest Hrest Hsorted i j Hi Hj Hij) as (s & Hs).
        exists s. apply elem_of_app. by right.
Qed.

(** [find_pairs] runs the greedy loop on a sorted list of triples that
    holds one triple for every two observed cells. *)
Lemma find_pairs_run `{Cv2} (faces : gmap nat Crop) :
  exists scores,
    find_pairs faces = Ok (greedy_select (sort_stable triple_before scores) [] ∅)
    /\ Forall (scored faces) scores
    /\ forall i j, is_Some (faces !! i) -> is_Some (faces !! j) -> (i < j)%nat ->
                   exists s, (s, i, j) ∈ scores.
Proof.
  unfold find_pairs.
  destruct (preprocess_spec faces (sorted_keys faces) ∅) as (processed & Hpre & Hlook).
  { intros idx Hidx. by apply sorted_keys_elem. }
  rewrite Hpre. simpl.
  destruct (score_pairs_spec faces processed (sorted_keys faces))
    as (scores & Hscores & Hall).
  { intros idx Hidx. pose proof Hidx as [f Hf]%sorted_keys_elem.
    exists f. split; [exact Hf|]. rewrite Hlook, decide_True by done.
    by rewrite Hf. }
  { apply sorted_keys_increasing. }
  rewrite Hscores. simpl. exists scores. split; [reflexivity|].
  split; [exact Hall|]. intros i j Hi Hj Hij.
  apply (score_pairs_complete processed (sorted_keys faces) scores Hscores
           (sorted_keys_increasing faces) i j); [| |exact Hij];
    by apply sorted_keys_elem.
Qed.

Lemma paired_indices_app (l k : list (nat * nat)) :
  paired_indices (l ++ k) = paired_indices l ++ paired_indices k.
Proof. unfold paired_indices. by rewrite flat_map_app. Qed.

Lemma paired_indices_pair (pairs : list (nat * nat)) (i j : nat) :
  (i, j) ∈ pairs -> i ∈ paired_indices pairs /\ j ∈ paired_indices pairs.
Proof.
  intros Hin. unfold paired_indices.
  split; apply list_elem_of_In, in_flat_map; exists (i, j);
    (split; [by apply list_elem_of_In|simpl; tauto]).
Qed.

(** The greedy loop only appends; and when it ends short of 12 pairs,
    every triple it walked over has an index that is matched or a score
    that does not exceed the cutoff. *)
Lemma greedy_select_exhausts (scores : list (Q * nat * nat)) :
  forall (pairs : list (nat * nat)) (matched : gset nat),
    (forall k, k ∈ matched <-> k ∈ paired_indices pairs) ->
    (length pairs < 12)%nat ->
    pairs `prefix_of` greedy_select scores pairs matched
    /\ ((length (greedy_select scores pairs matched) < 12)%nat ->
        forall s i j, (s, i, j) ∈ scores ->
          i ∈ paired_indices (greedy_select scores pairs matched)
          \/ j ∈ paired_indices (greedy_select scores pairs matched)
          \/ (s <= min_confidence)%Q).
Proof.
  induction scores as [|[[score idx1] idx2] rest IH];
    intros pairs matched Hmatched Hlen; simpl.
  - split; [reflexivity|]. intros _ s i j Hin. by apply elem_of_nil in Hin.
  - assert (Hgrow : forall r k, pairs `prefix_of` r ->
                      k ∈ paired_indices pairs -> k ∈ paired_indices r).
    { intros r k [tl ->] Hk. rewrite paired_indices_app. apply elem_of_app. by left. }
    destruct (decide (idx1 ∈ matched ∨ idx2 ∈ matched)) as [Hclaimed|Hfree].
    { destruct (IH pairs matched Hmatched Hlen) as [Hpre Hex].
      split; [exact Hpre|]. intros Hshort s i j Hin.
      apply elem_of_cons in Hin as [Heq|Hin]; [|by apply Hex].
      injection Heq as -> -> ->.
      destruct Hclaimed as [Hc|Hc]; apply Hmatched in Hc;
        [left|right; left]; by apply Hgrow. }
    destruct (Qltb min_confidence score) eqn:Eacc.
    + destruct (length (pairs ++ [(idx1, idx2)]) =? 12)%nat eqn:E12.
      * apply Nat.eqb_eq in E12. split; [by apply prefix_app_r|]. lia.
      * apply Nat.eqb_neq in E12. rewrite length_app in E12. simpl in E12.
        destruct (IH (pairs ++ [(idx1, idx2)]) ({[idx2]} ∪ ({[idx1]} ∪ matched)))
          as [Hpre Hex].
        { intros k. rewrite paired_indices_snoc, elem_of_app.
          rewrite !elem_of_union, !elem_of_singleton, Hmatched.
          rewrite elem_of_cons, list_elem_of_singleton. tauto. }
        { rewrite length_app. simpl. lia. }
        split; [etrans; [|exact Hpre]; by apply prefix_app_r|].
        intros Hshort s i j Hin.
        apply elem_of_cons in Hin as [Heq|Hin]; [|by apply Hex].
        injection Heq as -> -> ->.
        destruct Hpre as [tl Htl]. rewrite Htl.
        destruct (paired_indices_pair ((pairs ++ [(idx1, idx2)]) ++ tl) idx1 idx2)
          as [H1 _]; [|by left].
        apply elem_of_app. left. apply elem_of_app. right. apply list_elem_of_here.
    + replace (length pairs =? 12)%nat with false
        by (symmetry; apply Nat.eqb_neq; lia).
      destruct (IH pairs matched Hmatched Hlen) as [Hpre Hex].
      split; [exact Hpre|]. intros Hshort s i j Hin.
      apply elem_of_cons in Hin as [Heq|Hin]; [|by apply Hex].
      injection Heq as -> -> ->. right. right. by apply Qltb_ge.
Qed.


Lemma strongly_sorted_sublist {A : Type} (R : A -> A -> Prop) (l k : list A) :
  k `sublist_of` l -> StronglySorted R l -> StronglySorted R k.
Proof.
  induction 1 as [|x k l Hsub IH|x k l Hsub IH]; intros Hsorted.
  - constructor.
  - apply StronglySorted_inv in Hsorted as [Hsorted Hall].
    constructor; [by apply IH|].
    apply Forall_forall. intros y Hy.
    eapply Forall_forall in Hall; [exact Hall|]. by eapply elem_of_sublist.
  - apply StronglySorted_inv in Hsorted as [Hsorted _]. by apply IH.
Qed.

(** The pairs the greedy loop appends are the pairs of triples it
    chose, in the order of the list it walks. *)
Lemma greedy_select_chosen (scores : list (Q * nat * nat)) :
  forall (pairs : list (nat * nat)) (matched : gset nat),
    exists chosen,
      greedy_select scores pairs matched = pairs ++ map triple_pair chosen
      /\ chosen `sublist_of` scores.
Proof.
  induction scores as [|[[score idx1] idx2] rest IH]; intros pairs matched; simpl.
  - exists []. simpl. rewrite app_nil_r. split; [reflexivity|constructor].
  - destruct (decide (idx1 ∈ matched ∨ idx2 ∈ matched)) as [Hclaimed|Hfree].
    { destruct (IH pairs matched) as (chosen & Hrun & Hsub).
      exists chosen. split; [exact Hrun|by apply sublist_cons]. }
    destruct (Qltb min_confidence score).
    + destruct (length (pairs ++ [(idx1, idx2)]) =? 12)%nat.
      * exists [(score, idx1, idx2)]. split; [reflexivity|].
        apply sublist_skip, sublist_nil_l.
      * destruct (IH (pairs ++ [(idx1, idx2)]) ({[idx2]} ∪ ({[idx1]} ∪ matched)))
          as (chosen & Hrun & Hsub).
        exists ((score, idx1, idx2) :: chosen). rewrite Hrun, <- app_assoc.
        split; [reflexivity|by apply sublist_skip].
    + destruct (length pairs =? 12)%nat.
      * exists []. simpl. rewrite app_nil_r. split; [reflexivity|apply sublist_nil_l].
      * destruct (IH pairs matched) as (chosen & Hrun & Hsub).
        exists chosen. split; [exact Hrun|by apply sublist_cons].
Qed.

Lemma scored_similarity `{Cv2} (faces : gmap nat Crop) (t : Q * nat * nat) :
  scored faces t -> pair_similarity faces (triple_pair t) = Some t.1.1.
Proof.
  intros (_ & f1 & f2 & Hf1 & Hf2 & Heq).
  unfold pair_similarity, triple_pair. simpl. by rewrite Hf1, Hf2, Heq.
Qed.

Lemma triple_before_trans (x y z : Q * nat * nat) :
  triple_before x y = true -> triple_before y z = true -> triple_before x z = true.
Proof.
  unfold triple_before. rewrite !Qle_bool_iff. intros Hxy Hyz.
  by apply Qle_trans with y.1.1.
Qed.

Lemma triple_before_total (x y : Q * nat * nat) :
  triple_before x y = true \/ triple_before y x = true.
Proof.
  unfold triple_before.
  destruct (Qlt_le_dec x.1.1 y.1.1) as [Hlt|Hle].
  - right. apply Qle_bool_iff. by apply Qlt_le_weak.
  - left. by apply Qle_bool_iff.
Qed.

(** X5.  [find_pairs] returns its pairs best first: of any two returned
    pairs, the one that comes later in the list has a similarity that
    does not exceed the similarity of the earlier one. *)
Theorem find_pairs_best_first `{Cv2} (faces : gmap nat Crop) :
  exists pairs,
    find_pairs faces = Ok pairs
    /\ forall (a b : nat) (p q : nat * nat),
         (a < b)%nat -> pairs !! a = Some p -> pairs !! b = Some q ->
         exists sp sq,
           pair_similarity faces p = Some sp
           /\ pair_similarity faces q = Some sq
           /\ (sq <= sp)%Q.
Proof.
  destruct (find_pairs_run faces) as (scores & Hrun & Hscored & _).
  destruct (greedy_select_chosen (sort_stable triple_before scores) [] ∅)
    as (chosen & Hchosen & Hsub).
  simpl in Hchosen. rewrite Hchosen in Hrun.
  exists (map triple_pair chosen). split; [exact Hrun|].
  intros a b p q Hab Hp Hq.
  rewrite list_lookup_fmap in Hp, Hq.
  destruct (chosen !! a) as [tp|] eqn:Htp; [|discriminate].
  destruct (chosen !! b) as [tq|] eqn:Htq; [|discriminate].
  injection Hp as <-. injection Hq as <-.
  assert (Hsorted : StronglySorted (fun x y => triple_before x y = true) chosen).
  { apply (strongly_sorted_sublist _ (sort_stable triple_before scores)); [exact Hsub|].
    apply sort_stable_sorted; [apply triple_before_total|apply triple_before_trans]. }
  assert (Hin : forall t, t ∈ chosen -> scored faces t).
  { intros t Ht. eapply Forall_forall in Hscored; [exact Hscored|].
    apply (sort_stable_elem triple_before). by eapply elem_of_sublist. }
  exists tp.1.1, tq.1.1.
  split; [apply scored_similarity, Hin; by eapply list_elem_of_lookup_2|].
  split; [apply scored_similarity, Hin; by eapply list_elem_of_lookup_2|].
  apply Qle_bool_iff.
  exact (strongly_sorted_lookup _ chosen Hsorted a b tp tq Hab Htp Htq).
Qed.

(** ** The face tracker, cell by cell *)

Lemma view_step_keeps_key `{Cv2} (oc : option Candidate) (v : option Q * option Crop) :
  is_Some v.1 -> is_Some (view_step oc v).1.
Proof.
  intros [b Hb]. unfold view_step. destruct oc as [c|]; [|by rewrite Hb].
  destruct (too_bright c); [by rewrite Hb|]. rewrite Hb.
  destruct (Qltb b (cand_diff c)); simpl; [eauto|by rewrite Hb].
Qed.

(** The tracker on a layout of polygons with at least one corner, from a
    state that has a best score for every cell: it returns, the view of
    each cell is the view after the candidates of the frames were
    offered in turn, and nothing else changes. *)
Lemma track_views `{Cv2} (locations : list Polygon)
    (baselines : option (gmap nat Gray)) :
  Forall (fun poly => poly ≠ []) locations ->
  forall (frames : list Image) (st : tracker_state),
    (forall k, (k < length locations)%nat -> is_Some (max_diffs st !! k)) ->
    exists st',
      track locations baselines frames st = Ok st'
      /\ (forall i poly, locations !! i = Some poly ->
            cell_view st' i
            = view_after (map (candidate_of baselines i poly) frames) (cell_view st i))
      /\ (forall j, (length locations <= j)%nat -> cell_view st' j = cell_view st j).
Proof.
  intros Hne. induction frames as [|frame frames IH]; intros st Hkeys; simpl.
  - exists st. by repeat split.
  - unfold _process_frame_for_faces.
    destruct (process_cells_view baselines frame locations 0%nat st Hne)
      as (st1 & Hrun1 & Hcells & Hother).
    { intros k Hk. apply Hkeys. lia. }
    rewrite Hrun1. simpl.
    assert (Hstep : forall i poly, locations !! i = Some poly ->
              cell_view st1 i
              = view_step (candidate_of baselines i poly frame) (cell_view st i)).
    { intros i poly Hi. destruct (Hcells i poly Hi) as (oc & Hoc & Hview).
      simpl in Hoc, Hview. unfold candidate_of. by rewrite Hoc. }
    destruct (IH st1) as (st' & Hrun & Hviews & Hrest).
    { intros k Hk. destruct (lookup_lt_is_Some_2 locations k Hk) as [poly Hpoly].
      pose proof (view_step_keeps_key (candidate_of baselines k poly frame)
                    (cell_view st k) (Hkeys k Hk)) as Hkey.
      by rewrite <- (Hstep k poly Hpoly) in Hkey. }
    exists st'. split; [exact Hrun|]. split.
    + intros i poly Hi. rewrite (Hviews i poly Hi). unfold view_after. simpl.
      by rewrite (Hstep i poly Hi).
    + intros j Hj. rewrite (Hrest j Hj). apply Hother. lia.
Qed.

(** One cell: offering candidates never lowers the best score and never
    takes a face away. *)
Lemma view_after_grows `{Cv2} (ocs : list (option Candidate)) :
  forall (v : option Q * option Crop) (b : Q),
    v.1 = Some b ->
    exists b', (view_after ocs v).1 = Some b' /\ (b <= b')%Q
               /\ (is_Some v.2 -> is_Some (view_after ocs v).2).
Proof.
  induction ocs as [|oc ocs IH]; intros v b Hb; simpl.
  - exists b. split; [exact Hb|]. split; [apply Qle_refl|done].
  - assert (Hstep : exists b1, (view_step oc v).1 = Some b1 /\ (b <= b1)%Q
                               /\ (is_Some v.2 -> is_Some (view_step oc v).2)).
    { unfold view_step. destruct oc as [c|].
      2:{ exists b. split; [exact Hb|]. split; [apply Qle_refl|done]. }
      destruct (too_bright c).
      { exists b. split; [exact Hb|]. split; [apply Qle_refl|done]. }
      rewrite Hb. destruct (Qltb b (cand_diff c)) eqn:E.
      - exists (cand_diff c). simpl. split; [reflexivity|].
        split; [apply Qlt_le_weak; by apply Qltb_lt|eauto].
      - exists b. split; [exact Hb|]. split; [apply Qle_refl|done]. }
    destruct Hstep as (b1 & Hb1 & Hle1 & Hface1).
    destruct (IH (view_step oc v) b1 Hb1) as (b' & Hb' & Hle' & Hface').
    exists b'. split; [exact Hb'|]. split; [by apply Qle_trans with b1|].
    intros Hf. by apply Hface', Hface1.
Qed.

(** One cell: after the candidates were offered, either nothing has
    changed and no accepted candidate scores above the best score, or
    the view is the score and the crop of an accepted candidate that
    scores above the former best and at least as much as every accepted
    candidate. *)
Lemma view_after_spec `{Cv2} (ocs : list (option Candidate)) :
  forall (v : option Q * option Crop) (b0 : Q),
    v.1 = Some b0 ->
    (view_after ocs v = v
     /\ forall c, accepted_in ocs c -> (cand_diff c <= b0)%Q)
    \/ exists c,
         accepted_in ocs c
         /\ view_after ocs v = (Some (cand_diff c), Some (cand_crop c))
         /\ (b0 < cand_diff c)%Q
         /\ forall c', accepted_in ocs c' -> (cand_diff c' <= cand_diff c)%Q.
Proof.
  induction ocs as [|oc ocs IH]; intros v b0 Hb0.
  - left. split; [reflexivity|]. intros c [Hin _]. by apply elem_of_nil in Hin.
  - assert (Hcons : forall c, accepted_in (oc :: ocs) c ->
                      (oc = Some c /\ too_bright c = false) \/ accepted_in ocs c).
    { intros c [Hin Hb]. apply elem_of_cons in Hin as [Heq|Hin];
        [left|right]; by split. }
    assert (Hweak : forall c, accepted_in ocs c -> accepted_in (oc :: ocs) c).
    { intros c [Hin Hb]. split; [by apply list_elem_of_further|exact Hb]. }
    assert (Hstep : (view_step oc v = v
                     /\ forall c, oc = Some c -> too_bright c = false ->
                                  (cand_diff c <= b0)%Q)
                    \/ exists c, oc = Some c /\ too_bright c = false
                         /\ view_step oc v = (Some (cand_diff c), Some (cand_crop c))
                         /\ (b0 < cand_diff c)%Q).
    { unfold view_step. destruct oc as [c|]; [|left; split; [done|discriminate]].
      destruct (too_bright c) eqn:Eb.
      { left. split; [done|]. intros c' Heq Hb'. injection Heq as <-. congruence. }
      rewrite Hb0. destruct (Qltb b0 (cand_diff c)) eqn:E.
      - right. exists c. apply Qltb_lt in E. by repeat split.
      - left. split; [done|]. intros c' Heq _. injection Heq as <-.
        by apply Qltb_ge. }
    change (view_after (oc :: ocs) v) with (view_after ocs (view_step oc v)).
    destruct Hstep as [[Hsame Hhead]|(c0 & Hoc & Hb0' & Hnew & Hgt)].
    + rewrite Hsame. destruct (IH v b0 Hb0) as [[Hv Hall]|(c & Hc & Hv & Hlt & Hall)].
      * left. split; [exact Hv|]. intros c Hc.
        destruct (Hcons c Hc) as [[Heq Hb]|Hc']; [by apply Hhead|by apply Hall].
      * right. exists c. split; [by apply Hweak|]. split; [exact Hv|].
        split; [exact Hlt|]. intros c' Hc'.
        destruct (Hcons c' Hc') as [[Heq Hb]|Hc'']; [|by apply Hall].
        apply Qle_trans with b0; [by apply Hhead|by apply Qlt_le_weak].
    + rewrite Hnew.
      assert (Hc0 : accepted_in (oc :: ocs) c0).
      { split; [rewrite Hoc; apply list_elem_of_here|exact Hb0']. }
      destruct (IH (Some (cand_diff c0), Some (cand_crop c0)) (cand_diff c0) eq_refl)
        as [[Hv Hall]|(c & Hc & Hv & Hlt & Hall)].
      * right. exists c0. split; [exact Hc0|]. split; [exact Hv|].
        split; [exact Hgt|]. intros c' Hc'.
        destruct (Hcons c' Hc') as [[Heq Hb]|Hc'']; [|by apply Hall].
        rewrite Hoc in Heq. injection Heq as <-. apply Qle_refl.
      * right. exists c. split; [by apply Hweak|]. split; [exact Hv|].
        split; [by apply Qlt_trans with (cand_diff c0)|]. intros c' Hc'.
        destruct (Hcons c' Hc') as [[Heq Hb]|Hc'']; [|by apply Hall].
        rewrite Hoc in Heq. injection Heq as <-. by apply Qlt_le_weak.
Qed.

(** X6.  The tracker never forgets: on a layout of polygons with at
    least one corner and from a state that has a best score for every
    cell, it returns; no best score is lower afterwards, no kept face is
    gone, and nothing changes at an index that is not a cell of the
    layout. *)
Theorem tracker_never_forgets `{Cv2} (locations : list Polygon)
    (baselines : option (gmap nat Gray)) (frames : list Image)
    (st : tracker_state) :
  Forall (fun poly => poly ≠ []) locations ->
  (forall k, (k < length locations)%nat -> is_Some (max_diffs st !! k)) ->
  exists st',
    track locations baselines frames st = Ok st'
    /\ forall i,
         (forall b, max_diffs st !! i = Some b ->
                    exists b', max_diffs st' !! i = Some b' /\ (b <= b')%Q)
         /\ (is_Some (card_faces st !! i) -> is_Some (card_faces st' !! i))
         /\ ((length locations <= i)%nat ->
             max_diffs st' !! i = max_diffs st !! i
             /\ card_faces st' !! i = card_faces st !! i).
Proof.
  intros Hne Hkeys.
  destruct (track_views locations baselines Hne frames st Hkeys)
    as (st' & Hrun & Hviews & Hrest).
  exists st'. split; [exact Hrun|]. intros i.
  destruct (decide (i < length locations)%nat) as [Hlt|Hge].
  - destruct (lookup_lt_is_Some_2 locations i Hlt) as [poly Hpoly].
    pose proof (Hviews i poly Hpoly) as Hview.
    split; [|split; [|lia]].
    + intros b Hb.
      destruct (view_after_grows (map (candidate_of baselines i poly) frames)
                  (cell_view st i) b Hb) as (b' & Hb' & Hle & _).
      rewrite <- Hview in Hb'. by exists b'.
    + intros Hface. destruct (max_diffs st !! i) as [b|] eqn:Hb.
      * destruct (view_after_grows (map (candidate_of baselines i poly) frames)
                    (cell_view st i) b) as (b' & _ & _ & Hkeep).
        { simpl. exact Hb. }
        rewrite <- Hview in Hkeep. by apply Hkeep.
      * destruct (Hkeys i Hlt) as [b Hb']. congruence.
  - assert (Hsame : cell_view st' i = cell_view st i) by (apply Hrest; lia).
    injection Hsame as Hm Hf. rewrite Hm, Hf.
    split; [|split; [done|done]].
    intros b Hb. exists b. split; [exact Hb|apply Qle_refl].
Qed.

(** The theorem at one cell whose best score is 60 already: the frames
    at levels 50 and 80 change nothing, the frame at level 120 does. *)
Lemma tracker_never_forgets_witness :
  exists st',
    @track two_scales [unit_square] None reveal_frames
           (@mkTracker two_scales {[ 0%nat := 60%Q ]} {[ 0%nat := 60%Q ]}) = Ok st'
    /\ max_diffs st' !! 0%nat = Some 120%Q
    /\ forall i,
         (forall b, ({[ 0%nat := 60%Q ]} : gmap nat Q) !! i = Some b ->
                    exists b', max_diffs st' !! i = Some b' /\ (b <= b')%Q)
         /\ (is_Some (({[ 0%nat := 60%Q ]} : gmap nat Q) !! i) ->
             is_Some (card_faces st' !! i))
         /\ ((length [unit_square] <= i)%nat ->
             max_diffs st' !! i = ({[ 0%nat := 60%Q ]} : gmap nat Q) !! i
             /\ card_faces st' !! i = ({[ 0%nat := 60%Q ]} : gmap nat Q) !! i).
Proof.
  destruct (@tracker_never_forgets two_scales [unit_square] None reveal_frames
              (@mkTracker two_scales {[ 0%nat := 60%Q ]} {[ 0%nat := 60%Q ]}))
    as (st' & Hrun & Hall).
  - repeat constructor. discriminate.
  - intros k Hk. simpl in Hk. assert (k = 0%nat) as -> by lia.
    simpl. rewrite lookup_singleton_eq. eauto.
  - exists st'. split; [exact Hrun|]. split; [|exact Hall].
    vm_compute in Hrun. injection Hrun as <-. reflexivity.
Defined.

Lemma tracker_init_lookup_beyond `{Cv2} (n i : nat) :
  (n <= i)%nat -> max_diffs (tracker_init n) !! i = None.
Proof.
  intros Hi. unfold tracker_init. simpl.
  apply not_elem_of_list_to_map_1.
  rewrite <- list_fmap_compose.
  replace (fst ∘ (fun i : nat => (i, 0%Q))) with (@id nat) by reflexivity.
  rewrite list_fmap_id, elem_of_seq. lia.
Qed.

Lemma tracker_init_view `{Cv2} (n i : nat) :
  (i < n)%nat -> cell_view (tracker_init n) i = (Some 0%Q, None).
Proof.
  intros Hi. unfold cell_view. rewrite tracker_init_lookup by done.
  reflexivity.
Qed.

(** X7.  After the tracker has run from the state [solve_frames] gives
    it, the best scores are those of the cells of the layout and no
    other, every face belongs to a cell of the layout, no best score is
    negative, and a cell has a face exactly when its best score is
    above zero. *)
Theorem tracker_faces_belong_to_cells `{Cv2} (locations : list Polygon)
    (baselines : option (gmap nat Gray)) (frames : list Image) :
  Forall (fun poly => poly ≠ []) locations ->
  exists st,
    track locations baselines frames (tracker_init (length locations)) = Ok st
    /\ forall i,
         (is_Some (max_diffs st !! i) <-> (i < length locations)%nat)
         /\ (is_Some (card_faces st !! i) -> (i < length locations)%nat)
         /\ (forall b, max_diffs st !! i = Some b ->
                       (0 <= b)%Q
                       /\ (is_Some (card_faces st !! i) <-> (0 < b)%Q)).
Proof.
  intros Hne.
  destruct (track_views locations baselines Hne frames
              (tracker_init (length locations))) as (st & Hrun & Hviews & Hrest).
  { intros k Hk. rewrite tracker_init_lookup by done. eauto. }
  exists st. split; [exact Hrun|]. intros i.
  destruct (decide (i < length locations)%nat) as [Hlt|Hge].
  - destruct (lookup_lt_is_Some_2 locations i Hlt) as [poly Hpoly].
    pose proof (Hviews i poly Hpoly) as Hview.
    rewrite (tracker_init_view _ i Hlt) in Hview.
    destruct (view_after_spec (map (candidate_of baselines i poly) frames)
                (Some 0%Q, None) 0%Q eq_refl)
      as [[Hv _]|(c & _ & Hv & Hpos & _)];
      rewrite Hv in Hview; injection Hview as Hm Hf; rewrite Hm, Hf.
    + split; [by split; eauto|]. split; [done|].
      intros b Hb. injection Hb as <-. split; [apply Qle_refl|].
      split; [intros [? ?]; discriminate|]. intros Habs.
      by apply Qlt_irrefl in Habs.
    + split; [by split; eauto|]. split; [done|].
      intros b Hb. injection Hb as <-. split; [by apply Qlt_le_weak|].
      split; [done|eauto].
  - assert (Hsame : cell_view st i = cell_view (tracker_init (length locations)) i)
      by (apply Hrest; lia).
    assert (Hm : max_diffs st !! i = None).
    { rewrite <- (tracker_init_lookup_beyond (length locations) i) by lia.
      by injection Hsame. }
    assert (Hf : card_faces st !! i = None).
    { transitivity (card_faces (tracker_init (length locations)) !! i);
        [by injection Hsame|reflexivity]. }
    rewrite Hm, Hf.
    split; [split; [intros [? ?]; discriminate|lia]|].
    split; [intros [? ?]; discriminate|]. intros b Hb. discriminate.
Qed.

(** The theorem at one cell and four frames. *)
Lemma tracker_faces_belong_to_cells_witness :
  exists st,
    @track two_scales [unit_square] None reveal_frames
           (@tracker_init two_scales (length [unit_square])) = Ok st
    /\ forall i,
         (is_Some (max_diffs st !! i) <-> (i < length [unit_square])%nat)
         /\ (is_Some (card_faces st !! i) -> (i < length [unit_square])%nat)
         /\ (forall b, max_diffs st !! i = Some b ->
                       (0 <= b)%Q
                       /\ (is_Some (card_faces st !! i) <-> (0 < b)%Q)).
Proof.
  apply (@tracker_faces_belong_to_cells two_scales [unit_square] None reveal_frames).
  repeat constructor. discriminate.
Defined.

Lemma accepted_in_perm `{Cv2} (ocs ocs' : list (option Candidate)) (c : Candidate) :
  ocs ≡ₚ ocs' -> accepted_in ocs c -> accepted_in ocs' c.
Proof. intros Hperm [Hin Hb]. split; [by rewrite <- Hperm|exact Hb]. Qed.

(** One cell, from the initial view: the best score and the presence of
    a face do not depend on the order of the candidates. *)
Lemma view_after_perm `{Cv2} (ocs ocs' : list (option Candidate)) :
  ocs ≡ₚ ocs' ->
  exists b b',
    (view_after ocs (Some 0%Q, None)).1 = Some b
    /\ (view_after ocs' (Some 0%Q, None)).1 = Some b'
    /\ (b == b')%Q
    /\ (is_Some (view_after ocs (Some 0%Q, None)).2
        <-> is_Some (view_after ocs' (Some 0%Q, None)).2).
Proof.
  intros Hperm.
  destruct (view_after_spec ocs (Some 0%Q, None) 0%Q eq_refl)
    as [[Hv Hall]|(c & Hc & Hv & Hpos & Hall)];
    destruct (view_after_spec ocs' (Some 0%Q, None) 0%Q eq_refl)
      as [[Hv' Hall']|(c' & Hc' & Hv' & Hpos' & Hall')];
    rewrite Hv, Hv'; simpl.
  - exists 0%Q, 0%Q. by repeat split.
  - exfalso. apply (accepted_in_perm ocs' ocs c') in Hc'; [|by symmetry].
    apply Hall in Hc'. apply (Qlt_not_le _ _ Hpos' Hc').
  - exfalso. apply (accepted_in_perm ocs ocs' c Hperm) in Hc.
    apply Hall' in Hc. apply (Qlt_not_le _ _ Hpos Hc).
  - exists (cand_diff c), (cand_diff c'). split; [reflexivity|].
    split; [reflexivity|]. split; [|split; eauto].
    apply Qle_antisym.
    + apply Hall'. by apply (accepted_in_perm ocs ocs').
    + apply Hall. apply (accepted_in_perm ocs' ocs); [by symmetry|done].
Qed.

(** X8.  The frames may come in any order: two runs of the tracker over
    the same frames, differently ordered, end with equal best scores
    for every cell and with a face for the same cells. *)
Theorem tracker_order_independent `{Cv2} (locations : list Polygon)
    (baselines : option (gmap nat Gray)) (frames frames' : list Image) :
  Forall (fun poly => poly ≠ []) locations ->
  frames ≡ₚ frames' ->
  exists st st',
    track locations baselines frames (tracker_init (length locations)) = Ok st
    /\ track locations baselines frames' (tracker_init (length locations)) = Ok st'
    /\ forall i, (i < length locations)%nat ->
         exists b b',
           max_diffs st !! i = Some b /\ max_diffs st' !! i = Some b'
           /\ (b == b')%Q
           /\ (is_Some (card_faces st !! i) <-> is_Some (card_faces st' !! i)).
Proof.
  intros Hne Hperm.
  assert (Hkeys : forall k, (k < length locations)%nat ->
                    is_Some (max_diffs (tracker_init (length locations)) !! k)).
  { intros k Hk. rewrite tracker_init_lookup by done. eauto. }
  destruct (track_views locations baselines Hne frames _ Hkeys)
    as (st & Hrun & Hviews & _).
  destruct (track_views locations baselines Hne frames' _ Hkeys)
    as (st' & Hrun' & Hviews' & _).
  exists st, st'. split; [exact Hrun|]. split; [exact Hrun'|].
  intros i Hi. destruct (lookup_lt_is_Some_2 locations i Hi) as [poly Hpoly].
  pose proof (Hviews i poly Hpoly) as Hv. pose proof (Hviews' i poly Hpoly) as Hv'.
  rewrite (tracker_init_view _ i Hi) in Hv, Hv'.
  destruct (view_after_perm (map (candidate_of baselines i poly) frames)
              (map (candidate_of baselines i poly) frames'))
    as (b & b' & Hb & Hb' & Heq & Hiff).
  { by apply fmap_Permutation. }
  rewrite <- Hv in Hb, Hiff. rewrite <- Hv' in Hb', Hiff.
  by exists b, b'.
Qed.

(** The theorem at one cell and the four frames, forward and backward. *)
Lemma tracker_order_independent_witness :
  exists st st',
    @track two_scales [unit_square] None reveal_frames
           (@tracker_init two_scales (length [unit_square])) = Ok st
    /\ @track two_scales [unit_square] None (reverse reveal_frames)
              (@tracker_init two_scales (length [unit_square])) = Ok st'
    /\ forall i, (i < length [unit_square])%nat ->
         exists b b',
           max_diffs st !! i = Some b /\ max_diffs st' !! i = Some b'
           /\ (b == b')%Q
           /\ (is_Some (card_faces st !! i) <-> is_Some (card_faces st' !! i)).
Proof.
  apply (@tracker_order_independent two_scales [unit_square] None
           reveal_frames (reverse reveal_frames)).
  - repeat constructor. discriminate.
  - symmetry. apply reverse_Permutation.
Defined.

(** ** The whole session *)

Lemma big_enough_area (d : Detection) : big_enough d -> box_area d ≠ 0.
Proof. intros [Hw Hh]. unfold box_area. nia. Qed.

Lemma nms_big_enough (detections : list Detection) :
  Forall big_enough detections ->
  exists pick, _nms detections = Ok pick /\ Forall big_enough pick.
Proof.
  intros Hbig. destruct (nms_spec detections) as (pick & Hrun & Hsub & _).
  { eapply Forall_impl; [exact Hbig|]. apply big_enough_area. }
  exists pick. split; [exact Hrun|]. apply Forall_forall. intros d Hd.
  eapply Forall_forall in Hbig; [exact Hbig|].
  apply (sort_stable_elem score_before). by eapply elem_of_sublist.
Qed.

Lemma detect_big_enough `{Cv2} (frame : Image) :
  exists r, detect_card_locations frame = Ok r /\ Forall big_enough r.
Proof.
  destruct (sweep_returns frame scale_sizes []) as (r & Hr & Hor).
  exists r. split; [exact Hr|].
  destruct Hor as [->|(size & _ & Htried & Hp)]; [constructor|].
  destruct (tried_scale_suppresses frame size Htried) as (q & Hq & Hsub).
  assert (q = r) by congruence. subst q.
  unfold scale_tried in Htried.
  apply negb_true_iff, orb_false_iff in Htried as [Hw Hh].
  apply Z.ltb_ge in Hw, Hh.
  apply Forall_forall. intros d Hd.
  assert (Hin : d ∈ scale_detections frame size).
  { apply (sort_stable_elem score_before). by eapply elem_of_sublist. }
  pose proof (scale_detections_size frame size) as Hall.
  eapply Forall_forall in Hall; [|exact Hin]. destruct Hall as [Hdw Hdh].
  unfold big_enough. by rewrite Hdw, Hdh.
Qed.

Lemma accumulate_big_enough `{Cv2} (frames : list Image) :
  forall all_detections,
    Forall big_enough all_detections ->
    exists all_detections',
      accumulate_detections frames all_detections = Ok all_detections'
      /\ Forall big_enough all_detections'.
Proof.
  induction frames as [|frame frames IH]; intros pool Hpool; simpl.
  - by exists pool.
  - destruct (detect_big_enough frame) as (fd & -> & Hfd). simpl.
    set (pool' := if is_empty fd then pool else pool ++ fd).
    assert (Hpool' : Forall big_enough pool').
    { unfold pool'. destruct (is_empty fd); [done|]. by apply Forall_app. }
    destruct (nms_big_enough pool' Hpool') as (unique & -> & _). simpl.
    destruct (Z.of_nat (length unique) =? 24); [by exists pool'|by apply IH].
Qed.

(** The calibration returns, and a layout it returns has no polygon
    without a corner when the layout it was given has none. *)
Lemma calibrate_total `{Cv2} (locations : list Polygon)
    (captured_frames : list FrameSample) :
  Forall (fun poly => poly ≠ []) locations ->
  exists c,
    calibrate locations captured_frames = Ok c
    /\ match c with
       | SessionReturns => captured_frames = [] \/ locations = []
       | Layout locations' =>
           captured_frames ≠ [] /\ Forall (fun poly => poly ≠ []) locations'
       end.
Proof.
  intros Hne. unfold calibrate.
  destruct captured_frames as [|s0 rest]; [exists SessionReturns; by split; [|left]|].
  cbn [is_empty].
  destruct (accumulate_big_enough (map sample_frame (every_other (s0 :: rest))) [])
    as (pool & -> & Hpool); [constructor|]. cbn [mbind result_bind].
  destruct (nms_big_enough pool Hpool) as (final & -> & Hfinal).
  cbn [mbind result_bind].
  destruct final as [|d final]; cbn [is_empty].
  - destruct locations as [|poly locations]; cbn [is_empty].
    + exists SessionReturns. split; [reflexivity|by right].
    + eexists. split; [reflexivity|]. by split.
  - destruct (detections_to_polygons_spec (d :: final)) as (polys & -> & Hperm).
    { eapply Forall_impl; [exact Hfinal|]. intros x [_ Hh]. lia. }
    cbn [mbind result_bind]. eexists. split; [reflexivity|]. split; [done|].
    rewrite Hperm. apply Forall_fmap, Forall_forall. by intros x _.
Qed.

(** The window is made of two frames of the recording, the baseline
    frame not after the start frame. *)
Lemma find_stable_window_total `{Cv2} (locations : list Polygon)
    (captured_frames : list FrameSample) :
  Forall (fun poly => poly ≠ []) locations ->
  captured_frames ≠ [] ->
  exists window,
    find_stable_window locations captured_frames = Ok window
    /\ 0 <= window.1 <= window.2
    /\ window.2 < Z.of_nat (length captured_frames).
Proof.
  intros Hlocs Hframes.
  destruct (mapM_total (frame_is_stable locations) captured_frames) as (flags & Hflags).
  { intros s _. by apply frame_is_stable_total. }
  exists (stable_window flags). split.
  { unfold find_stable_window. rewrite Hflags. reflexivity. }
  apply mapM_Ok_Forall2, Forall2_length in Hflags.
  destruct (stable_window_spec flags) as [(s & e & Hfirst & ->)|[_ ->]]; simpl.
  - destruct Hfirst as [[(Hs & Hse & Hrun & _ & _) _] _].
    destruct (Hrun e) as [_ He]; [lia|]. apply lookup_lt_Some in He.
    pose proof (Z.div_mod (s + e) 2). pose proof (Z.mod_pos_bound (s + e) 2).
    lia.
  - destruct captured_frames; [done|]. simpl. lia.
Qed.

Lemma build_baselines_total `{Cv2} (baseline : FrameSample) (locations : list Polygon) :
  Forall (fun poly => poly ≠ []) locations ->
  forall (i : nat) (acc : gmap nat Gray),
    exists per_card_baselines,
      build_baselines baseline i locations acc = Ok per_card_baselines.
Proof.
  induction 1 as [|poly locations Hpoly Hall IH]; intros i acc; simpl; [eauto|].
  destruct (clamped_rect_total (region_width (sample_region baseline))
              (region_height (sample_region baseline)) poly Hpoly) as (r & ->).
  simpl. apply IH.
Qed.



(** ** Distinct template matches *)

Lemma dist_sq_sym (p q : Z * Z) : dist_sq p q = dist_sq q p.
Proof. unfold dist_sq. lia. Qed.

Lemma is_new_true (w h : Z) (pt : Z * Z) (final_matches : list (Z * Z)) :
  is_new w h pt final_matches = true ->
  Forall (fun e => far_apart w h e pt) final_matches.
Proof.
  induction final_matches as [|e rest IH]; simpl; intros Hnew; [constructor|].
  destruct (Qltb (inject_Z (dist_sq pt e)) (min_dist_sq w h)) eqn:E; [discriminate|].
  constructor; [by apply Qltb_ge|by apply IH].
Qed.

Lemma is_new_false (w h : Z) (pt : Z * Z) (final_matches : list (Z * Z)) :
  is_new w h pt final_matches = false ->
  exists e, e ∈ final_matches /\ too_close w h pt e.
Proof.
  induction final_matches as [|e rest IH]; simpl; intros Hnew; [discriminate|].
  destruct (Qltb (inject_Z (dist_sq pt e)) (min_dist_sq w h)) eqn:E.
  - exists e. split; [apply list_elem_of_here|by apply Qltb_lt].
  - destruct (IH Hnew) as (e' & He' & Hclose).
    exists e'. split; [by apply list_elem_of_further|exact Hclose].
Qed.

(** The loop over the sorted matches: the matches it keeps stay far
    apart from one another, each comes from an input match, and every
    match it walks over is kept or is too close to a kept match that
    scores at least as much. *)
Lemma distinct_matches_spec (w h : Z) (all : list (Z * Z * Q)) :
  forall (final : list (Z * Z)%type) (todo : list (Z * Z * Q)),
    StronglySorted (fun x y => match_before x y = true) todo ->
    StronglySorted (far_apart w h) final ->
    (forall e, e ∈ final ->
       exists se, (e, se) ∈ all /\ Forall (fun t : Z * Z * Q => (t.2 <= se)%Q) todo) ->
    (forall t, t ∈ todo -> t ∈ all) ->
    StronglySorted (far_apart w h) (distinct_matches w h todo final)
    /\ final `prefix_of` distinct_matches w h todo final
    /\ (forall e, e ∈ distinct_matches w h todo final -> exists se, (e, se) ∈ all)
    /\ (forall pt s, (pt, s) ∈ todo ->
          pt ∈ distinct_matches w h todo final
          \/ exists e se,
               e ∈ distinct_matches w h todo final
               /\ (e, se) ∈ all /\ (s <= se)%Q /\ too_close w h pt e).
Proof.
  intros final todo. revert final.
  induction todo as [|[pt s] todo IH]; intros final Hsorted Hfinal Horigin Hall; simpl.
  - split; [exact Hfinal|]. split; [reflexivity|]. split.
    + intros e He. destruct (Horigin e He) as (se & Hse & _). by exists se.
    + intros pt s Hin. by apply elem_of_nil in Hin.
  - apply StronglySorted_inv in Hsorted as [Hsorted Hhead].
    set (final' := if is_new w h pt final then final ++ [pt] else final).
    assert (Hpre : final `prefix_of` final').
    { unfold final'. destruct (is_new w h pt final);
        [by apply prefix_app_r|reflexivity]. }
    destruct (IH final') as (Hfar & Hprefix & Horig & Hcover).
    + exact Hsorted.
    + unfold final'. destruct (is_new w h pt final) eqn:Enew; [|exact Hfinal].
      apply StronglySorted_app. split; [|split; [exact Hfinal|repeat constructor]].
      intros e q He Hq. apply list_elem_of_singleton in Hq. subst q.
      apply is_new_true in Enew. eapply Forall_forall in Enew; eauto.
    + intros e He. unfold final' in He.
      assert (Hold : e ∈ final ->
                exists se, (e, se) ∈ all
                           /\ Forall (fun t : Z * Z * Q => (t.2 <= se)%Q) todo).
      { intros Hin. destruct (Horigin e Hin) as (se & Hse & Hle).
        exists se. split; [exact Hse|]. by apply Forall_cons in Hle as [_ Hle]. }
      destruct (is_new w h pt final); [|by apply Hold].
      apply elem_of_app in He as [He|He]; [by apply Hold|].
      apply list_elem_of_singleton in He. subst e. exists s.
      split; [apply Hall, list_elem_of_here|].
      eapply Forall_impl; [exact Hhead|]. intros t Ht. by apply Qle_bool_iff.
    + intros t Ht. apply Hall. by apply list_elem_of_further.
    + split; [exact Hfar|]. split; [by etrans|]. split; [exact Horig|].
      intros pt' s' Hin. apply elem_of_cons in Hin as [Heq|Hin]; [|by apply Hcover].
      injection Heq as -> ->.
      destruct (is_new w h pt final) eqn:Enew.
      * left. destruct Hprefix as [tl ->]. apply elem_of_app. left.
        subst final'. apply elem_of_app. right. apply list_elem_of_here.
      * right. destruct (is_new_false w h pt final Enew) as (e & He & Hclose).
        destruct (Horigin e He) as (se & Hse & Hle).
        apply Forall_cons in Hle as [Hle _]. simpl in Hle.
        exists e, se. split; [|by repeat split].
        destruct Hprefix as [tl ->]. apply elem_of_app. left.
        destruct Hpre as [tl' ->]. apply elem_of_app. by left.
Qed.

Lemma match_before_total (x y : Z * Z * Q) :
  match_before x y = true \/ match_before y x = true.
Proof.
  unfold match_before.
  destruct (Qlt_le_dec x.2 y.2) as [Hlt|Hle].
  - right. apply Qle_bool_iff. by apply Qlt_le_weak.
  - left. by apply Qle_bool_iff.
Qed.

Lemma match_before_trans (x y z : Z * Z * Q) :
  match_before x y = true -> match_before y z = true -> match_before x z = true.
Proof.
  unfold match_before. rewrite !Qle_bool_iff. intros Hxy Hyz.
  by apply Qle_trans with y.2.
Qed.

(** X10.  [find_matches] returns the rectangles of matches that are
    distinct: any two of the matches it keeps are at least the minimum
    distance (half the template's diagonal) apart, each is one of the
    input matches, and every input match is kept or lies closer than the
    minimum distance to a kept match that scores at least as much. *)
Theorem find_matches_distinct (w h : Z) (matches : list (Z * Z * Q)) :
  find_matches w h matches
  = map (match_polygon w h) (final_matches_of w h matches)
  /\ (forall (a b : nat) (p q : Z * Z),
        a ≠ b ->
        final_matches_of w h matches !! a = Some p ->
        final_matches_of w h matches !! b = Some q ->
        (min_dist_sq w h <= inject_Z (dist_sq p q))%Q)
  /\ (forall e, e ∈ final_matches_of w h matches -> exists se, (e, se) ∈ matches)
  /\ (forall pt s, (pt, s) ∈ matches ->
        pt ∈ final_matches_of w h matches
        \/ exists e se,
             e ∈ final_matches_of w h matches
             /\ (e, se) ∈ matches /\ (s <= se)%Q
             /\ (inject_Z (dist_sq pt e) < min_dist_sq w h)%Q).
Proof.
  split; [reflexivity|]. unfold final_matches_of.
  destruct (distinct_matches_spec w h (sort_stable match_before matches) []
              (sort_stable match_before matches))
    as (Hfar & _ & Horig & Hcover).
  - apply sort_stable_sorted; [apply match_before_total|apply match_before_trans].
  - constructor.
  - intros e He. by apply elem_of_nil in He.
  - done.
  - split; [|split].
    + intros a b p q Hab Hp Hq.
      destruct (decide (a < b)%nat) as [Hlt|Hge].
      * pose proof (strongly_sorted_lookup _ _ Hfar a b p q Hlt Hp Hq) as Hpq.
        unfold far_apart in Hpq. by rewrite dist_sq_sym.
      * assert (Hlt : (b < a)%nat) by lia.
        exact (strongly_sorted_lookup _ _ Hfar b a q p Hlt Hq Hp).
    + intros e He. destruct (Horig e He) as (se & Hse).
      exists se. by apply sort_stable_elem in Hse.
    + intros pt s Hin. apply (sort_stable_elem match_before) in Hin.
      destruct (Hcover pt s Hin) as [Hkept|(e & se & He & Hse & Hle & Hclose)];
        [by left|right].
      exists e, se. split; [exact He|]. split; [|by split].
      by apply sort_stable_elem in Hse.
Qed.

(** Three matches of a template of 10 by 10: the second is one pixel
    from the best one and is dropped. *)
Example find_matches_three :
  find_matches 10 10 [((1, 0), 8 # 10); ((0, 0), 9 # 10); ((30, 0), 7 # 10)]
  = [[(0, 0); (10, 0); (10, 10); (0, 10)]; [(30, 0); (40, 0); (40, 10); (30, 10)]].
Proof. reflexivity. Qed.

(** ** The layout sort of the constructor *)

Lemma existsb_is_empty (locations : list Polygon) :
  existsb is_empty locations = true <-> Exists (fun poly => poly = []) locations.
Proof.
  rewrite existsb_exists, Exists_exists. split.
  - intros (poly & Hin & Hemp). exists poly.
    split; [by apply list_elem_of_In|by apply is_empty_nil].
  - intros (poly & Hin & ->). exists []. split; [by apply list_elem_of_In|done].
Qed.

Lemma init_sort_keys (locations : list Polygon) (i : nat) :
  (nth i (map (fun c : Q * Q => Qtrunc (c.2 / 50)) (map centroid locations)) 0,
   nth i (map fst (map centroid locations)) 0%Q)
  = init_key (nth i locations []).
Proof.
  unfold init_key. f_equal.
  - rewrite map_map.
    change 0 with ((fun poly : Polygon => Qtrunc ((centroid poly).2 / 50)) []).
    by rewrite map_nth.
  - rewrite map_map.
    change 0%Q with ((fun poly : Polygon => (centroid poly).1) []).
    by rewrite map_nth.
Qed.

(** X11.  The constructor's sort never loses or repeats a cell.  When a
    polygon has no point the layout stays as it was loaded; otherwise
    the cells come out by rows of 50 pixels of their centroid, top row
    first, and within a row from left to right. *)
Theorem init_sort_rearranges (locations : list Polygon) :
  init_sort_locations locations ≡ₚ locations
  /\ (Exists (fun poly => poly = []) locations ->
      init_sort_locations locations = locations)
  /\ (Forall (fun poly => poly ≠ []) locations ->
      forall (a b : nat) (p q : Polygon),
        (a < b)%nat ->
        init_sort_locations locations !! a = Some p ->
        init_sort_locations locations !! b = Some q ->
        (init_key p).1 < (init_key q).1
        \/ ((init_key p).1 = (init_key q).1
            /\ ((init_key p).2 <= (init_key q).2)%Q)).
Proof.
  unfold init_sort_locations.
  destruct (existsb is_empty locations) eqn:Eempty.
  - split; [reflexivity|]. split; [done|].
    intros Hall. apply existsb_is_empty, Exists_exists in Eempty as (poly & Hin & ->).
    eapply Forall_forall in Hall; [|exact Hin]. done.
  - split; [|split].
    + apply map_nth_permutation. rewrite lexsort_permutation.
      by rewrite !length_map.
    + intros Hex. apply existsb_is_empty in Hex. congruence.
    + intros _ a b p q Hab Hp Hq.
      rewrite list_lookup_fmap in Hp, Hq.
      destruct (lexsort _ _ !! a) as [i|] eqn:Hi; [|discriminate].
      destruct (lexsort _ _ !! b) as [j|] eqn:Hj; [|discriminate].
      injection Hp as <-. injection Hq as <-.
      unfold lexsort in Hi, Hj.
      match type of Hi with
      | sort_stable ?before ?l !! a = Some i =>
          pose proof (sort_stable_sorted before
                        (fun x y => lex_before_total _ _)
                        (fun x y z => lex_before_trans _ _ _) l) as Hsorted
      end.
      pose proof (strongly_sorted_lookup _ _ Hsorted a b i j Hab Hi Hj) as Hij.
      simpl in Hij. rewrite !init_sort_keys in Hij.
      by apply lex_before_spec in Hij.
Qed.

(** A layout of two rows of two cells, loaded out of order, comes out in
    reading order. *)
Example init_sort_shuffled :
  init_sort_locations shuffled_layout
  = [ [(0, 3); (10, 3); (10, 13); (0, 13)];
      [(100, 0); (110, 0); (110, 10); (100, 10)];
      [(0, 62); (10, 62); (10, 72); (0, 72)];
      [(100, 60); (110, 60); (110, 70); (100, 70)] ].
Proof. reflexivity. Qed.

(** ** The game start *)

Lemma cell_back_score_cases `{Cv2} (frame : Image) (poly : Polygon) :
  match cell_back_score frame poly with
  | Ok _ => poly ≠ []
  | Raise e => e = ValueError /\ poly = []
  end.
Proof.
  unfold cell_back_score, frame_rect, clamped_rect.
  destruct poly as [|pt poly]; simpl; [by split|discriminate].
Qed.

Lemma all_back_loop_spec `{Cv2} (frame : Image) (threshold : Q)
    (locations : list Polygon) :
  forall all_back : bool,
    match all_back_loop frame threshold locations all_back with
    | Ok b =>
        exists scores,
          Forall2 (fun poly s => cell_back_score frame poly = Ok s) locations scores
          /\ (b = true <->
              all_back = true /\ Forall (fun s => (threshold <= s)%Q) scores)
    | Raise e => e = ValueError /\ Exists (fun poly => poly = []) locations
    end.
Proof.
  induction locations as [|poly locations IH]; intros all_back; simpl.
  - exists []. split; [constructor|]. split; [by split|by intros [? _]].
  - pose proof (cell_back_score_cases frame poly) as Hcell.
    destruct (cell_back_score frame poly) as [score|e] eqn:Hscore; simpl.
    + specialize (IH (if Qltb score threshold then false else all_back)).
      destruct (all_back_loop _ _ _ _) as [b|e].
      * destruct IH as (scores & Hall & Hiff). exists (score :: scores).
        split; [by constructor|]. rewrite Hiff, Forall_cons.
        destruct (Qltb score threshold) eqn:E.
        -- apply Qltb_lt in E. split; [by intros [? _]|].
           intros (_ & Hle & _). exfalso. apply (Qlt_not_le _ _ E Hle).
        -- apply Qltb_ge in E. tauto.
      * destruct IH as [-> Hex]. split; [reflexivity|by apply Exists_cons_tl].
    + destruct Hcell as [-> ->]. split; [reflexivity|by apply Exists_cons_hd].
Qed.


Lemma none_started_shift `{Cv2} (locations : list Polygon) (threshold : Q)
    (frame : Image) (ts : Q) (cap : list (Image * Q)) (n0 : Z) (k : nat) :
  (n0 mod 5 = 0 -> detect_game_start_frame locations frame threshold = Ok false) ->
  none_started locations threshold cap (n0 + 1) k ->
  none_started locations threshold ((frame, ts) :: cap) n0 (S k).
Proof.
  intros Hhead Hrest j f t Hj Hmod Hlook.
  destruct j as [|j]; simpl in Hlook.
  - injection Hlook as <- <-. apply Hhead. by rewrite Z.add_0_r in Hmod.
  - apply (Hrest j f t); [lia| |exact Hlook].
    by replace (n0 + 1 + Z.of_nat j) with (n0 + Z.of_nat (S j)) by lia.
Qed.

Lemma detect_game_start_from_spec `{Cv2} (locations : list Polygon) (threshold : Q)
    (cap : list (Image * Q)) :
  forall n0 : Z,
    match detect_game_start_from locations threshold cap n0 with
    | Ok r =>
        if r.1.1 then
          exists (k : nat) (frame : Image),
            cap !! k = Some (frame, r.1.2)
            /\ (n0 + Z.of_nat k) mod 5 = 0
            /\ detect_game_start_frame locations frame threshold = Ok true
            /\ r.2 = drop (S k) cap
            /\ none_started locations threshold cap n0 k
        else
          r.1.2 = 0%Q /\ r.2 = []
          /\ none_started locations threshold cap n0 (length cap)
    | Raise e =>
        exists (k : nat) (frame : Image) (ts : Q),
          cap !! k = Some (frame, ts)
          /\ (n0 + Z.of_nat k) mod 5 = 0
          /\ detect_game_start_frame locations frame threshold = Raise e
          /\ none_started locations threshold cap n0 k
    end.
Proof.
  induction cap as [|[frame ts] cap IH]; intros n0; simpl.
  - split; [reflexivity|]. split; [reflexivity|]. intros j f t Hj. lia.
  - assert (Hskip : (n0 mod 5 = 0 ->
                     detect_game_start_frame locations frame threshold = Ok false) ->
              match detect_game_start_from locations threshold cap (n0 + 1) with
              | Ok r =>
                  if r.1.1 then
                    exists (k : nat) (frame0 : Image),
                      ((frame, ts) :: cap) !! k = Some (frame0, r.1.2)
                      /\ (n0 + Z.of_nat k) mod 5 = 0
                      /\ detect_game_start_frame locations frame0 threshold = Ok true
                      /\ r.2 = drop (S k) ((frame, ts) :: cap)
                      /\ none_started locations threshold ((frame, ts) :: cap) n0 k
                  else
                    r.1.2 = 0%Q /\ r.2 = []
                    /\ none_started locations threshold ((frame, ts) :: cap) n0
                         (S (length cap))
              | Raise e =>
                  exists (k : nat) (frame0 : Image) (ts0 : Q),
                    ((frame, ts) :: cap) !! k = Some (frame0, ts0)
                    /\ (n0 + Z.of_nat k) mod 5 = 0
                    /\ detect_game_start_frame locations frame0 threshold = Raise e
                    /\ none_started locations threshold ((frame, ts) :: cap) n0 k
              end).
    { intros Hhead. specialize (IH (n0 + 1)).
      destruct (detect_game_start_from locations threshold cap (n0 + 1)) as [r|e].
      - destruct r.1.1.
        + destruct IH as (k & f & Hk & Hmod & Hf & Hrest & Hnone).
          exists (S k), f. split; [exact Hk|].
          split; [by replace (n0 + Z.of_nat (S k)) with (n0 + 1 + Z.of_nat k) by lia|].
          split; [exact Hf|]. split; [exact Hrest|].
          by apply none_started_shift.
        + destruct IH as (Hts & Hrest & Hnone).
          split; [exact Hts|]. split; [exact Hrest|]. by apply none_started_shift.
      - destruct IH as (k & f & t & Hk & Hmod & Hf & Hnone).
        exists (S k), f, t. split; [exact Hk|].
        split; [by replace (n0 + Z.of_nat (S k)) with (n0 + 1 + Z.of_nat k) by lia|].
        split; [exact Hf|]. by apply none_started_shift. }
    destruct (n0 mod 5 =? 0) eqn:Emod.
    + apply Z.eqb_eq in Emod.
      destruct (detect_game_start_frame locations frame threshold) as [started|e] eqn:Hf;
        simpl.
      * destruct started.
        -- simpl. exists 0%nat, frame. split; [reflexivity|].
           split; [by rewrite Z.add_0_r|]. split; [exact Hf|].
           split; [reflexivity|]. intros j f t Hj. lia.
        -- by apply Hskip.
      * exists 0%nat, frame, ts. split; [reflexivity|].
        split; [by rewrite Z.add_0_r|]. split; [exact Hf|]. intros j f t Hj. lia.
    + apply Z.eqb_neq in Emod. apply Hskip. intros Habs. done.
Qed.

(** X13.  [detect_game_start] looks at every fifth frame of the capture,
    starting with the first, and at no other.  It answers with the
    timestamp of the first of them that shows all the card backs and
    leaves the capture just behind that frame; when there is none it
    answers [(False, 0.0)] with the capture used up; it raises only
    when the check of one of those frames raises. *)
Theorem detect_game_start_first_sampled `{Cv2} (locations : list Polygon)
    (cap : list (Image * Q)) (threshold : Q) :
  match detect_game_start locations cap threshold with
  | Ok r =>
      if r.1.1 then
        exists (k : nat) (frame : Image),
          cap !! k = Some (frame, r.1.2)
          /\ Z.of_nat k mod 5 = 0
          /\ detect_game_start_frame locations frame threshold = Ok true
          /\ r.2 = drop (S k) cap
          /\ none_started locations threshold cap 0 k
      else
        r.1.2 = 0%Q /\ r.2 = []
        /\ none_started locations threshold cap 0 (length cap)
  | Raise e =>
      exists (k : nat) (frame : Image) (ts : Q),
        cap !! k = Some (frame, ts)
        /\ Z.of_nat k mod 5 = 0
        /\ detect_game_start_frame locations frame threshold = Raise e
        /\ none_started locations threshold cap 0 k
  end.
Proof.
  unfold detect_game_start.
  pose proof (detect_game_start_from_spec locations threshold cap 0) as Hloop.
  destruct (detect_game_start_from locations threshold cap 0) as [r|e].
  - destruct r.1.1.
    + destruct Hloop as (k & frame & Hk & Hmod & Hrest).
      exists k, frame. split; [exact Hk|]. split; [|exact Hrest].
      by rewrite Z.add_0_l in Hmod.
    + exact Hloop.
  - destruct Hloop as (k & frame & ts & Hk & Hmod & Hrest).
    exists k, frame, ts. split; [exact Hk|]. split; [|exact Hrest].
    by rewrite Z.add_0_l in Hmod.
Qed.

(** Twelve frames, all but the first showing the card backs: the start
    is found at the sixth frame, the next one that is looked at. *)
Example detect_game_start_sixth_frame :
  (fun r => (r.1.1, r.1.2, length r.2))
    <$> @detect_game_start two_scales [unit_square] start_capture (6 # 10)
  = Ok (true, 5%Q, 6%nat).
Proof. vm_compute. reflexivity. Qed.

(** ** The video session *)

Lemma read_video_spec `{Cv2} (fps : Q) (video : list Image) :
  forall (c : Z) (captured : list FrameSample),
    match read_video fps video c captured with
    | Ok out =>
        (video ≠ [] -> ~ (fps == 0)%Q)
        /\ exists n : nat,
          (n <= length video)%nat
          /\ out = captured
                   ++ imap (fun k frame => stamped fps (c + Z.of_nat k) frame)
                           (take n video)
          /\ (forall k : nat, (k < n)%nat -> (inject_Z (c + Z.of_nat k) / fps <= 8)%Q)
          /\ ((n < length video)%nat -> (8 < inject_Z (c + Z.of_nat n) / fps)%Q)
    | Raise e => e = ZeroDivisionError /\ (fps == 0)%Q /\ video ≠ []
    end.
Proof.
  induction video as [|frame video IH]; intros c captured; simpl.
  - split; [intros Hnil; by destruct Hnil|].
    exists 0%nat. split; [lia|]. split; [by rewrite app_nil_r|].
    split; intros; lia.
  - destruct (Qeq_bool fps 0) eqn:Efps.
    { split; [reflexivity|]. split; [by apply Qeq_bool_iff|discriminate]. }
    assert (Hfps : ~ (fps == 0)%Q).
    { intros Heq. apply Qeq_bool_iff in Heq. congruence. }
    destruct (Qltb 8 (inject_Z c / fps)) eqn:Elate.
    + apply Qltb_lt in Elate. split; [intros _; exact Hfps|].
      exists 0%nat. split; [lia|].
      split; [by rewrite app_nil_r|]. split; [intros; lia|].
      intros _. by rewrite Z.add_0_r.
    + apply Qltb_ge in Elate.
      specialize (IH (c + 1)
                     (captured
                        ++ [mkFrameSample (inject_Z c / fps) frame
                              (0, 0, (frame_shape frame).2, (frame_shape frame).1)])).
      destruct (read_video fps video (c + 1) _) as [out|e].
      2:{ destruct IH as (He & Hzero & _). by repeat split. }
      destruct IH as (_ & n & Hn & -> & Hin & Hout).
      split; [intros _; exact Hfps|].
      exists (S n). split; [lia|]. split; [|split].
      * rewrite <- app_assoc. f_equal. simpl. f_equal.
        -- unfold stamped. by rewrite Z.add_0_r.
        -- apply imap_ext. intros k x _. simpl. f_equal. lia.
      * intros k Hk. destruct k as [|k]; [by rewrite Z.add_0_r|].
        replace (c + Z.of_nat (S k)) with (c + 1 + Z.of_nat k) by lia.
        apply Hin. lia.
      * intros Hlt. replace (c + Z.of_nat (S n)) with (c + 1 + Z.of_nat n) by lia.
        apply Hout. lia.
Qed.

(** X14.  The video loop keeps a leading part of the video: frame [k]
    is stamped [k / fps] with the whole frame as its region, every kept
    stamp is at most 8 seconds, and the first frame that is left out,
    when there is one, has a stamp above 8 seconds.  It raises exactly
    when the frame rate is zero and the video has a frame, and then
    [ZeroDivisionError]. *)
Theorem read_video_keeps_eight_seconds `{Cv2} (fps : Q) (video : list Image) :
  match read_video fps video 0 [] with
  | Ok captured_frames =>
      (video = [] \/ ~ (fps == 0)%Q)
      /\ exists n : nat,
        (n <= length video)%nat
        /\ captured_frames
           = imap (fun k frame => stamped fps (Z.of_nat k) frame) (take n video)
        /\ (forall k : nat, (k < n)%nat -> (inject_Z (Z.of_nat k) / fps <= 8)%Q)
        /\ ((n < length video)%nat -> (8 < inject_Z (Z.of_nat n) / fps)%Q)
  | Raise e => e = ZeroDivisionError /\ (fps == 0)%Q /\ video ≠ []
  end.
Proof.
  pose proof (read_video_spec fps video 0 []) as Hloop.
  destruct (read_video fps video 0 []) as [captured|e]; [|exact Hloop].
  destruct Hloop as (Hfps & n & Hn & -> & Hin & Hout).
  split.
  - destruct video as [|frame video]; [by left|right].
    apply Hfps. discriminate.
  - exists n. split; [exact Hn|]. split; [reflexivity|].
    split; [intros k Hk; by apply (Hin k)|exact Hout].
Qed.

(** A hundred frames at 5 frames a second: the frames 0 to 40 are kept. *)
Example read_video_five_fps :
  length <$> @read_video two_scales 5 long_video 0 [] = Ok 41%nat.
Proof. vm_compute. reflexivity. Qed.

(** ** The stable runs and small layouts *)

(** X15.  The sequences the scan records are exactly the maximal runs of
    at least 3 stable frames, each once, in the order of the recording,
    and two of them are always separated by a frame that is not
    stable. *)
Theorem stable_sequences_are_the_runs (flags : list bool) :
  (forall s e, (s, e) ∈ stable_sequences flags <-> qualifying_run flags s e)
  /\ forall (a b : nat) (p q : Z * Z),
       (a < b)%nat ->
       stable_sequences flags !! a = Some p ->
       stable_sequences flags !! b = Some q ->
       p.2 + 1 < q.1.
Proof.
  destruct (stable_sequences_spec flags) as [Hiff Hsorted].
  split; [exact Hiff|].
  intros a b [s1 e1] [s2 e2] Hab Hp Hq. simpl.
  pose proof (strongly_sorted_lookup _ _ Hsorted a b _ _ Hab Hp Hq) as Hlt.
  simpl in Hlt.
  apply list_elem_of_lookup_2, Hiff in Hp.
  apply list_elem_of_lookup_2, Hiff in Hq.
  destruct Hp as [(_ & Hse1 & Hrun1 & _ & Hend1) _].
  destruct Hq as [(_ & Hse2 & Hrun2 & Hbefore2 & _) _].
  destruct (Z.lt_ge_cases (e1 + 1) s2) as [Hfar|Hnear]; [exact Hfar|].
  exfalso. destruct (decide (s2 = e1 + 1)) as [->|Hne].
  - apply Hend1, Hrun2. lia.
  - apply Hbefore2, Hrun1. lia.
Qed.

Lemma back_count_bounds `{Cv2} (s : FrameSample) (locations : list Polygon) (n : Z) :
  back_count s locations = Ok n -> 0 <= n <= Z.of_nat (length locations).
Proof.
  revert n. induction locations as [|poly locations IH]; intros n Hn; simpl in Hn.
  - injection Hn as <-. simpl. lia.
  - apply bind_Ok in Hn as (b & _ & Hn). apply bind_Ok in Hn as (m & Hm & Hn).
    injection Hn as <-. specialize (IH m Hm). simpl length.
    destruct b; lia.
Qed.

Lemma no_stable_frame_window (flags : list bool) :
  Forall (fun b => b = false) flags -> stable_window flags = (0, 0).
Proof.
  intros Hall.
  destruct (stable_window_spec flags) as [(s & e & Hfirst & _)|[_ Hw]]; [|exact Hw].
  exfalso. destruct Hfirst as [[(Hs & Hse & Hrun & _) _] _].
  destruct (Hrun s) as [_ Hflag]; [lia|].
  apply list_elem_of_lookup_2 in Hflag.
  eapply Forall_forall in Hall; [|exact Hflag]. discriminate.
Qed.

(** X16.  A layout of fewer than 22 cells never has a stable frame:
    whatever the recording shows, the scan falls back to frame 0 as
    baseline and as start. *)
Theorem small_layout_has_no_stable_window `{Cv2} (locations : list Polygon)
    (captured_frames : list FrameSample) :
  Forall (fun poly => poly ≠ []) locations ->
  (length locations < 22)%nat ->
  find_stable_window locations captured_frames = Ok (0, 0).
Proof.
  intros Hne Hsmall. unfold find_stable_window.
  destruct (mapM_total (frame_is_stable locations) captured_frames) as (flags & Hflags).
  { intros s _. by apply frame_is_stable_total. }
  rewrite Hflags. simpl. f_equal. apply no_stable_frame_window.
  apply mapM_Ok_Forall2 in Hflags.
  apply Forall_forall. intros b Hb.
  apply list_elem_of_lookup_1 in Hb as (i & Hi).
  destruct (Forall2_lookup_r _ _ _ _ _ Hflags Hi) as (s & _ & Hs).
  unfold frame_is_stable in Hs. apply bind_Ok in Hs as (n & Hn & Hs).
  injection Hs as <-. apply back_count_bounds in Hn.
  apply Z.leb_gt. lia.
Qed.

(** The theorem at a layout of one cell and the four opening frames,
    three of which show the card backs. *)
Lemma small_layout_has_no_stable_window_witness :
  @find_stable_window two_scales [unit_square] opening_frames = Ok (0, 0).
Proof.
  apply (@small_layout_has_no_stable_window two_scales [unit_square] opening_frames).
  - repeat constructor. discriminate.
  - simpl. lia.
Defined.

(** ** The layout file, again *)


(** ** Cell rectangles and baselines *)

Lemma foldl_min_spec (l : list Z) :
  forall x, foldl Z.min x l <= x /\ Forall (fun y => foldl Z.min x l <= y) l.
Proof.
  induction l as [|y l IH]; intros x; simpl; [split; [lia|constructor]|].
  destruct (IH (Z.min x y)) as [Hle Hall]. split; [lia|].
  constructor; [lia|exact Hall].
Qed.

Lemma foldl_max_spec (l : list Z) :
  forall x, x <= foldl Z.max x l /\ Forall (fun y => y <= foldl Z.max x l) l.
Proof.
  induction l as [|y l IH]; intros x; simpl; [split; [lia|constructor]|].
  destruct (IH (Z.max x y)) as [Hle Hall]. split; [lia|].
  constructor; [lia|exact Hall].
Qed.

Lemma py_min_spec (l : list Z) (m : Z) :
  py_min l = Ok m -> Forall (fun y => m <= y) l.
Proof.
  destruct l as [|x l]; [discriminate|]. simpl. intros Hm. injection Hm as <-.
  destruct (foldl_min_spec l x) as [Hle Hall]. by constructor.
Qed.

Lemma py_max_spec (l : list Z) (m : Z) :
  py_max l = Ok m -> Forall (fun y => y <= m) l.
Proof.
  destruct l as [|x l]; [discriminate|]. simpl. intros Hm. injection Hm as <-.
  destruct (foldl_max_spec l x) as [Hle Hall]. by constructor.
Qed.

(** X18.  The rectangle of a cell: a polygon without a point raises
    [ValueError]; otherwise the rectangle starts at 0 or later, ends at
    the width and the height or earlier, and every point of the polygon
    that lies within the frame lies within the rectangle. *)
Theorem clamped_rect_within (width height : Z) (poly : Polygon) :
  match clamped_rect width height poly with
  | Ok r =>
      poly ≠ []
      /\ 0 <= x_min r /\ 0 <= y_min r
      /\ x_max r <= width /\ y_max r <= height
      /\ forall x y, (x, y) ∈ poly ->
           (0 <= x -> x_min r <= x) /\ (x <= width -> x <= x_max r)
           /\ (0 <= y -> y_min r <= y) /\ (y <= height -> y <= y_max r)
  | Raise e => e = ValueError /\ poly = []
  end.
Proof.
  unfold clamped_rect.
  destruct (py_min (map fst poly)) as [lo_x|e] eqn:Hlx.
  2:{ destruct poly; [|discriminate]. simpl in Hlx. injection Hlx as <-. by split. }
  destruct (py_min (map snd poly)) as [lo_y|e] eqn:Hly;
    [|destruct poly; discriminate].
  destruct (py_max (map fst poly)) as [hi_x|e] eqn:Hhx;
    [|destruct poly; discriminate].
  destruct (py_max (map snd poly)) as [hi_y|e] eqn:Hhy;
    [|destruct poly; discriminate].
  simpl. split; [by destruct poly|].
  split; [lia|]. split; [lia|]. split; [lia|]. split; [lia|].
  intros x y Hin.
  apply py_min_spec in Hlx, Hly. apply py_max_spec in Hhx, Hhy.
  assert (Hx : x ∈ map fst poly) by (apply list_elem_of_fmap; by exists (x, y)).
  assert (Hy : y ∈ map snd poly) by (apply list_elem_of_fmap; by exists (x, y)).
  eapply Forall_forall in Hlx; [|exact Hx]. eapply Forall_forall in Hhx; [|exact Hx].
  eapply Forall_forall in Hly; [|exact Hy]. eapply Forall_forall in Hhy; [|exact Hy].
  lia.
Qed.

Lemma build_baselines_spec `{Cv2} (baseline : FrameSample) (locations : list Polygon) :
  Forall (fun poly => poly ≠ []) locations ->
  forall (i0 : nat) (acc : gmap nat Gray),
    exists per_card_baselines,
      build_baselines baseline i0 locations acc = Ok per_card_baselines
      /\ (forall k poly, locations !! k = Some poly ->
            exists r,
              clamped_rect (region_width (sample_region baseline))
                           (region_height (sample_region baseline)) poly = Ok r
              /\ per_card_baselines !! (i0 + k)%nat
                 = Some (gray_roi (sample_frame baseline) r))
      /\ (forall j, (j < i0 \/ i0 + length locations <= j)%nat ->
                    per_card_baselines !! j = acc !! j).
Proof.
  induction 1 as [|poly locations Hpoly Hall IH]; intros i0 acc; simpl.
  - exists acc. split; [reflexivity|]. split; [|done].
    intros k p Hk. by rewrite lookup_nil in Hk.
  - destruct (clamped_rect_total (region_width (sample_region baseline))
                (region_height (sample_region baseline)) poly Hpoly) as (r & Hr).
    rewrite Hr. simpl.
    destruct (IH (S i0) (<[i0 := gray_roi (sample_frame baseline) r]> acc))
      as (m & Hrun & Hcells & Hother).
    exists m. split; [exact Hrun|]. split.
    + intros k p Hk. destruct k as [|k]; simpl in Hk.
      * injection Hk as <-. exists r. split; [exact Hr|].
        rewrite Nat.add_0_r, Hother by lia. apply lookup_insert_eq.
      * destruct (Hcells k p Hk) as (r' & Hr' & Hm).
        exists r'. split; [exact Hr'|].
        by replace (i0 + S k)%nat with (S i0 + k)%nat by lia.
    + intros j Hj. rewrite Hother by lia. apply lookup_insert_ne. lia.
Qed.


